(** * The Thoughtful AI support agent ([app.py]): normalizer, matcher, responder

    A shallow embedding of [ThoughtfulAIAgent] together with the parts of the
    Python runtime it calls: [str.lower], [str.strip], [re.sub] for the two
    patterns of [normalize_text], [difflib.get_close_matches] with the
    [SequenceMatcher] behind it, [heapq.nlargest] for [n = 1] and
    [random.choice].

    The library functions are embedded from the CPython 3.11 sources
    ([Lib/difflib.py], [Lib/heapq.py], [Lib/random.py]) and keep their names;
    [SequenceMatcher] is the one [get_close_matches] creates, with
    [isjunk=None] and [autojunk=True].

    Modelling conventions.
    - A Python [str] is a list of characters; characters are the code points
      below 256 (Latin-1), classified exactly as CPython classifies them
      ([str.isspace], [\w], [\s], [str.lower]).
    - Python's [float] scores are exact rationals ([Q]): [2.0 * m / n] is the
      rational [2m/n], compared with [Qle_bool] and [Qeq_bool].
    - Python integers used as indices are naturals; the places where the
      source relies on a negative key or a subtraction are written out.
    - Exceptions are values of [exn]; a function that may raise returns
      [exn + A]. The side channel ([st.error]) and the random source are
      fields of an explicit [world]. *)

From Stdlib Require Import QArith Ascii String.
From stdpp Require Import gmap strings list sorting.

Open Scope nat_scope.

(** ** Python strings *)

(** A Python [str]. *)
Abbreviation str := (list ascii).

Module PyStr.

Definition ord (c : ascii) : nat := nat_of_ascii c.

Definition between (lo hi : nat) (c : ascii) : bool :=
  (lo <=? ord c) && (ord c <=? hi).

(** [str.isspace] on one character; the same class is the one [str.strip]
    removes and the one [\s] matches in a [str] pattern. *)
Definition isspace (c : ascii) : bool :=
  between 9 13 c || between 28 32 c || (ord c =? 133) || (ord c =? 160).

(** Characters with a distinct lowercase form. *)
Definition has_lower (c : ascii) : bool :=
  between 65 90 c || between 192 214 c || between 216 222 c.

Definition lower_char (c : ascii) : ascii :=
  if has_lower c then ascii_of_nat (ord c + 32) else c.

(** [str.lower] *)
Definition lower (s : str) : str := map lower_char s.

Fixpoint lstrip (s : str) : str :=
  match s with
  | [] => []
  | c :: r => if isspace c then lstrip r else s
  end.

Definition rstrip (s : str) : str := reverse (lstrip (reverse s)).

(** [str.strip] without argument *)
Definition strip (s : str) : str := rstrip (lstrip s).

(** Comparison of two strings by code points, as [str.__gt__] does:
    the first differing character decides, a proper prefix is smaller. *)
Fixpoint gt (s t : str) : bool :=
  match s, t with
  | [], _ => false
  | _ :: _, [] => true
  | c :: s', d :: t' =>
      if decide (c = d) then gt s' t' else ord d <? ord c
  end.

Definition of_string (s : string) : str := list_ascii_of_string s.

End PyStr.


(** A string literal of the source as a [str]. *)
Definition py (s : string) : str := PyStr.of_string s.

(** ** The two regular expressions of [normalize_text] *)

Module Re.
Import PyStr.

(** [\w] in a [str] pattern: alphanumeric ([str.isalnum]) or underscore. *)
Definition isword (c : ascii) : bool :=
  between 48 57 c || between 65 90 c || (ord c =? 95) || between 97 122 c
  || (ord c =? 170) || between 178 179 c || (ord c =? 181)
  || between 185 186 c || between 188 190 c
  || between 192 214 c || between 216 246 c || between 248 255 c.

(** [re.sub(r'[^\w\s]', '', text)]: every character that is neither a word
    character nor whitespace is deleted. *)
Definition sub_nonword_nonspace (text : str) : str :=
  filter (λ c, isword c || isspace c = true) text.

(** [re.sub(r'\s+', ' ', text)]: every maximal run of whitespace becomes one
    space. [in_run] tells that the previous character was whitespace. *)
Fixpoint sub_spaces_from (in_run : bool) (text : str) : str :=
  match text with
  | [] => []
  | c :: r =>
      if isspace c
      then (if in_run then sub_spaces_from true r
            else " "%char :: sub_spaces_from true r)
      else c :: sub_spaces_from false r
  end.

Definition sub_spaces (text : str) : str := sub_spaces_from false text.

End Re.

(** ** [ThoughtfulAIAgent.normalize_text] *)

Definition normalize_text (text : str) : str :=
  let text := PyStr.strip (PyStr.lower text) in
  let text := Re.sub_nonword_nonspace text in
  let text := Re.sub_spaces text in
  text.


(** ** Exceptions *)

(** The exceptions the modelled code can raise. [str(e)] is determined by the
    constructor and its argument. *)
Inductive exn :=
| ValueError_cutoff (cutoff : Q)   (* "cutoff must be in [0.0, 1.0]: %r" *)
| ValueError_index (x : str)       (* list.index: "%r is not in list" *)
| KeyError (key : str)             (* dict subscript *)
| IndexError.                      (* list subscript *)

(** ** [difflib] *)

Module Difflib.

(** A block [(i, j, k)]: [a[i:i+k] == b[j:j+k]]. *)
Abbreviation Match := (nat * nat * nat)%type.

(** A queue entry [(alo, ahi, blo, bhi)] of [get_matching_blocks]. *)
Abbreviation window := (nat * nat * nat * nat)%type.

Definition _calculate_ratio (matches length : nat) : Q :=
  match length with
  | 0 => 1%Q
  | S _ => (2 * inject_Z (Z.of_nat matches) / inject_Z (Z.of_nat length))%Q
  end.

(** [SequenceMatcher(isjunk=None, autojunk=True)] after [set_seq1(a)] and
    [set_seq2(b)]: the two sequences and the index [b2j] that [__chain_b]
    builds for [b]. With [isjunk] absent, [bjunk] is empty. *)
Record SequenceMatcher := {
  a : str;
  b : str;
  b2j : gmap ascii (list nat)
}.

(** [indices = b2j.setdefault(elt, []); indices.append(i)] *)
Definition setdefault_append (b2j : gmap ascii (list nat)) (elt : ascii) (i : nat)
  : gmap ascii (list nat) :=
  <[elt := default [] (b2j !! elt) ++ [i]]> b2j.

(** [for i, elt in enumerate(b)], counting from [i]. *)
Fixpoint enumerate_b (i : nat) (b : str) (b2j : gmap ascii (list nat))
  : gmap ascii (list nat) :=
  match b with
  | [] => b2j
  | elt :: r => enumerate_b (S i) r (setdefault_append b2j elt i)
  end.

(** [__chain_b]: the positions of every element of [b]; when [b] has 200
    elements or more, the elements that occur more than [n // 100 + 1] times
    ("popular") are deleted from the index. *)
Definition chain_b (b : str) : gmap ascii (list nat) :=
  let b2j := enumerate_b 0 b ∅ in
  let n := length b in
  if 200 <=? n then
    let ntest := n / 100 + 1 in
    filter (λ kv : ascii * list nat, length kv.2 ≤ ntest) b2j
  else b2j.

Definition isbjunk (c : ascii) : bool := false.

Definition set_seqs (a b : str) : SequenceMatcher :=
  {| a := a; b := b; b2j := chain_b b |}.

(** [j2len.get(j-1, 0)]; the key [-1] is never present. *)
Definition j2lenget_pred (j2len : gmap nat nat) (j : nat) : nat :=
  match j with
  | 0 => 0
  | S j' => default 0 (j2len !! j')
  end.

(** The inner loop of [find_longest_match] for row [i] over the positions
    [js] of [a[i]] in [b]. *)
Fixpoint scan_row (blo bhi i : nat) (j2len : gmap nat nat) (js : list nat)
    (newj2len : gmap nat nat) (best : Match) : gmap nat nat * Match :=
  match js with
  | [] => (newj2len, best)
  | j :: js' =>
      if j <? blo then scan_row blo bhi i j2len js' newj2len best
      else if bhi <=? j then (newj2len, best)
      else
        let k := j2lenget_pred j2len j + 1 in
        let newj2len := <[j := k]> newj2len in
        let best := if best.2 <? k then (i + 1 - k, j + 1 - k, k) else best in
        scan_row blo bhi i j2len js' newj2len best
  end.

(** [b2j.get(a[i], nothing)] *)
Definition row_positions (s : SequenceMatcher) (i : nat) : list nat :=
  match a s !! i with
  | Some x => default [] (b2j s !! x)
  | None => []
  end.

(** The outer loop, [for i in range(alo, ahi)], over the list of rows. *)
Fixpoint scan_rows (s : SequenceMatcher) (blo bhi : nat) (rows : list nat)
    (j2len : gmap nat nat) (best : Match) : Match :=
  match rows with
  | [] => best
  | i :: rows' =>
      let '(newj2len, best) :=
        scan_row blo bhi i j2len (row_positions s i) ∅ best in
      scan_rows s blo bhi rows' newj2len best
  end.

(** [while besti > alo and bestj > blo and guard(b[bestj-1]) and
           a[besti-1] == b[bestj-1]: besti, bestj, bestsize = ...]
    The loop runs while [besti] is a successor, so it recurses on [besti]. *)
Fixpoint extend_left (guard : ascii → bool) (s : SequenceMatcher) (alo blo : nat)
    (besti bestj bestsize : nat) : Match :=
  match besti with
  | 0 => (besti, bestj, bestsize)
  | S i' =>
      if (alo <? besti) && (blo <? bestj) then
        match a s !! i', b s !! (bestj - 1) with
        | Some x, Some y =>
            if guard y && bool_decide (x = y)
            then extend_left guard s alo blo i' (bestj - 1) (bestsize + 1)
            else (besti, bestj, bestsize)
        | _, _ => (besti, bestj, bestsize)
        end
      else (besti, bestj, bestsize)
  end.

(** [while besti+bestsize < ahi and bestj+bestsize < bhi and
           guard(b[bestj+bestsize]) and
           a[besti+bestsize] == b[bestj+bestsize]: bestsize += 1]
    [room] is [ahi - (besti + bestsize)], the loop's variant: the first
    conjunct of the condition is [room > 0]. *)
Fixpoint extend_right (guard : ascii → bool) (s : SequenceMatcher) (bhi : nat)
    (room : nat) (besti bestj bestsize : nat) : Match :=
  match room with
  | 0 => (besti, bestj, bestsize)
  | S room' =>
      if bestj + bestsize <? bhi then
        match a s !! (besti + bestsize), b s !! (bestj + bestsize) with
        | Some x, Some y =>
            if guard y && bool_decide (x = y)
            then extend_right guard s bhi room' besti bestj (bestsize + 1)
            else (besti, bestj, bestsize)
        | _, _ => (besti, bestj, bestsize)
        end
      else (besti, bestj, bestsize)
  end.

Definition find_longest_match (s : SequenceMatcher) (alo ahi blo bhi : nat) : Match :=
  let best := scan_rows s blo bhi (seq alo (ahi - alo)) ∅ (alo, blo, 0) in
  let notjunk c := negb (isbjunk c) in
  let '(besti, bestj, bestsize) := best in
  let '(besti, bestj, bestsize) := extend_left notjunk s alo blo besti bestj bestsize in
  let '(besti, bestj, bestsize) :=
    extend_right notjunk s bhi (ahi - (besti + bestsize)) besti bestj bestsize in
  let '(besti, bestj, bestsize) := extend_left isbjunk s alo blo besti bestj bestsize in
  extend_right isbjunk s bhi (ahi - (besti + bestsize)) besti bestj bestsize.

(** The [while queue:] loop of [get_matching_blocks]. The head of the list is
    the top of the stack ([queue.pop()] takes the last appended entry).
    [None]: the fuel ran out before the queue was empty. *)
Fixpoint blocks_loop (s : SequenceMatcher) (fuel : nat) (queue : list window)
    (matching_blocks : list Match) : option (list Match) :=
  match queue with
  | [] => Some matching_blocks
  | (alo, ahi, blo, bhi) :: queue =>
      match fuel with
      | 0 => None
      | S fuel =>
          let '(i, j, k) := find_longest_match s alo ahi blo bhi in
          if k =? 0 then blocks_loop s fuel queue matching_blocks
          else
            let queue :=
              if (alo <? i) && (blo <? j) then (alo, i, blo, j) :: queue else queue in
            let queue :=
              if (i + k <? ahi) && (j + k <? bhi) then (i + k, ahi, j + k, bhi) :: queue
              else queue in
            blocks_loop s fuel queue (matching_blocks ++ [(i, j, k)])
      end
  end.

(** Tuple order on blocks, for [matching_blocks.sort()]. *)
Definition Match_le (x y : Match) : Prop :=
  let '(i1, j1, k1) := x in
  let '(i2, j2, k2) := y in
  i1 < i2 ∨ (i1 = i2 ∧ (j1 < j2 ∨ (j1 = j2 ∧ k1 ≤ k2))).

#[global] Instance Match_le_dec : RelDecision Match_le.
Proof. intros [[i1 j1] k1] [[i2 j2] k2]. unfold Match_le. apply _. Defined.

(** The loop that merges adjacent blocks; [cur] is [(i1, j1, k1)]. *)
Fixpoint collapse_adjacent (blocks : list Match) (cur : Match)
    (non_adjacent : list Match) : Match * list Match :=
  match blocks with
  | [] => (cur, non_adjacent)
  | (i2, j2, k2) :: rest =>
      let '(i1, j1, k1) := cur in
      if (i1 + k1 =? i2) && (j1 + k1 =? j2)
      then collapse_adjacent rest (i1, j1, k1 + k2) non_adjacent
      else collapse_adjacent rest (i2, j2, k2)
             (if k1 =? 0 then non_adjacent else non_adjacent ++ [(i1, j1, k1)])
  end.

(** The fuel of the queue loop: every iteration removes a window and adds at
    most two whose widths in [a] sum to less. *)
Definition blocks_fuel (la : nat) : nat := 2 * la + 1.

Definition get_matching_blocks (s : SequenceMatcher) : list Match :=
  let la := length (a s) in
  let lb := length (b s) in
  let matching_blocks :=
    default [] (blocks_loop s (blocks_fuel la) [(0, la, 0, lb)] []) in
  let matching_blocks := merge_sort Match_le matching_blocks in
  let '((i1, j1, k1), non_adjacent) := collapse_adjacent matching_blocks (0, 0, 0) [] in
  let non_adjacent :=
    if k1 =? 0 then non_adjacent else non_adjacent ++ [(i1, j1, k1)] in
  non_adjacent ++ [(la, lb, 0)].

(** [sum(triple[-1] for triple in self.get_matching_blocks())] *)
Definition matches_of (blocks : list Match) : nat := sum_list_with snd blocks.

Definition ratio (s : SequenceMatcher) : Q :=
  let matches := matches_of (get_matching_blocks s) in
  _calculate_ratio matches (length (a s) + length (b s)).

(** [fullbcount[elt] = fullbcount.get(elt, 0) + 1] for every [elt] of [b]. *)
Definition fullbcount (b : str) : gmap ascii nat :=
  foldl (λ m elt, <[elt := default 0 (m !! elt) + 1]> m) ∅ b.

(** The loop of [quick_ratio] over [a]; [avail] holds integers that may go
    below zero. *)
Fixpoint quick_loop (fullbcount : gmap ascii nat) (a : str) (avail : gmap ascii Z)
    (matches : nat) : nat :=
  match a with
  | [] => matches
  | elt :: r =>
      let numb := match avail !! elt with
                  | Some n => n
                  | None => Z.of_nat (default 0 (fullbcount !! elt))
                  end in
      quick_loop fullbcount r (<[elt := (numb - 1)%Z]> avail)
        (if (0 <? numb)%Z then matches + 1 else matches)
  end.

Definition quick_ratio (s : SequenceMatcher) : Q :=
  let matches := quick_loop (fullbcount (b s)) (a s) ∅ 0 in
  _calculate_ratio matches (length (a s) + length (b s)).

Definition real_quick_ratio (s : SequenceMatcher) : Q :=
  let la := length (a s) in
  let lb := length (b s) in
  _calculate_ratio (la `min` lb) (la + lb).

(** [x >= y] on scores *)
Definition ge (x y : Q) : bool := Qle_bool y x.

(** Tuple comparison [(s1, x1) > (s2, x2)]: the first component that differs
    decides. *)
Definition tuple_gt (p q : Q * str) : bool :=
  if Qeq_bool p.1 q.1 then PyStr.gt p.2 q.2 else negb (Qle_bool p.1 q.1).

(** [max(iterable)]: the first maximal item. *)
Definition py_max (first : Q * str) (rest : list (Q * str)) : Q * str :=
  foldl (λ maxitem item, if tuple_gt item maxitem then item else maxitem) first rest.

(** [heapq.nlargest(1, result)], which is [max] with an empty default. *)
Definition nlargest1 (result : list (Q * str)) : list (Q * str) :=
  match result with
  | [] => []
  | first :: rest => [py_max first rest]
  end.

(** The [for x in possibilities] loop of [get_close_matches]: the scored
    candidates that pass the three cutoff tests. *)
Definition close_candidates (word : str) (possibilities : list str) (cutoff : Q)
  : list (Q * str) :=
  let chained := chain_b word in
  foldl (λ result x,
           let s := {| a := x; b := word; b2j := chained |} in
           if ge (real_quick_ratio s) cutoff
              && ge (quick_ratio s) cutoff
              && ge (ratio s) cutoff
           then result ++ [(ratio s, x)] else result)
        [] possibilities.

(** [get_close_matches(word, possibilities, n=1, cutoff)] *)
Definition get_close_matches (word : str) (possibilities : list str) (cutoff : Q)
  : exn + list str :=
  if negb (Qle_bool 0 cutoff && Qle_bool cutoff 1) then inl (ValueError_cutoff cutoff)
  else
    let result := close_candidates word possibilities cutoff in
    let result := nlargest1 result in
    inr (map snd result).

End Difflib.

(** ** Raising code: [exn + A] with its bind *)

#[global] Instance exn_ret : MRet (sum exn) := λ A x, inr x.
#[global] Instance exn_bind : MBind (sum exn) :=
  λ A B f m, match m with inl e => inl e | inr x => f x end.

(** [l.index(x)] *)
Fixpoint list_index_from (i : nat) (l : list str) (x : str) : exn + nat :=
  match l with
  | [] => inl (ValueError_index x)
  | y :: r => if decide (y = x) then inr i else list_index_from (S i) r x
  end.

Definition list_index (l : list str) (x : str) : exn + nat := list_index_from 0 l x.

(** [l[i]] for a non-negative [i] *)
Definition list_getitem (l : list str) (i : nat) : exn + str :=
  match l !! i with
  | Some x => inr x
  | None => inl IndexError
  end.

(** [d[k]] *)
Definition dict_getitem (d : gmap str str) (k : str) : exn + str :=
  match d !! k with
  | Some v => inr v
  | None => inl (KeyError k)
  end.

(** ** The world outside the agent *)

(** [st_errors]: the messages sent to [st.error], oldest first, each given by
    the exception it was formatted from.
    [random_tape], [random_drawn]: the random source; the [n]-th call of
    [random.choice] reads [random_tape n].
    [matcher_calls]: ghost state, the arguments of every entry into
    [find_best_match]; it lets a statement say that the matcher was not
    called. *)
Record world := {
  st_errors : list exn;
  random_tape : nat → nat;
  random_drawn : nat;
  matcher_calls : list (str * Q)
}.

(** [st.error(f"Error during question matching: {str(e)}")] *)
Definition st_error (e : exn) (w : world) : world :=
  {| st_errors := st_errors w ++ [e];
     random_tape := random_tape w;
     random_drawn := random_drawn w;
     matcher_calls := matcher_calls w |}.

Definition enter_matcher (user_question : str) (threshold : Q) (w : world) : world :=
  {| st_errors := st_errors w;
     random_tape := random_tape w;
     random_drawn := random_drawn w;
     matcher_calls := matcher_calls w ++ [(user_question, threshold)] |}.

(** [random._randbelow(n)] for [n > 0] *)
Definition randbelow (n : nat) (w : world) : nat * world :=
  (random_tape w (random_drawn w) `mod` n,
   {| st_errors := st_errors w;
      random_tape := random_tape w;
      random_drawn := S (random_drawn w);
      matcher_calls := matcher_calls w |}).

(** [random.choice(seq)]: [IndexError] on an empty sequence, else
    [seq[_randbelow(len(seq))]]. *)
Definition random_choice (seq : list str) (w : world) : (exn + str) * world :=
  match seq with
  | [] => (inl IndexError, w)
  | _ :: _ =>
      let '(k, w) := randbelow (length seq) w in
      (list_getitem seq k, w)
  end.

(** ** The embedded data *)

Record QAEntry := { question : str; answer : str }.

Definition THOUGHTFUL_AI_DATA : list QAEntry := [
  {| question := py "What does the eligibility verification agent (EVA) do?";
     answer := py "EVA automates the process of verifying a patient's eligibility and benefits information in real-time, eliminating manual data entry errors and reducing claim rejections." |};
  {| question := py "What does the claims processing agent (CAM) do?";
     answer := py "CAM streamlines the submission and management of claims, improving accuracy, reducing manual intervention, and accelerating reimbursements." |};
  {| question := py "How does the payment posting agent (PHIL) work?";
     answer := py "PHIL automates the posting of payments to patient accounts, ensuring fast, accurate reconciliation of payments and reducing administrative burden." |};
  {| question := py "Tell me about Thoughtful AI's Agents.";
     answer := py "Thoughtful AI provides a suite of AI-powered automation agents designed to streamline healthcare processes. These include Eligibility Verification (EVA), Claims Processing (CAM), and Payment Posting (PHIL), among others." |};
  {| question := py "What are the benefits of using Thoughtful AI's agents?";
     answer := py "Using Thoughtful AI's Agents can significantly reduce administrative costs, improve operational efficiency, and reduce errors in critical processes like claims management and payment posting." |}
].

Definition FALLBACK_RESPONSES : list str := [
  py "I'm a specialized assistant for Thoughtful AI's healthcare automation agents. I can help you learn about EVA, CAM, PHIL, and other Thoughtful AI services. Could you ask me something specific about our agents?";
  py "I'm designed to assist with questions about Thoughtful AI's automation solutions. Please feel free to ask about our healthcare agents like EVA, CAM, or PHIL.";
  py "I specialize in information about Thoughtful AI's healthcare automation agents. How can I help you learn more about our solutions?"
].

(** The string [get_response] returns for an empty question. *)
Definition PROMPT : str :=
  py "Please ask me a question about Thoughtful AI's healthcare automation agents.".

(** ** [ThoughtfulAIAgent] *)

Record ThoughtfulAIAgent := {
  questions : list str;
  qa_dict : gmap str str
}.

(** [__init__] over a data set: the questions in order, and the dictionary
    comprehension, in which a later item replaces an earlier one with the
    same question. *)
Definition init_from (data : list QAEntry) : ThoughtfulAIAgent :=
  {| questions := map question data;
     qa_dict := foldl (λ d item, <[question item := answer item]> d) ∅ data |}.

Definition __init__ : ThoughtfulAIAgent := init_from THOUGHTFUL_AI_DATA.

(** The body of the [try] of [find_best_match]. *)
Definition find_best_match_try (self : ThoughtfulAIAgent) (user_question : str)
    (threshold : Q) : exn + (option str * option str) :=
  let normalized_user_question := normalize_text user_question in
  let normalized_questions := map normalize_text (questions self) in
  matches ← Difflib.get_close_matches normalized_user_question
              normalized_questions threshold;
  match matches with
  | matches_0 :: _ =>
      best_match_index ← list_index normalized_questions matches_0;
      original_question ← list_getitem (questions self) best_match_index;
      answer ← dict_getitem (qa_dict self) original_question;
      mret (Some original_question, Some answer)
  | [] => mret (None, None)
  end.

(** [find_best_match]: the [try] with its [except Exception as e] handler. *)
Definition find_best_match (self : ThoughtfulAIAgent) (user_question : str)
    (threshold : Q) (w : world) : (option str * option str) * world :=
  let w := enter_matcher user_question threshold w in
  match find_best_match_try self user_question threshold with
  | inr result => (result, w)
  | inl e => ((None, None), st_error e w)
  end.

(** The default [threshold=0.4]. *)
Definition default_threshold : Q := 4 # 10.

(** Truth value of an optional string: [None] and the empty string are false. *)
Definition truthy (x : option str) : bool :=
  match x with
  | Some (_ :: _) => true
  | _ => false
  end.

Definition get_response (self : ThoughtfulAIAgent) (user_question : str) (w : world)
  : (exn + str) * world :=
  if negb (truthy (Some user_question)) || negb (truthy (Some (PyStr.strip user_question)))
  then (inr PROMPT, w)
  else
    let '((matched_question, answer), w) :=
      find_best_match self user_question default_threshold w in
    match answer with
    | Some ans => if truthy answer then (inr ans, w) else random_choice FALLBACK_RESPONSES w
    | None => random_choice FALLBACK_RESPONSES w
    end.


(** * Vocabulary of the statements *)

(** ** Shape of a normalized text *)

(** A character that a normalized text may hold: the space, or a lowercase
    word character. *)
Definition clean (c : ascii) : Prop :=
  c = " "%char ∨ (Re.isword c = true ∧ PyStr.lower_char c = c).

(** No whitespace other than single spaces; [in_run] forbids a leading one. *)
Fixpoint tidy (in_run : bool) (s : str) : Prop :=
  match s with
  | [] => True
  | c :: r =>
      if PyStr.isspace c then c = " "%char ∧ in_run = false ∧ tidy true r
      else tidy false r
  end.

(** ** Matching blocks *)

Module Blocks.
Import Difflib.

(** [(i, j, k)] lies in the window and [a[i:i+k] == b[j:j+k]]. *)
Definition valid_block (a b : str) (w : window) (m : Match) : Prop :=
  let '(alo, ahi, blo, bhi) := w in
  let '(i, j, k) := m in
  alo ≤ i ∧ i + k ≤ ahi ∧ blo ≤ j ∧ j + k ≤ bhi ∧
  ∀ t, t < k → ∃ x, a !! (i + t) = Some x ∧ b !! (j + t) = Some x.

(** A longest matching block of the window: no matching block of the window
    is longer. *)
Definition longest_block (a b : str) (w : window) (m : Match) : Prop :=
  valid_block a b w m ∧ ∀ m', valid_block a b w m' → m'.2 ≤ m.2.

(** The recursive decomposition of a window, for a way [P] of choosing the
    block of a window: no block, or a block of size [k > 0] and the
    decompositions of what lies left of it and right of it. The number is the
    total size of the blocks. *)
Inductive Decomposition (P : window → Match → Prop) : window → nat → Prop :=
| Decomposition_none w i j :
    P w (i, j, 0) → Decomposition P w 0
| Decomposition_block alo ahi blo bhi i j k ml mr :
    0 < k →
    P (alo, ahi, blo, bhi) (i, j, k) →
    Decomposition P (alo, i, blo, j) ml →
    Decomposition P (i + k, ahi, j + k, bhi) mr →
    Decomposition P (alo, ahi, blo, bhi) (k + ml + mr).

(** The decompositions of the windows of a queue, added up. *)
Inductive Decompositions (P : window → Match → Prop) : list window → nat → Prop :=
| Decompositions_nil : Decompositions P [] 0
| Decompositions_cons w q m1 m2 :
    Decomposition P w m1 → Decompositions P q m2 → Decompositions P (w :: q) (m1 + m2).

(** The index of [b] is sound and complete for the elements it keeps:
    the list stored for [x] holds the positions of [x] in [b], ascending. *)
Definition b2j_ok (s : SequenceMatcher) : Prop :=
  ∀ x js, b2j s !! x = Some js →
    StronglySorted lt js ∧ ∀ j, j ∈ js ↔ b s !! j = Some x.

(** No element of [b] was deleted from the index as popular. *)
Definition no_popular (s : SequenceMatcher) : Prop :=
  ∀ j x, b s !! j = Some x → is_Some (b2j s !! x).

(** [a[i] == b[j]] and the element is in the index. *)
Definition anchored_eq (s : SequenceMatcher) (i j : nat) : bool :=
  match a s !! i, b s !! j with
  | Some x, Some y => bool_decide (x = y) && bool_decide (is_Some (b2j s !! y))
  | _, _ => false
  end.

(** Length of the longest run of indexed equal elements that ends just before
    [(i1, j1)] and stays at or above [(alo, blo)]: the value the scan keeps
    in [j2len]. *)
Fixpoint slen (s : SequenceMatcher) (alo blo i1 j1 : nat) : nat :=
  match i1, j1 with
  | S i, S j =>
      if bool_decide (alo ≤ i) && bool_decide (blo ≤ j) && anchored_eq s i j
      then S (slen s alo blo i j) else 0
  | _, _ => 0
  end.

(** What the scan has in [j2len] when it reaches row [i]. *)
Definition j2len_ok (s : SequenceMatcher) (alo blo bhi i : nat)
    (j2len : gmap nat nat) : Prop :=
  ∀ j, j < bhi → default 0 (j2len !! j) = slen s alo blo i (S j).

(** What the scan has in [best] when it reaches row [i]: a best run among the
    rows before [i]. *)
Definition best_ok (s : SequenceMatcher) (alo blo bhi i : nat) (best : Match) : Prop :=
  (best = (alo, blo, 0) ∨
   ∃ i' j', alo ≤ i' ∧ i' < i ∧ blo ≤ j' ∧ j' < bhi ∧
     0 < slen s alo blo (S i') (S j') ∧
     best = (S i' - slen s alo blo (S i') (S j'),
             S j' - slen s alo blo (S i') (S j'),
             slen s alo blo (S i') (S j'))) ∧
  ∀ i' j', alo ≤ i' → i' < i → blo ≤ j' → j' < bhi →
    slen s alo blo (S i') (S j') ≤ best.2.

(** The variant of the queue loop. *)
Definition window_measure (w : window) : nat :=
  let '(alo, ahi, blo, bhi) := w in 2 * (ahi - alo) + 1.

Definition window_ok (w : window) : Prop :=
  let '(alo, ahi, blo, bhi) := w in alo ≤ ahi ∧ blo ≤ bhi.

End Blocks.

(** ** The ratio the specification describes *)

Module GestaltSpec.
Import Difflib Blocks.

(** [M] is the total size of the blocks of a decomposition of [a] against [b]
    in which every block is a longest matching block of its window: locate a
    longest matching block, then decompose what lies left and what lies right
    of it. The specification does not say which of several longest blocks is
    taken, so any choice is allowed. *)
Definition gestalt_matches (a b : str) (M : nat) : Prop :=
  Decomposition (longest_block a b) (0, length a, 0, length b) M.

(** [2*M / (len(a) + len(b))] *)
Definition gestalt_ratio (a b : str) (M : nat) : Q :=
  (2 * inject_Z (Z.of_nat M) / inject_Z (Z.of_nat (length a + length b)))%Q.

End GestaltSpec.

(** ** The index built over a prefix *)

(** What [enumerate_b] has built when it reaches position [i] of [b0]. *)
Definition index_upto (b0 : str) (i : nat) (m : gmap ascii (list nat)) : Prop :=
  (∀ x js, m !! x = Some js →
     StronglySorted lt js ∧ ∀ j, j ∈ js ↔ j < i ∧ b0 !! j = Some x) ∧
  (∀ j x, j < i → b0 !! j = Some x → is_Some (m !! x)).

(** ** Counting characters *)

Module Counting.

(** The 256 characters. *)
Definition all_chars : list ascii := map ascii_of_nat (seq 0 256).

(** Occurrences of [c] in [l]. *)
Definition cnt (c : ascii) (l : str) : nat := length (filter (λ x, x = c) l).

(** Size of the multiset intersection of two strings: the number
    [quick_ratio] counts. *)
Definition common_count (x y : str) : nat :=
  sum_list_with (λ c, cnt c x `min` cnt c y) all_chars.

(** [l[lo:hi]] *)
Definition slice (l : str) (lo hi : nat) : str := take (hi - lo) (drop lo l).

End Counting.

(** ** The agent's view of a question *)

(** The score [find_best_match] gives the catalog question [q] for the user
    question [user_question]: the ratio of the two normalized texts, the
    catalog side as [a] and the user side as [b]. *)
Definition similarity (user_question q : str) : Q :=
  Difflib.ratio (Difflib.set_seqs (normalize_text q) (normalize_text user_question)).

(** The candidates [find_best_match] keeps, as [get_close_matches] scores them. *)
Definition kept_candidates (self : ThoughtfulAIAgent) (user_question : str)
    (threshold : Q) : list (Q * str) :=
  Difflib.close_candidates (normalize_text user_question)
    (map normalize_text (questions self)) threshold.

(** A world in which nothing has happened yet; its random source yields
    0, 1, 2, ... *)
Definition world0 : world :=
  {| st_errors := []; random_tape := λ n, n; random_drawn := 0; matcher_calls := [] |}.

(** ** The draw of [random.choice] as a chance experiment *)

(** The world in which the next number the random source yields is [k]. *)
Definition next_draw (k : nat) (w : world) : world :=
  {| st_errors := st_errors w;
     random_tape := λ n, if decide (n = random_drawn w) then k else random_tape w n;
     random_drawn := random_drawn w;
     matcher_calls := matcher_calls w |}.

(** The probability of an event of one draw of [_randbelow(n)], the draw
    being uniform on [0 .. n-1]: the share of the [n] equally likely outcomes
    on which the event holds. *)
Definition probability (n : nat) (event : nat → bool) : Q :=
  (inject_Z (Z.of_nat (length (filter (λ k, event k = true) (seq 0 n))))
   / inject_Z (Z.of_nat n))%Q.

(** The event that [get_response] returns [r], as a function of the next
    draw. *)
Definition responds (self : ThoughtfulAIAgent) (user_question : str) (w : world)
    (r : str) (k : nat) : bool :=
  match (get_response self user_question (next_draw k w)).1 with
  | inr response => bool_decide (response = r)
  | inl _ => false
  end.

(** * The Streamlit script *)

(** The module-level functions of [app.py] that make the page:
    [initialize_session_state], [display_chat_history], [handle_user_input]
    and [main]. Streamlit runs [main] once per interaction. The values the
    widgets return in a run ([st.chat_input], [st.button]) are inputs of the
    run; [st.session_state] and the world outside the agent pass from one run
    to the next. Of what a run draws, the model keeps the conversation: the
    [st.chat_message] containers and the [st.markdown] and [st.error] calls
    made in them, in the order of the calls. The page configuration, titles,
    the sidebar text, the buttons themselves and the spinner are not drawn
    here. *)

Module App.

(** ** Exceptions, messages, state *)

(** An exception of the script: one raised by the agent, the [AttributeError]
    of [st.session_state.<key>] for an absent key, or the [RerunException]
    with which [st.rerun()] stops the run. [RerunException] derives from
    [BaseException], not from [Exception]. *)
Inductive script_exn :=
| Raised (e : exn)
| AttributeError (key : str)
| RerunException.

(** The ["content"] of a message: a text, or the f-string
    ["I apologize, ... Error: {str(e)}"] of the handler in
    [handle_user_input], given by the exception [e] it formats. *)
Inductive body :=
| Text (s : str)
| error_message (e : script_exn).

(** [{"role": ..., "content": ...}] *)
Record message := { role : str; content : body }.

(** [st.session_state], for the two keys the script uses; [None] is an
    absent key. *)
Record session_state := {
  messages : option (list message);
  agent : option ThoughtfulAIAgent
}.

(** A call that draws a part of the conversation. *)
Inductive element :=
| chat_message (role : str)
| markdown (c : body)
| error (c : body).

Record script_state := {
  session : session_state;
  outside : world;
  screen : list element
}.

(** A step of the script: it changes the state and returns a value or
    raises; what was changed before a raise stays changed. *)
Definition Script (A : Type) : Type := script_state → (script_exn + A) * script_state.

#[global] Instance Script_ret : MRet Script := λ A x s, (inr x, s).

#[global] Instance Script_bind : MBind Script := λ A B f m s,
  match m s with
  | (inr x, s') => f x s'
  | (inl e, s') => (inl e, s')
  end.

Definition raise {A : Type} (e : script_exn) : Script A := λ s, (inl e, s).

(** [try: body / except Exception as e: handler e] *)
Definition try_except {A : Type} (body : Script A) (handler : script_exn → Script A)
  : Script A := λ s,
  match body s with
  | (inr x, s') => (inr x, s')
  | (inl RerunException, s') => (inl RerunException, s')
  | (inl e, s') => handler e s'
  end.

(** [for x in l: f x] *)
Fixpoint for_each {A : Type} (l : list A) (f : A → Script unit) : Script unit :=
  match l with
  | [] => mret tt
  | x :: l => f x ;; for_each l f
  end.

(** ** [st.session_state] *)

(** ["messages" in st.session_state] *)
Definition has_messages : Script bool := λ s,
  (inr (bool_decide (is_Some (messages (session s)))), s).

(** ["agent" in st.session_state] *)
Definition has_agent : Script bool := λ s,
  (inr (bool_decide (is_Some (agent (session s)))), s).

(** [st.session_state.messages] *)
Definition get_messages : Script (list message) := λ s,
  match messages (session s) with
  | Some msgs => (inr msgs, s)
  | None => (inl (AttributeError (py "messages")), s)
  end.

(** [st.session_state.messages = msgs] *)
Definition set_messages (msgs : list message) : Script unit := λ s,
  (inr tt, {| session := {| messages := Some msgs; agent := agent (session s) |};
              outside := outside s; screen := screen s |}).

(** [st.session_state.messages.append(m)]: the list is held by the session
    state alone, so the append in place is a read and a write back. *)
Definition messages_append (m : message) : Script unit :=
  msgs ← get_messages; set_messages (msgs ++ [m]).

(** [st.session_state.agent] *)
Definition get_agent : Script ThoughtfulAIAgent := λ s,
  match agent (session s) with
  | Some self => (inr self, s)
  | None => (inl (AttributeError (py "agent")), s)
  end.

(** [st.session_state.agent = self] *)
Definition set_agent (self : ThoughtfulAIAgent) : Script unit := λ s,
  (inr tt, {| session := {| messages := messages (session s); agent := Some self |};
              outside := outside s; screen := screen s |}).

(** [self.get_response(user_question)], in the world of the script *)
Definition agent_get_response (self : ThoughtfulAIAgent) (user_question : str)
  : Script str := λ s,
  let '(r, w) := get_response self user_question (outside s) in
  (match r with inl e => inl (Raised e) | inr response => inr response end,
   {| session := session s; outside := w; screen := screen s |}).

Definition draw (e : element) : Script unit := λ s,
  (inr tt, {| session := session s; outside := outside s; screen := screen s ++ [e] |}).

(** ** The literals *)

Definition newline : ascii := ascii_of_nat 10.

(** The lines of a triple-quoted literal, joined by newlines. *)
Fixpoint lines (l : list string) : str :=
  match l with
  | [] => []
  | [x] => py x
  | x :: l => py x ++ newline :: lines l
  end.

(** [welcome_message] of [initialize_session_state] *)
Definition welcome_message : str := lines [
  "";
  "        Hello! I'm your Thoughtful AI customer support assistant. ";
  "        ";
  "        I can help you learn about our healthcare automation agents:";
  "        - **EVA** (Eligibility Verification Agent)";
  "        - **CAM** (Claims Processing Agent) ";
  "        - **PHIL** (Payment Posting Agent)";
  "        ";
  "        What would you like to know about our AI-powered healthcare solutions?";
  "        " ]%string.

(** [welcome_message] of the Clear Chat branch of [main] *)
Definition welcome_message_main : str := lines [
  "";
  "            Hello! I'm your Thoughtful AI customer support assistant. ";
  "            ";
  "            I can help you learn about our healthcare automation agents:";
  "            - **EVA** (Eligibility Verification Agent)";
  "            - **CAM** (Claims Processing Agent) ";
  "            - **PHIL** (Payment Posting Agent)";
  "            ";
  "            What would you like to know about our AI-powered healthcare solutions?";
  "            " ]%string.

Definition sample_questions : list str := [
  py "What does EVA do?";
  py "Tell me about CAM";
  py "How does PHIL work?";
  py "What are the benefits of using Thoughtful AI's agents?"
].

(** ** The functions *)

Definition initialize_session_state : Script unit :=
  present ← has_messages;
  (if negb present then
     set_messages [] ;;
     messages_append {| role := py "assistant"; content := Text welcome_message |}
   else mret tt) ;;
  present ← has_agent;
  if negb present then set_agent __init__ else mret tt.

Definition display_chat_history : Script unit :=
  msgs ← get_messages;
  for_each msgs (λ message,
    draw (chat_message (role message)) ;;
    draw (markdown (content message))).

(** [handle_user_input], for the value [st.chat_input] returns: the text
    submitted, or [None]. *)
Definition handle_user_input (chat_input : option str) : Script unit :=
  match chat_input with
  | Some prompt =>
      if truthy chat_input then
        messages_append {| role := py "user"; content := Text prompt |} ;;
        draw (chat_message (py "user")) ;;
        draw (markdown (Text prompt)) ;;
        try_except
          (draw (chat_message (py "assistant")) ;;
           self ← get_agent;
           response ← agent_get_response self prompt;
           draw (markdown (Text response)) ;;
           messages_append {| role := py "assistant"; content := Text response |})
          (λ e,
             draw (chat_message (py "assistant")) ;;
             draw (error (error_message e)) ;;
             messages_append {| role := py "assistant"; content := error_message e |})
      else mret tt
  | None => mret tt
  end.

(** The values the widgets return in one run: [st.chat_input], the
    [st.button] of each sample question, and the Clear Chat button. *)
Record widgets := {
  chat_input : option str;
  button : str → bool;
  clear_chat : bool
}.

(** The body of [if st.button(question, ...):] in the loop over the sample
    questions. *)
Definition sample_clicked (question : str) : Script unit :=
  messages_append {| role := py "user"; content := Text question |} ;;
  self ← get_agent;
  response ← agent_get_response self question;
  messages_append {| role := py "assistant"; content := Text response |} ;;
  raise RerunException.

(** The body of the [if] of the Clear Chat button. *)
Definition clear_clicked : Script unit :=
  set_messages [] ;;
  messages_append {| role := py "assistant"; content := Text welcome_message_main |} ;;
  raise RerunException.

Definition main (ws : widgets) : Script unit :=
  initialize_session_state ;;
  display_chat_history ;;
  handle_user_input (chat_input ws) ;;
  for_each sample_questions (λ question,
    if button ws question then sample_clicked question else mret tt) ;;
  if clear_chat ws then clear_clicked else mret tt.

(** ** Runs *)

(** One run of the script: the screen starts empty; the session state and
    the world are those the previous run left, however it ended. *)
Definition run (ws : widgets) (s : script_state) : script_state :=
  (main ws {| session := session s; outside := outside s; screen := [] |}).2.

Definition runs (l : list widgets) (s : script_state) : script_state :=
  foldl (λ s ws, run ws s) s l.

(** The session state of a new browser session. *)
Definition new_session : session_state := {| messages := None; agent := None |}.

(** ** Vocabulary of the statements *)

(** What [display_chat_history] draws for a list of messages. *)
Definition rendering (msgs : list message) : list element :=
  flat_map (λ m, [chat_message (role m); markdown (content m)]) msgs.

Definition user_message (text : str) : message :=
  {| role := py "user"; content := Text text |}.

Definition assistant_message (text : str) : message :=
  {| role := py "assistant"; content := Text text |}.

(** What the agent of the page can answer. *)
Definition agent_reply (r : str) : Prop :=
  r = PROMPT ∨ r ∈ FALLBACK_RESPONSES ∨ ∃ e, e ∈ THOUGHTFUL_AI_DATA ∧ r = answer e.

(** A list of exchanges: a non-empty user text, then a reply of the agent. *)
Fixpoint exchanges (h : list message) : Prop :=
  match h with
  | [] => True
  | u :: a :: h =>
      (∃ q r, u = user_message q ∧ q ≠ [] ∧ a = assistant_message r ∧ agent_reply r) ∧
      exchanges h
  | _ => False
  end.

(** A conversation: a welcome message of the assistant, then exchanges. *)
Definition conversation (msgs : list message) : Prop :=
  ∃ w h, msgs = assistant_message w :: h ∧
         (w = welcome_message ∨ w = welcome_message_main) ∧ exchanges h.

(** A session state as the script leaves it. *)
Definition session_ok (ss : session_state) : Prop :=
  agent ss = Some __init__ ∧ ∃ msgs, messages ss = Some msgs ∧ conversation msgs.

(** The session state [initialize_session_state] leaves: what was there
    stays, what was absent is filled in. *)
Definition initialized (ss : session_state) : session_state :=
  {| messages := Some (default [assistant_message welcome_message] (messages ss));
     agent := Some (default __init__ (agent ss)) |}.

(** The widget values of a run in which the user submits [text]. *)
Definition submits (text : str) : widgets :=
  {| chat_input := Some text; button := λ _, false; clear_chat := false |}.

(** The widget values of a run in which the user clicks the button of the
    sample question [q]. *)
Definition clicks (q : str) : widgets :=
  {| chat_input := None; button := λ x, bool_decide (x = q); clear_chat := false |}.

End App.

(** * The normalizer *)

Section normalizer.
Import PyStr Re.

(** Facts about single characters, by enumeration of the 256 code points. *)
Local Ltac by_code_point c :=
  destruct c as [[] [] [] [] [] [] [] []]; vm_compute; try reflexivity; try discriminate;
  try (intros; discriminate); try (intros; reflexivity).

Lemma lower_char_idem c : lower_char (lower_char c) = lower_char c.
Proof. by_code_point c. Qed.

Lemma isspace_lower_char c : isspace (lower_char c) = isspace c.
Proof. by_code_point c. Qed.

Lemma isword_lower_char c : isword (lower_char c) = isword c.
Proof. by_code_point c. Qed.

Lemma isword_not_isspace c : isword c = true → isspace c = false.
Proof. by_code_point c. Qed.

Lemma isspace_space : isspace " " = true.
Proof. reflexivity. Qed.

Lemma lower_char_space : lower_char " " = " "%char.
Proof. reflexivity. Qed.

(** ** [strip] *)

Lemma lstrip_suffix s : ∃ ws, s = ws ++ lstrip s ∧ Forall (λ c, isspace c = true) ws.
Proof.
  induction s as [|c r IH]; simpl.
  - by exists [].
  - destruct (isspace c) eqn:Hc.
    + destruct IH as (ws & Hr & Hws). exists (c :: ws). split.
      * simpl. by rewrite <- Hr.
      * by constructor.
    + by exists [].
Qed.

Lemma lstrip_head s c : head (lstrip s) = Some c → isspace c = false.
Proof.
  induction s as [|d r IH]; simpl; [done|].
  destruct (isspace d) eqn:Hd; [done|]. simpl. by intros [= <-].
Qed.

Lemma lstrip_id s : (∀ c, head s = Some c → isspace c = false) → lstrip s = s.
Proof.
  destruct s as [|d r]; simpl; [done|]. intros H. by rewrite (H d eq_refl).
Qed.

Lemma rstrip_prefix s : ∃ ws, s = rstrip s ++ ws ∧ Forall (λ c, isspace c = true) ws.
Proof.
  unfold rstrip. destruct (lstrip_suffix (reverse s)) as (ws & Hs & Hws).
  exists (reverse ws). split.
  - rewrite <- reverse_app, <- Hs. by rewrite reverse_involutive.
  - by apply Forall_reverse.
Qed.

Lemma rstrip_last s c : last (rstrip s) = Some c → isspace c = false.
Proof.
  unfold rstrip. rewrite last_reverse. apply lstrip_head.
Qed.

Lemma rstrip_id s : (∀ c, last s = Some c → isspace c = false) → rstrip s = s.
Proof.
  intros H. unfold rstrip. rewrite lstrip_id; [apply reverse_involutive|].
  intros c Hc. apply H. by rewrite <- head_reverse.
Qed.

Lemma rstrip_head s c :
  (∀ d, head s = Some d → isspace d = false) → head (rstrip s) = Some c → head s = Some c.
Proof.
  intros Hs. destruct (rstrip_prefix s) as (ws & Heq & Hws).
  destruct (rstrip s) as [|d r] eqn:Hr; [done|].
  intros [= <-]. rewrite Heq. done.
Qed.

Lemma rstrip_head_nonspace s c :
  (∀ d, head s = Some d → isspace d = false) → head (rstrip s) = Some c → isspace c = false.
Proof. intros Hs Hc. apply Hs. by apply rstrip_head. Qed.

Lemma strip_head s c : head (strip s) = Some c → isspace c = false.
Proof. unfold strip. apply rstrip_head_nonspace. apply lstrip_head. Qed.

Lemma strip_last s c : last (strip s) = Some c → isspace c = false.
Proof. unfold strip. apply rstrip_last. Qed.

Lemma strip_id s :
  (∀ c, head s = Some c → isspace c = false) →
  (∀ c, last s = Some c → isspace c = false) → strip s = s.
Proof. intros Hh Hl. unfold strip. rewrite (lstrip_id s Hh). by apply rstrip_id. Qed.

Lemma strip_id_inv s :
  strip s = s →
  (∀ c, head s = Some c → isspace c = false) ∧ (∀ c, last s = Some c → isspace c = false).
Proof.
  intros H. split; intros c Hc; rewrite <- H in Hc.
  - by apply strip_head in Hc.
  - by apply strip_last in Hc.
Qed.

Lemma strip_idem s : strip (strip s) = strip s.
Proof. apply strip_id; [apply strip_head | apply strip_last]. Qed.

(** [strip s] is a contiguous part of [s]. *)
Lemma strip_infix s : ∃ l r, s = l ++ strip s ++ r.
Proof.
  unfold strip. destruct (lstrip_suffix s) as (l & Hl & _).
  destruct (rstrip_prefix (lstrip s)) as (r & Hr & _).
  exists l, r. by rewrite <- Hr.
Qed.

Lemma lower_lstrip s : lstrip (lower s) = lower (lstrip s).
Proof.
  induction s as [|c r IH]; simpl; [done|].
  rewrite isspace_lower_char. by destruct (isspace c).
Qed.

Lemma lower_strip s : strip (lower s) = lower (strip s).
Proof.
  unfold strip, rstrip. rewrite lower_lstrip. unfold lower at 1.
  rewrite <- fmap_reverse. fold (lower (reverse (lstrip s))).
  rewrite lower_lstrip. unfold lower. by rewrite fmap_reverse.
Qed.

(** ** Shape of a normalized text *)

Lemma tidy_weaken in_run s : tidy in_run s → tidy false s.
Proof. destruct s as [|c r]; simpl; [done|]. destruct (isspace c); [|done]. by intros (? & _ & ?). Qed.

Lemma tidy_app_l in_run s t : tidy in_run (s ++ t) → tidy in_run s.
Proof.
  revert in_run. induction s as [|c r IH]; intros in_run; simpl; [done|].
  destruct (isspace c); [|apply IH]. intros (? & ? & ?). eauto.
Qed.

Lemma tidy_app_r in_run s t : tidy in_run (s ++ t) → tidy false t.
Proof.
  revert in_run. induction s as [|c r IH]; intros in_run; simpl.
  - apply tidy_weaken.
  - destruct (isspace c); [|apply IH]. intros (_ & _ & ?). eauto.
Qed.

Lemma sub_spaces_from_tidy in_run s : tidy in_run (sub_spaces_from in_run s).
Proof.
  revert in_run. induction s as [|c r IH]; intros in_run; simpl; [done|].
  destruct (isspace c) eqn:Hc.
  - destruct in_run; [apply IH|]. simpl. split; [done|]. split; [done|]. apply IH.
  - simpl. rewrite Hc. apply IH.
Qed.

Lemma sub_spaces_from_id in_run s : tidy in_run s → sub_spaces_from in_run s = s.
Proof.
  revert in_run. induction s as [|c r IH]; intros in_run; simpl; [done|].
  destruct (isspace c) eqn:Hc.
  - intros (-> & -> & Hr). by rewrite IH.
  - intros Hr. by rewrite IH.
Qed.

Lemma sub_spaces_from_clean in_run s :
  Forall (λ c, isspace c = true ∨ clean c) s → Forall clean (sub_spaces_from in_run s).
Proof.
  revert in_run. induction s as [|c r IH]; intros in_run Hs; simpl; [constructor|].
  apply Forall_cons in Hs as [Hc Hr].
  destruct (isspace c) eqn:Hsp.
  - destruct in_run; [by apply IH|]. constructor; [by left|by apply IH].
  - constructor; [|by apply IH]. destruct Hc as [Hc|Hc]; [congruence|done].
Qed.

Lemma normalize_text_clean x : Forall clean (normalize_text x).
Proof.
  unfold normalize_text, sub_spaces. apply sub_spaces_from_clean.
  unfold sub_nonword_nonspace. apply list.Forall_forall. intros c Hc.
  apply list_elem_of_filter in Hc as [Hc Hin].
  destruct (isspace c) eqn:Hsp; [by left|]. right. right.
  rewrite orb_false_r in Hc. split; [done|].
  destruct (strip_infix (lower x)) as (l & r & Heq).
  assert (c ∈ lower x) as Hl by (rewrite Heq; set_solver).
  unfold lower in Hl. apply list_elem_of_fmap in Hl as (d & -> & _).
  apply lower_char_idem.
Qed.

Lemma normalize_text_tidy x : tidy false (normalize_text x).
Proof. apply sub_spaces_from_tidy. Qed.

Lemma sub_nonword_nonspace_clean s : Forall clean s → sub_nonword_nonspace s = s.
Proof.
  unfold sub_nonword_nonspace. induction 1 as [|c s Hc _ IH]; [done|].
  rewrite filter_cons_True, IH; [done|].
  destruct Hc as [->|[-> _]]; done.
Qed.

(** On a text of that shape the normalizer only strips. *)
Lemma normalize_text_on_tidy y :
  Forall clean y → tidy false y → normalize_text y = strip y.
Proof.
  intros Hclean Htidy. unfold normalize_text.
  assert (lower y = y) as ->.
  { unfold lower. clear Htidy. induction Hclean as [|c r Hc _ IH]; simpl; [done|].
    rewrite IH. destruct Hc as [->|[_ ->]]; done. }
  destruct (strip_infix y) as (l & r & Heq).
  rewrite sub_nonword_nonspace_clean.
  2:{ rewrite Heq in Hclean. apply Forall_app in Hclean as [_ Hclean].
      by apply Forall_app in Hclean as [Hclean _]. }
  unfold sub_spaces. apply sub_spaces_from_id.
  rewrite Heq in Htidy. apply tidy_app_r in Htidy. by apply tidy_app_l in Htidy.
Qed.

Lemma normalize_text_twice x :
  normalize_text (normalize_text x) = strip (normalize_text x).
Proof.
  apply normalize_text_on_tidy; [apply normalize_text_clean | apply normalize_text_tidy].
Qed.

(** In a normalized text the only whitespace is the space. *)
Lemma clean_isspace c : clean c → isspace c = true → c = " "%char.
Proof.
  intros [->|[Hw _]] Hs; [done|]. apply isword_not_isspace in Hw. congruence.
Qed.

Lemma normalize_text_head_space x c :
  head (normalize_text x) = Some c → isspace c = false ↔ c ≠ " "%char.
Proof.
  intros Hc. split.
  - intros Hs ->. done.
  - intros Hne. destruct (isspace c) eqn:Hs; [|done]. exfalso. apply Hne.
    apply clean_isspace; [|done].
    pose proof (normalize_text_clean x) as Hcl.
    eapply list.Forall_forall in Hcl; [done|]. by apply head_Some_elem_of.
Qed.

Lemma normalize_text_last_space x c :
  last (normalize_text x) = Some c → isspace c = false ↔ c ≠ " "%char.
Proof.
  intros Hc. split.
  - intros Hs ->. done.
  - intros Hne. destruct (isspace c) eqn:Hs; [|done]. exfalso. apply Hne.
    apply clean_isspace; [|done].
    pose proof (normalize_text_clean x) as Hcl.
    eapply list.Forall_forall in Hcl; [done|]. by apply last_Some_elem_of.
Qed.

Lemma sub_spaces_from_snoc in_run pre d :
  isspace d = false →
  sub_spaces_from in_run (pre ++ [d]) = sub_spaces_from in_run pre ++ [d].
Proof.
  intros Hd. revert in_run. induction pre as [|e pre IH]; intros in_run; simpl.
  - by rewrite Hd.
  - destruct (isspace e); [destruct in_run|]; by rewrite IH.
Qed.

(** A question whose first and last visible characters are word characters
    is normalized in one pass. *)
Lemma normalize_text_idem_word_bounded x :
  (∀ c, head (strip x) = Some c → isword c = true) →
  (∀ c, last (strip x) = Some c → isword c = true) →
  normalize_text (normalize_text x) = normalize_text x.
Proof.
  intros Hh Hl. rewrite normalize_text_twice. apply strip_id.
  - intros c. unfold normalize_text, sub_spaces. rewrite lower_strip.
    destruct (strip x) as [|d r] eqn:Hx; [done|]. simpl.
    specialize (Hh d eq_refl).
    unfold sub_nonword_nonspace. rewrite filter_cons_True
      by (rewrite isword_lower_char, Hh; done).
    simpl. assert (isspace (lower_char d) = false) as Hsp
      by (apply isword_not_isspace; by rewrite isword_lower_char).
    rewrite Hsp. simpl. by intros [= <-].
  - intros c. unfold normalize_text, sub_spaces. rewrite lower_strip.
    destruct (last (strip x)) as [d|] eqn:Hd.
    + specialize (Hl d eq_refl). apply last_Some in Hd as [s' Hs']. rewrite Hs'.
      assert (isspace (lower_char d) = false) as Hsp
        by (apply isword_not_isspace; by rewrite isword_lower_char).
      unfold lower. rewrite map_app. simpl.
      unfold sub_nonword_nonspace. rewrite filter_app.
      rewrite (filter_cons_True _ (lower_char d))
        by (rewrite isword_lower_char, Hl; done).
      rewrite filter_nil, sub_spaces_from_snoc by done.
      rewrite last_snoc. by intros [= <-].
    + apply last_None in Hd. rewrite Hd. done.
Qed.

End normalizer.

(** * [find_longest_match] *)

Section find_longest_match.
Import Difflib Blocks.
Context (s : SequenceMatcher) (Hok : b2j_ok s).
Context (alo ahi blo bhi : nat).

(** The value stored for [j]: [j2len.get(j-1, 0) + 1]. *)
Local Abbreviation stored j2len j := (j2lenget_pred j2len j + 1).

Lemma scan_row_spec i j2len js new best new' best' :
  StronglySorted lt js →
  scan_row blo bhi i j2len js new best = (new', best') →
  (∀ j, new' !! j =
        if decide (j ∈ js ∧ blo ≤ j ∧ j < bhi) then Some (stored j2len j) else new !! j) ∧
  (best' = best ∨
   ∃ j, j ∈ js ∧ blo ≤ j ∧ j < bhi ∧
        best' = (S i - stored j2len j, S j - stored j2len j, stored j2len j)) ∧
  best.2 ≤ best'.2 ∧
  (∀ j, j ∈ js → blo ≤ j → j < bhi → stored j2len j ≤ best'.2).
Proof.
  intros Hsorted. revert new best.
  induction Hsorted as [|j0 js Hjs IH Hlt]; intros new best; cbn [scan_row].
  - intros [= <- <-]. split; [|split; [by left|split; [done|]]].
    + intros j. rewrite decide_False; [done|]. intros [Hj _]. by apply elem_of_nil in Hj.
    + intros j Hj. by apply elem_of_nil in Hj.
  - rewrite list.Forall_forall in Hlt.
    destruct (j0 <? blo) eqn:Hlo.
    { apply Nat.ltb_lt in Hlo. intros Hrun.
      destruct (IH _ _ Hrun) as (Hmap & Hbest & Hle & Hmax).
      split; [|split; [|split; [done|]]].
      - intros j. rewrite Hmap.
        destruct (decide (j ∈ js ∧ blo ≤ j ∧ j < bhi)) as [(Hin & ? & ?)|Hn].
        + rewrite decide_True; [done|]. split; [by apply list_elem_of_further|done].
        + rewrite decide_False; [done|]. intros (Hin & ? & ?). apply Hn.
          apply elem_of_cons in Hin as [->|Hin]; [lia|done].
      - destruct Hbest as [Hbest|(j & ? & ? & ? & ?)]; [by left|].
        right. exists j. split; [by apply list_elem_of_further|done].
      - intros j Hin ??. apply elem_of_cons in Hin as [->|Hin]; [lia|]. by apply Hmax. }
    destruct (bhi <=? j0) eqn:Hhi.
    { apply Nat.leb_le in Hhi. intros [= <- <-].
      split; [|split; [by left|split; [done|]]].
      - intros j. rewrite decide_False; [done|]. intros (Hin & ? & ?).
        apply elem_of_cons in Hin as [->|Hin]; [lia|].
        specialize (Hlt _ Hin). lia.
      - intros j Hin ??. exfalso.
        apply elem_of_cons in Hin as [->|Hin]; [lia|].
        specialize (Hlt _ Hin). lia. }
    apply Nat.ltb_ge in Hlo. apply Nat.leb_gt in Hhi. intros Hrun.
    destruct (IH _ _ Hrun) as (Hmap & Hbest & Hle & Hmax).
    split; [|split; [|split]].
    + intros j. rewrite Hmap.
      destruct (decide (j ∈ js ∧ blo ≤ j ∧ j < bhi)) as [(Hin & ? & ?)|Hn].
      * rewrite decide_True; [done|]. split; [by apply list_elem_of_further|done].
      * destruct (decide (j = j0)) as [->|Hne].
        -- rewrite lookup_insert_eq, decide_True; [done|].
           split; [by apply list_elem_of_here|done].
        -- rewrite lookup_insert_ne by done. rewrite decide_False; [done|].
           intros (Hin & ? & ?). apply Hn.
           apply elem_of_cons in Hin as [->|Hin]; done.
    + destruct Hbest as [Hbest|(j & ? & ? & ? & ?)].
      * rewrite Hbest. destruct (best.2 <? stored j2len j0); [|by left].
        right. exists j0. replace (i + 1) with (S i) by lia.
        replace (j0 + 1) with (S j0) by lia.
        split; [by apply list_elem_of_here|done].
      * right. exists j. split; [by apply list_elem_of_further|done].
    + etrans; [|exact Hle]. destruct (best.2 <? stored j2len j0) eqn:Hk; [|done].
      apply Nat.ltb_lt in Hk. simpl. lia.
    + intros j Hin ??. apply elem_of_cons in Hin as [->|Hin]; [|by apply Hmax].
      etrans; [|exact Hle]. destruct (best.2 <? stored j2len j0) eqn:Hk; [done|].
      apply Nat.ltb_ge in Hk. simpl. lia.
Qed.

Local Abbreviation sl := (slen s alo blo).

Lemma anchored_eq_true i j :
  anchored_eq s i j = true ↔
  ∃ x, a s !! i = Some x ∧ b s !! j = Some x ∧ is_Some (b2j s !! x).
Proof.
  unfold anchored_eq. destruct (a s !! i) as [x|], (b s !! j) as [y|].
  - rewrite andb_true_iff, !bool_decide_eq_true. split.
    + intros [-> ?]. by exists y.
    + intros (z & [= ->] & [= ->] & ?). done.
  - split; [done|]. by intros (z & _ & ? & _).
  - split; [done|]. by intros (z & ? & _).
  - split; [done|]. by intros (z & ? & _).
Qed.

Lemma row_positions_spec i :
  StronglySorted lt (row_positions s i) ∧
  ∀ j, j ∈ row_positions s i ↔ anchored_eq s i j = true.
Proof using Hok.
  unfold row_positions. setoid_rewrite anchored_eq_true.
  destruct (a s !! i) as [x|].
  - destruct (b2j s !! x) as [js|] eqn:Hjs; simpl.
    + destruct (Hok x js Hjs) as [Hsorted Hin]. split; [done|].
      intros j. rewrite Hin. split.
      * intros Hb. by exists x.
      * by intros (z & [= ->] & ? & _).
    + split; [constructor|]. intros j. split.
      * intros Hj. by apply elem_of_nil in Hj.
      * intros (z & [= ->] & _ & Hsome). rewrite Hjs in Hsome. by destruct Hsome.
  - split; [constructor|]. intros j. split.
    + intros Hj. by apply elem_of_nil in Hj.
    + by intros (z & ? & _).
Qed.

Lemma slen_0_r i1 : sl i1 0 = 0.
Proof. by destruct i1. Qed.

Lemma slen_S i j :
  sl (S i) (S j) =
  if bool_decide (alo ≤ i) && bool_decide (blo ≤ j) && anchored_eq s i j
  then S (sl i j) else 0.
Proof. done. Qed.

Lemma slen_below i j : i < alo ∨ j < blo → sl (S i) (S j) = 0.
Proof.
  intros H. rewrite slen_S.
  destruct (bool_decide_reflect (alo ≤ i)), (bool_decide_reflect (blo ≤ j)); simpl; try done.
  lia.
Qed.

Lemma slen_at_lo i1 j1 : i1 ≤ alo → sl i1 j1 = 0.
Proof.
  intros Hi. destruct i1 as [|i]; [done|]. destruct j1 as [|j]; [done|].
  apply slen_below. lia.
Qed.

Lemma stored_slen i j2len j :
  alo ≤ i → j2len_ok s alo blo bhi i j2len → blo ≤ j → j < bhi →
  anchored_eq s i j = true → stored j2len j = sl (S i) (S j).
Proof.
  intros Hi HJ Hlo Hhi Heq. rewrite slen_S, Heq.
  rewrite !bool_decide_eq_true_2 by done. simpl.
  destruct j as [|j']; simpl.
  - by rewrite slen_0_r.
  - rewrite HJ by lia. lia.
Qed.

Lemma scan_rows_spec n : ∀ i j2len best,
  alo ≤ i → j2len_ok s alo blo bhi i j2len → best_ok s alo blo bhi i best →
  best_ok s alo blo bhi (i + n) (scan_rows s blo bhi (seq i n) j2len best).
Proof using Hok.
  induction n as [|n IH]; intros i j2len best Hi HJ HB; simpl.
  { by rewrite Nat.add_0_r. }
  destruct (scan_row blo bhi i j2len (row_positions s i) ∅ best) as [new' best'] eqn:Hrow.
  destruct (row_positions_spec i) as [Hsorted Hjs].
  destruct (scan_row_spec _ _ _ _ _ _ _ Hsorted Hrow) as (Hmap & Hbest & Hle & Hmax).
  replace (i + S n) with (S i + n) by lia. apply IH; [lia| |].
  - intros j Hj. rewrite Hmap.
    destruct (decide (j ∈ row_positions s i ∧ blo ≤ j ∧ j < bhi)) as [(Hin & ? & ?)|Hn].
    + change (stored j2len j = sl (S i) (S j)).
      apply stored_slen; try done. by apply Hjs.
    + rewrite lookup_empty, slen_S. change (default 0 None) with 0.
      destruct (bool_decide_reflect (blo ≤ j)); [|by rewrite andb_false_r].
      destruct (anchored_eq s i j) eqn:Heq; [|by rewrite andb_false_r].
      exfalso. apply Hn. split; [by apply Hjs|done].
  - destruct HB as [HB1 HB2]. split.
    + destruct Hbest as [->|(j & Hin & ? & ? & ->)].
      * destruct HB1 as [->|(i' & j' & ? & ? & ? & ? & ? & ->)]; [by left|].
        right. exists i', j'. repeat split; try done. lia.
      * right. exists i, j.
        rewrite <- (stored_slen i j2len j) by (try done; by apply Hjs).
        repeat split; try done; lia.
    + intros i' j' ? ? ? ?. destruct (decide (i' = i)) as [->|Hne].
      * destruct (anchored_eq s i j') eqn:Heq.
        -- rewrite <- (stored_slen i j2len j') by done. apply Hmax; try done. by apply Hjs.
        -- rewrite slen_S, Heq, andb_false_r. lia.
      * etrans; [|exact Hle]. apply HB2; try done. lia.
Qed.

Lemma slen_valid i1 : ∀ j1,
  sl i1 j1 ≤ i1 ∧ sl i1 j1 ≤ j1 ∧
  (0 < sl i1 j1 → alo ≤ i1 - sl i1 j1 ∧ blo ≤ j1 - sl i1 j1) ∧
  ∀ t, t < sl i1 j1 →
    ∃ x, a s !! (i1 - sl i1 j1 + t) = Some x ∧ b s !! (j1 - sl i1 j1 + t) = Some x.
Proof.
  induction i1 as [|i IH]; intros [|j]; try (simpl; repeat split; (lia || intros; lia)).
  rewrite slen_S.
  destruct (bool_decide_reflect (alo ≤ i)) as [Hi|]; simpl;
    [|repeat split; (lia || intros; lia)].
  destruct (bool_decide_reflect (blo ≤ j)) as [Hj|]; simpl;
    [|repeat split; (lia || intros; lia)].
  destruct (anchored_eq s i j) eqn:Heq; [|repeat split; (lia || intros; lia)].
  destruct (IH j) as (Hki & Hkj & Hlo & Hrun).
  split; [lia|]. split; [lia|]. split.
  - intros _. destruct (decide (0 < sl i j)) as [Hpos|Hz]; [specialize (Hlo Hpos)|]; lia.
  - intros t Ht. destruct (decide (t < sl i j)) as [Hlt|Hge].
    + destruct (Hrun t Hlt) as (x & Ha & Hb). exists x.
      replace (S i - S (sl i j) + t) with (i - sl i j + t) by lia.
      replace (S j - S (sl i j) + t) with (j - sl i j + t) by lia. done.
    + apply anchored_eq_true in Heq as (x & Ha & Hb & _). exists x.
      replace (S i - S (sl i j) + t) with i by lia.
      replace (S j - S (sl i j) + t) with j by lia. done.
Qed.

Lemma slen_complete (Hnp : no_popular s) k : ∀ i1 j1,
  k ≤ i1 → k ≤ j1 → alo ≤ i1 - k → blo ≤ j1 - k →
  (∀ t, t < k → ∃ x, a s !! (i1 - k + t) = Some x ∧ b s !! (j1 - k + t) = Some x) →
  k ≤ sl i1 j1.
Proof.
  induction k as [|k IH]; intros i1 j1 Hi Hj Hlo1 Hlo2 Hrun; [lia|].
  destruct i1 as [|i]; [lia|]. destruct j1 as [|j]; [lia|].
  rewrite slen_S.
  rewrite (bool_decide_eq_true_2 (alo ≤ i)) by lia.
  rewrite (bool_decide_eq_true_2 (blo ≤ j)) by lia. simpl.
  assert (anchored_eq s i j = true) as ->.
  { apply anchored_eq_true. destruct (Hrun k) as (x & Ha & Hb); [lia|].
    replace (S i - S k + k) with i in Ha by lia.
    replace (S j - S k + k) with j in Hb by lia.
    exists x. repeat split; try done. by eapply Hnp. }
  apply le_n_S. apply IH; try lia.
  intros t Ht. destruct (Hrun t) as (x & Ha & Hb); [lia|]. exists x.
  replace (i - k + t) with (S i - S k + t) by lia.
  replace (j - k + t) with (S j - S k + t) by lia. done.
Qed.

Local Abbreviation valid := (valid_block (a s) (b s) (alo, ahi, blo, bhi)).

Lemma best_ok_valid best :
  alo ≤ ahi → blo ≤ bhi → best_ok s alo blo bhi ahi best → valid best.
Proof.
  intros Ha Hb [[->|(i' & j' & ? & ? & ? & ? & Hpos & ->)] _].
  - repeat split; try lia; intros; lia.
  - destruct (slen_valid (S i') (S j')) as (? & ? & Hlo & Hrun).
    destruct (Hlo Hpos). repeat split; try lia. done.
Qed.

Lemma best_ok_longest best m' :
  no_popular s → best_ok s alo blo bhi ahi best → valid m' → m'.2 ≤ best.2.
Proof.
  intros Hnp [_ Hmax] Hm'. destruct m' as [[i0 j0] k0]. simpl.
  destruct Hm' as (? & ? & ? & ? & Hrun).
  destruct k0 as [|k]; [lia|].
  etrans; [|apply (Hmax (i0 + k) (j0 + k)); lia].
  apply (slen_complete Hnp); try lia.
  intros t Ht. destruct (Hrun t Ht) as (x & ? & ?). exists x.
  replace (S (i0 + k) - S k + t) with (i0 + t) by lia.
  replace (S (j0 + k) - S k + t) with (j0 + t) by lia. done.
Qed.

Lemma scan_rows_best_ok :
  alo ≤ ahi →
  best_ok s alo blo bhi ahi (scan_rows s blo bhi (seq alo (ahi - alo)) ∅ (alo, blo, 0)).
Proof using Hok.
  intros Ha. replace ahi with (alo + (ahi - alo)) at 1 by lia.
  apply scan_rows_spec; [done| |].
  - intros j _. rewrite lookup_empty. change (default 0 None) with 0.
    symmetry. apply slen_at_lo. lia.
  - split; [by left|]. intros. lia.
Qed.

Lemma extend_left_valid guard besti : ∀ bestj bestsize,
  valid (besti, bestj, bestsize) →
  valid (extend_left guard s alo blo besti bestj bestsize) ∧
  bestsize ≤ (extend_left guard s alo blo besti bestj bestsize).2.
Proof.
  induction besti as [|i' IH]; intros bestj bestsize Hv; cbn [extend_left]; [done|].
  destruct (alo <? S i') eqn:Hi; [|done]. apply Nat.ltb_lt in Hi.
  destruct (blo <? bestj) eqn:Hj; [|done]. apply Nat.ltb_lt in Hj.
  cbn [andb].
  destruct (a s !! i') as [x|] eqn:Hx; [|done].
  destruct (b s !! (bestj - 1)) as [y|] eqn:Hy; [|done].
  destruct (guard y); [|done]. cbn [andb].
  destruct (bool_decide_reflect (x = y)) as [->|]; [|done].
  destruct Hv as (? & ? & ? & ? & Hrun).
  destruct (IH (bestj - 1) (bestsize + 1)) as [Hv' Hle]; [|split; [done|lia]].
  repeat split; try lia. intros t Ht. destruct t as [|t].
  - exists y. by rewrite !Nat.add_0_r.
  - destruct (Hrun t) as (z & ? & ?); [lia|]. exists z.
    replace (i' + S t) with (S i' + t) by lia.
    replace (bestj - 1 + S t) with (bestj + t) by lia. done.
Qed.

Lemma extend_right_valid guard besti bestj room : ∀ bestsize,
  room ≤ ahi - (besti + bestsize) →
  valid (besti, bestj, bestsize) →
  valid (extend_right guard s bhi room besti bestj bestsize) ∧
  bestsize ≤ (extend_right guard s bhi room besti bestj bestsize).2.
Proof.
  induction room as [|room IH]; intros bestsize Hroom Hv; cbn [extend_right]; [done|].
  destruct (bestj + bestsize <? bhi) eqn:Hj; [|done]. apply Nat.ltb_lt in Hj.
  destruct (a s !! (besti + bestsize)) as [x|] eqn:Hx; [|done].
  destruct (b s !! (bestj + bestsize)) as [y|] eqn:Hy; [|done].
  destruct (guard y); [|done]. cbn [andb].
  destruct (bool_decide_reflect (x = y)) as [->|]; [|done].
  destruct Hv as (? & ? & ? & ? & Hrun).
  destruct (IH (bestsize + 1)) as [Hv' Hle]; [lia| |split; [done|lia]].
  repeat split; try lia. intros t Ht.
  destruct (decide (t = bestsize)) as [->|Hne].
  - by exists y.
  - apply Hrun. lia.
Qed.

(** The block [find_longest_match] returns is a matching block of its window,
    and no matching block of the window is longer unless popular elements
    were dropped from the index. *)
Lemma find_longest_match_spec :
  alo ≤ ahi → blo ≤ bhi →
  valid (find_longest_match s alo ahi blo bhi) ∧
  (no_popular s → ∀ m', valid m' → m'.2 ≤ (find_longest_match s alo ahi blo bhi).2).
Proof using Hok.
  intros Ha Hb. unfold find_longest_match.
  pose proof (scan_rows_best_ok Ha) as HB.
  pose proof (best_ok_valid _ Ha Hb HB) as Hv0.
  destruct (scan_rows s blo bhi (seq alo (ahi - alo)) ∅ (alo, blo, 0))
    as [[i0 j0] k0] eqn:Hscan.
  destruct (extend_left_valid (λ c, negb (isbjunk c)) i0 j0 k0 Hv0) as [Hv1 Hle1].
  destruct (extend_left (λ c, negb (isbjunk c)) s alo blo i0 j0 k0) as [[i1 j1] k1].
  destruct (extend_right_valid (λ c, negb (isbjunk c)) i1 j1 (ahi - (i1 + k1)) k1
              (le_n _) Hv1) as [Hv2 Hle2].
  destruct (extend_right (λ c, negb (isbjunk c)) s bhi (ahi - (i1 + k1)) i1 j1 k1)
    as [[i2 j2] k2].
  destruct (extend_left_valid isbjunk i2 j2 k2 Hv2) as [Hv3 Hle3].
  destruct (extend_left isbjunk s alo blo i2 j2 k2) as [[i3 j3] k3].
  destruct (extend_right_valid isbjunk i3 j3 (ahi - (i3 + k3)) k3 (le_n _) Hv3)
    as [Hv4 Hle4].
  split; [done|]. intros Hnp m' Hm'.
  pose proof (best_ok_longest _ _ Hnp HB Hm'). simpl in *. lia.
Qed.

End find_longest_match.

(** * [get_matching_blocks] *)

Section get_matching_blocks.
Import Difflib Blocks.
Context (s : SequenceMatcher) (Hok : b2j_ok s).

(** [P] is any description of blocks that [find_longest_match] meets. *)
Context (P : window → Match → Prop).
Context (HP : ∀ alo ahi blo bhi, alo ≤ ahi → blo ≤ bhi →
                P (alo, ahi, blo, bhi) (find_longest_match s alo ahi blo bhi)).

Lemma matches_of_app l1 l2 : matches_of (l1 ++ l2) = matches_of l1 + matches_of l2.
Proof. apply sum_list_with_app. Qed.

(** A window with an empty side has no block. *)
Lemma empty_window_decomposition alo ahi blo bhi :
  alo ≤ ahi → blo ≤ bhi → alo = ahi ∨ blo = bhi →
  Decomposition P (alo, ahi, blo, bhi) 0.
Proof using Hok HP.
  intros Ha Hb Hempty.
  pose proof (HP alo ahi blo bhi Ha Hb) as Hflm.
  destruct (find_longest_match_spec s Hok alo ahi blo bhi Ha Hb) as [Hv _].
  destruct (find_longest_match s alo ahi blo bhi) as [[i j] k].
  assert (k = 0) as -> by (destruct Hv as (? & ? & ? & ? & _); lia).
  by eapply Decomposition_none.
Qed.

Lemma blocks_loop_spec fuel : ∀ queue acc,
  Forall window_ok queue →
  sum_list_with window_measure queue ≤ fuel →
  ∃ blocks m,
    blocks_loop s fuel queue acc = Some (acc ++ blocks) ∧
    matches_of blocks = m ∧ Decompositions P queue m.
Proof using Hok HP.
  induction fuel as [|fuel IH]; intros queue acc Hwf Hfuel.
  - destruct queue as [|[[[alo ahi] blo] bhi] q].
    + exists [], 0. rewrite app_nil_r. repeat split. constructor.
    + simpl in Hfuel. lia.
  - destruct queue as [|[[[alo ahi] blo] bhi] q].
    { exists [], 0. rewrite app_nil_r. repeat split. constructor. }
    apply Forall_cons in Hwf as [[Ha Hb] Hwf]. cbn [blocks_loop].
    pose proof (HP alo ahi blo bhi Ha Hb) as Hflm.
    destruct (find_longest_match_spec s Hok alo ahi blo bhi Ha Hb) as [Hv _].
    destruct (find_longest_match s alo ahi blo bhi) as [[i j] k].
    destruct Hv as (Hi1 & Hi2 & Hj1 & Hj2 & _).
    cbn [sum_list_with window_measure] in Hfuel.
    destruct (Nat.eqb_spec k 0) as [->|Hk].
    { destruct (IH q acc Hwf) as (blocks & m & Hrun & Hm & Hdec); [lia|].
      exists blocks, m. split; [done|]. split; [done|].
      change m with (0 + m). constructor; [|done]. by eapply Decomposition_none. }
    set (left_pushed := (alo <? i) && (blo <? j)).
    set (right_pushed := (i + k <? ahi) && (j + k <? bhi)).
    set (q1 := if left_pushed then (alo, i, blo, j) :: q else q).
    set (q2 := if right_pushed then (i + k, ahi, j + k, bhi) :: q1 else q1).
    assert (Forall window_ok q2 ∧ sum_list_with window_measure q2 ≤ fuel) as [Hwf2 Hfuel2].
    { subst q2 q1. destruct right_pushed, left_pushed;
        (split;
         [repeat (apply Forall_cons; split); try done; split; lia
         |cbn [sum_list_with window_measure]; lia]). }
    destruct (IH q2 (acc ++ [(i, j, k)]) Hwf2 Hfuel2) as (blocks & m & Hrun & Hm & Hdec).
    assert (∃ ml mr mq, m = mr + ml + mq ∧
              Decomposition P (alo, i, blo, j) ml ∧
              Decomposition P (i + k, ahi, j + k, bhi) mr ∧
              Decompositions P q mq) as (ml & mr & mq & -> & Hl & Hr & Hq).
    { subst q2 q1.
      destruct right_pushed eqn:Hrp, left_pushed eqn:Hlp.
      - inversion Hdec as [|w1 q' m1 m2 Hd1 Hd2]; subst.
        inversion Hd2 as [|w2 q'' m3 m4 Hd3 Hd4]; subst.
        exists m3, m1, m4. split; [lia|done].
      - inversion Hdec as [|w1 q' m1 m2 Hd1 Hd2]; subst.
        exists 0, m1, m2. split; [lia|]. split; [|done].
        apply empty_window_decomposition; [done..|].
        subst left_pushed. apply andb_false_iff in Hlp as [H|H];
          apply Nat.ltb_ge in H; lia.
      - inversion Hdec as [|w1 q' m1 m2 Hd1 Hd2]; subst.
        exists m1, 0, m2. split; [lia|]. split; [done|]. split; [|done].
        apply empty_window_decomposition; [done..|].
        subst right_pushed. apply andb_false_iff in Hrp as [H|H];
          apply Nat.ltb_ge in H; lia.
      - exists 0, 0, m. split; [lia|]. split; [|split; [|done]].
        + apply empty_window_decomposition; [done..|].
          subst left_pushed. apply andb_false_iff in Hlp as [H|H];
            apply Nat.ltb_ge in H; lia.
        + apply empty_window_decomposition; [done..|].
          subst right_pushed. apply andb_false_iff in Hrp as [H|H];
            apply Nat.ltb_ge in H; lia. }
    exists ((i, j, k) :: blocks), (k + ml + mr + mq).
    split; [|split].
    + rewrite Hrun. by rewrite <- app_assoc.
    + cbn [matches_of sum_list_with snd]. unfold matches_of in Hm. rewrite Hm. lia.
    + constructor; [|done].
      apply (Decomposition_block P alo ahi blo bhi i j k ml mr); [lia|done..].
Qed.

(** The queue loop ends within its fuel. *)
Lemma blocks_loop_terminates :
  ∃ blocks m,
    blocks_loop s (blocks_fuel (length (a s))) [(0, length (a s), 0, length (b s))] []
      = Some blocks ∧
    matches_of blocks = m ∧
    Decomposition P (0, length (a s), 0, length (b s)) m.
Proof using Hok HP.
  destruct (blocks_loop_spec (blocks_fuel (length (a s)))
              [(0, length (a s), 0, length (b s))] []) as (blocks & m & Hrun & Hm & Hdec).
  - constructor; [split; lia|constructor].
  - unfold blocks_fuel. cbn [sum_list_with window_measure]. lia.
  - exists blocks, m. split; [done|]. split; [done|].
    inversion Hdec as [|w q m1 m2 Hd1 Hd2]; subst.
    inversion Hd2; subst. by rewrite Nat.add_0_r.
Qed.

Lemma collapse_adjacent_matches blocks : ∀ cur non_adjacent cur' non_adjacent',
  collapse_adjacent blocks cur non_adjacent = (cur', non_adjacent') →
  cur'.2 + matches_of non_adjacent' =
  cur.2 + matches_of non_adjacent + matches_of blocks.
Proof.
  unfold matches_of.
  induction blocks as [|[[i2 j2] k2] rest IH];
    intros [[i1 j1] k1] non_adjacent cur' non_adjacent'; cbn [collapse_adjacent].
  - intros [= <- <-]. cbn [sum_list_with snd]. lia.
  - destruct ((i1 + k1 =? i2) && (j1 + k1 =? j2)).
    + intros Hrun. rewrite (IH _ _ _ _ Hrun). cbn [sum_list_with snd]. lia.
    + intros Hrun. rewrite (IH _ _ _ _ Hrun).
      destruct (k1 =? 0) eqn:Hk.
      * apply Nat.eqb_eq in Hk. subst. cbn [sum_list_with snd]. lia.
      * rewrite sum_list_with_app. cbn [sum_list_with snd]. lia.
Qed.

(** The number of matches of [ratio] is the total of a decomposition of the
    whole window in which every block is one [find_longest_match] returns. *)
Lemma get_matching_blocks_matches :
  Decomposition P (0, length (a s), 0, length (b s)) (matches_of (get_matching_blocks s)).
Proof using Hok HP.
  destruct blocks_loop_terminates as (blocks & m & Hrun & Hm & Hdec).
  unfold get_matching_blocks. rewrite Hrun. cbn [default from_option id].
  destruct (collapse_adjacent (merge_sort Match_le blocks) (0, 0, 0) [])
    as [[[i1 j1] k1] non_adjacent] eqn:Hcollapse.
  apply collapse_adjacent_matches in Hcollapse.
  assert (matches_of (merge_sort Match_le blocks) = m) as Hsort.
  { unfold matches_of. rewrite merge_sort_Permutation. exact Hm. }
  rewrite Hsort in Hcollapse.
  replace (matches_of _) with m; [done|].
  unfold matches_of in *. rewrite sum_list_with_app.
  cbn [sum_list_with snd] in *.
  destruct (k1 =? 0) eqn:Hk.
  - apply Nat.eqb_eq in Hk. subst. lia.
  - rewrite sum_list_with_app. cbn [sum_list_with snd]. lia.
Qed.

End get_matching_blocks.

(** * The index [b2j] *)

Section chain_b.
Import Difflib Blocks.

Lemma enumerate_b_spec b0 r : ∀ i m,
  drop i b0 = r → index_upto b0 i m →
  index_upto b0 (length b0) (enumerate_b i r m).
Proof.
  induction r as [|elt r IH]; intros i m Hdrop [Hsound Hcomplete]; cbn [enumerate_b].
  - assert (length b0 ≤ i) as Hlen.
    { destruct (decide (length b0 ≤ i)) as [|Hn]; [done|].
      apply (f_equal length) in Hdrop. rewrite length_drop in Hdrop. simpl in Hdrop. lia. }
    split.
    + intros x js Hjs. destruct (Hsound x js Hjs) as [Hs Hin]. split; [done|].
      intros j. rewrite Hin. split; intros [Hj Hb]; (split; [|done]).
      * apply lookup_lt_Some in Hb. lia.
      * lia.
    + intros j x Hj Hb. apply (Hcomplete j x); [|done].
      apply lookup_lt_Some in Hb. lia.
  - assert (b0 !! i = Some elt) as Hi.
    { rewrite <- (Nat.add_0_r i), <- lookup_drop, Hdrop. done. }
    apply IH.
    { rewrite (drop_S _ _ _ Hi) in Hdrop. by injection Hdrop. }
    unfold setdefault_append. split.
    + intros x js. destruct (decide (x = elt)) as [->|Hne].
      * rewrite lookup_insert_eq. intros [= <-].
        assert (StronglySorted lt (default [] (m !! elt)) ∧
                ∀ j, j ∈ default [] (m !! elt) ↔ j < i ∧ b0 !! j = Some elt) as [Hs Hin].
        { destruct (m !! elt) as [old|] eqn:Hold; simpl.
          - by apply Hsound.
          - split; [constructor|]. intros j. split.
            + intros Hj. by apply elem_of_nil in Hj.
            + intros [Hj Hb]. destruct (Hcomplete j elt Hj Hb) as [? ?]. congruence. }
        split.
        -- apply StronglySorted_app_2; [|done|repeat constructor].
           intros x1 x2 Hx1 Hx2. apply Hin in Hx1 as [? _].
           apply list_elem_of_singleton in Hx2 as ->. done.
        -- intros j. rewrite elem_of_app, Hin, list_elem_of_singleton. split.
           ++ intros [[? ?]| ->]; split; (done || lia).
           ++ intros [Hj Hb]. destruct (decide (j = i)) as [->|]; [by right|].
              left. split; [lia|done].
      * rewrite lookup_insert_ne by done. intros Hjs.
        destruct (Hsound x js Hjs) as [Hs Hin]. split; [done|].
        intros j. rewrite Hin. split.
        -- intros [? ?]. split; [lia|done].
        -- intros [Hj Hb]. split; [|done].
           destruct (decide (j = i)) as [->|]; [congruence|lia].
    + intros j x Hj Hb. destruct (decide (x = elt)) as [->|Hne].
      * rewrite lookup_insert_eq. done.
      * rewrite lookup_insert_ne by done. apply (Hcomplete j); [|done].
        destruct (decide (j = i)) as [->|]; [congruence|lia].
Qed.

Lemma enumerate_b_all b0 : index_upto b0 (length b0) (enumerate_b 0 b0 ∅).
Proof.
  apply enumerate_b_spec; [done|]. split.
  - intros x js Hjs. by rewrite lookup_empty in Hjs.
  - intros j x Hj. lia.
Qed.

Lemma chain_b_ok a0 b0 : b2j_ok (set_seqs a0 b0).
Proof.
  destruct (enumerate_b_all b0) as [Hsound _].
  intros x js. cbn [b2j b set_seqs]. unfold chain_b.
  intros Hjs.
  assert (enumerate_b 0 b0 ∅ !! x = Some js) as Hlook.
  { destruct (200 <=? length b0); [|done].
    by apply map_lookup_filter_Some in Hjs as [? _]. }
  destruct (Hsound x js Hlook) as [Hs Hin]. split; [done|].
  intros j. rewrite Hin. split.
  - by intros [_ ?].
  - intros Hb. split; [|done]. by apply lookup_lt_Some in Hb.
Qed.

(** Below 200 characters nothing is dropped from the index. *)
Lemma chain_b_no_popular a0 b0 : length b0 < 200 → no_popular (set_seqs a0 b0).
Proof.
  intros Hlen j x. cbn [b2j b set_seqs]. unfold chain_b.
  destruct (Nat.leb_spec 200 (length b0)) as [|_]; [lia|].
  intros Hb. destruct (enumerate_b_all b0) as [_ Hcomplete].
  apply (Hcomplete j); [|done]. by apply lookup_lt_Some in Hb.
Qed.

End chain_b.

(** * The ratio is the gestalt ratio *)

Section gestalt.
Import Difflib Blocks GestaltSpec.

Lemma ratio_gestalt_matches a0 b0 :
  length b0 < 200 →
  gestalt_matches a0 b0 (matches_of (get_matching_blocks (set_seqs a0 b0))).
Proof.
  intros Hlen. unfold gestalt_matches.
  apply (get_matching_blocks_matches (set_seqs a0 b0) (chain_b_ok a0 b0)
           (longest_block a0 b0)).
  intros alo ahi blo bhi Ha Hb.
  destruct (find_longest_match_spec (set_seqs a0 b0) (chain_b_ok a0 b0)
              alo ahi blo bhi Ha Hb) as [Hv Hmax].
  split; [exact Hv|]. apply Hmax. by apply chain_b_no_popular.
Qed.

Lemma calculate_ratio_pos matches n :
  0 < n →
  _calculate_ratio matches n =
  (2 * inject_Z (Z.of_nat matches) / inject_Z (Z.of_nat n))%Q.
Proof. destruct n; [lia|done]. Qed.

End gestalt.

(** * Upper bounds on the ratio *)

Section counting.
Import Difflib Blocks Counting.

Lemma sum_list_with_add {A} (f g : A → nat) l :
  sum_list_with (λ x, f x + g x) l = sum_list_with f l + sum_list_with g l.
Proof. induction l as [|x l IH]; simpl; [done|]. rewrite IH. lia. Qed.

Lemma sum_list_with_le {A} (f g : A → nat) l :
  (∀ x, f x ≤ g x) → sum_list_with f l ≤ sum_list_with g l.
Proof. intros H. induction l as [|x l IH]; simpl; [done|]. specialize (H x). lia. Qed.

Lemma sum_list_with_ext {A} (f g : A → nat) l :
  (∀ x, f x = g x) → sum_list_with f l = sum_list_with g l.
Proof. intros H. induction l as [|x l IH]; simpl; [done|]. by rewrite H, IH. Qed.

(** Every character is listed once. *)
Lemma sum_indicator x d :
  sum_list_with (λ c, if decide (c = x) then d else 0) all_chars = d.
Proof.
  destruct x as [[] [] [] [] [] [] [] []]; vm_compute; exact (Nat.add_0_r d).
Qed.

Lemma cnt_nil c : cnt c [] = 0.
Proof. done. Qed.

Lemma cnt_cons c x l : cnt c (x :: l) = (if decide (x = c) then 1 else 0) + cnt c l.
Proof.
  unfold cnt. destruct (decide (x = c)) as [->|Hne].
  - by rewrite filter_cons_True.
  - by rewrite filter_cons_False.
Qed.

Lemma cnt_app c l1 l2 : cnt c (l1 ++ l2) = cnt c l1 + cnt c l2.
Proof. unfold cnt. by rewrite filter_app, length_app. Qed.

Lemma sum_cnt l : sum_list_with (λ c, cnt c l) all_chars = length l.
Proof.
  induction l as [|x l IH]; cbn [length].
  - vm_compute. reflexivity.
  - rewrite (sum_list_with_ext _ (λ c, (if decide (c = x) then 1 else 0) + cnt c l)).
    + by rewrite sum_list_with_add, sum_indicator, IH.
    + intros c. rewrite cnt_cons.
      destruct (decide (x = c)), (decide (c = x)); congruence.
Qed.

Lemma common_count_le_l x y : common_count x y ≤ length x.
Proof.
  rewrite <- (sum_cnt x). apply sum_list_with_le. intros c. lia.
Qed.

Lemma common_count_le_r x y : common_count x y ≤ length y.
Proof.
  rewrite <- (sum_cnt y). apply sum_list_with_le. intros c. lia.
Qed.

Lemma common_count_self m : common_count m m = length m.
Proof.
  rewrite <- (sum_cnt m). apply sum_list_with_ext. intros c. lia.
Qed.

Lemma common_count_app x1 x2 y1 y2 :
  common_count x1 y1 + common_count x2 y2 ≤ common_count (x1 ++ x2) (y1 ++ y2).
Proof.
  unfold common_count. rewrite <- sum_list_with_add. apply sum_list_with_le.
  intros c. rewrite !cnt_app. lia.
Qed.

Lemma slice_split l lo mid hi :
  lo ≤ mid → mid ≤ hi → slice l lo hi = slice l lo mid ++ slice l mid hi.
Proof.
  intros H1 H2. unfold slice.
  replace (hi - lo) with ((mid - lo) + (hi - mid)) by lia.
  rewrite <- take_take_drop, drop_drop. by replace (lo + (mid - lo)) with mid by lia.
Qed.

Lemma slice_all l : slice l 0 (length l) = l.
Proof. unfold slice. rewrite drop_0, Nat.sub_0_r. by apply take_ge. Qed.

Lemma slice_lookup l lo hi t :
  t < hi - lo → slice l lo hi !! t = l !! (lo + t).
Proof. intros Ht. unfold slice. by rewrite lookup_take_lt, lookup_drop. Qed.

Lemma slice_length l lo hi : hi ≤ length l → length (slice l lo hi) = hi - lo.
Proof. intros H. unfold slice. rewrite length_take, length_drop. lia. Qed.

(** The two sides of a matching block are the same string. *)
Lemma valid_block_slices a0 b0 w i j k :
  valid_block a0 b0 w (i, j, k) → slice a0 i (i + k) = slice b0 j (j + k).
Proof.
  destruct w as [[[alo ahi] blo] bhi]. intros (_ & _ & _ & _ & Hrun).
  apply list_eq. intros t.
  destruct (decide (t < k)) as [Ht|Ht].
  - rewrite !slice_lookup by lia. destruct (Hrun t Ht) as (x & -> & ->). done.
  - unfold slice. rewrite !lookup_take_ge; [done|lia..].
Qed.

Lemma valid_block_length a0 b0 w i j k :
  valid_block a0 b0 w (i, j, k) → length (slice a0 i (i + k)) = k.
Proof.
  destruct w as [[[alo ahi] blo] bhi]. intros (_ & _ & _ & _ & Hrun).
  unfold slice. rewrite length_take, length_drop.
  destruct k as [|k]; [lia|].
  destruct (Hrun k) as (x & Ha & _); [lia|].
  apply lookup_lt_Some in Ha. lia.
Qed.

(** The blocks of a decomposition pair equal characters of the two windows,
    each character once. *)
Lemma decomposition_le_common a0 b0 w m :
  Decomposition (valid_block a0 b0) w m →
  window_ok w →
  m ≤ common_count (slice a0 w.1.1.1 w.1.1.2) (slice b0 w.1.2 w.2).
Proof.
  induction 1 as [w i j Hv|alo ahi blo bhi i j k ml mr Hk Hv Hl IHl Hr IHr];
    intros Hw; [lia|].
  cbn [fst snd] in *.
  pose proof (valid_block_slices _ _ _ _ _ _ Hv) as Hmid.
  pose proof (valid_block_length _ _ _ _ _ _ Hv) as Hlen.
  destruct Hv as (Hi1 & Hi2 & Hj1 & Hj2 & _). destruct Hw as [Ha Hb].
  specialize (IHl (conj Hi1 Hj1)). specialize (IHr (conj Hi2 Hj2)).
  rewrite (slice_split a0 alo i ahi), (slice_split a0 i (i + k) ahi) by lia.
  rewrite (slice_split b0 blo j bhi), (slice_split b0 j (j + k) bhi) by lia.
  rewrite <- Hmid.
  etrans; [|apply common_count_app]. etrans; [|apply Nat.add_le_mono_l, common_count_app].
  rewrite common_count_self, Hlen. lia.
Qed.

(** ** [quick_ratio] counts the common characters *)

Lemma fullbcount_spec b0 c : default 0 (fullbcount b0 !! c) = cnt c b0.
Proof.
  unfold fullbcount.
  assert (∀ m : gmap ascii nat, default 0
            (foldl (λ m elt, <[elt := default 0 (m !! elt) + 1]> m) m b0 !! c)
            = default 0 (m !! c) + cnt c b0) as Hgen.
  { induction b0 as [|x r IH]; intros m; cbn [foldl].
    - rewrite cnt_nil. lia.
    - rewrite IH, cnt_cons. destruct (decide (x = c)) as [->|Hne].
      + rewrite lookup_insert_eq. simpl. lia.
      + rewrite lookup_insert_ne by done. lia. }
  rewrite Hgen, lookup_empty. done.
Qed.

Lemma common_count_snoc p elt y :
  common_count (p ++ [elt]) y =
  common_count p y + (if decide (cnt elt p < cnt elt y) then 1 else 0).
Proof.
  unfold common_count.
  rewrite (sum_list_with_ext _
             (λ c, cnt c p `min` cnt c y +
                   (if decide (c = elt)
                    then (if decide (cnt elt p < cnt elt y) then 1 else 0) else 0))).
  - by rewrite sum_list_with_add, sum_indicator.
  - intros c. rewrite cnt_app, cnt_cons, cnt_nil.
    destruct (decide (elt = c)) as [->|Hne].
    + rewrite decide_True by done. destruct (decide (cnt c p < cnt c y)); lia.
    + rewrite decide_False by congruence. lia.
Qed.

Lemma quick_loop_spec fb y :
  (∀ c, default 0 (fb !! c) = cnt c y) →
  ∀ r p (avail : gmap ascii Z) matches,
    (∀ c, avail !! c =
          if decide (0 < cnt c p)
          then Some (Z.of_nat (cnt c y) - Z.of_nat (cnt c p))%Z else None) →
    matches = common_count p y →
    quick_loop fb r avail matches = common_count (p ++ r) y.
Proof.
  intros Hfb. induction r as [|elt r IH]; intros p avail matches Havail ->;
    cbn [quick_loop].
  - by rewrite app_nil_r.
  - replace (p ++ elt :: r) with ((p ++ [elt]) ++ r) by (by rewrite <- app_assoc).
    assert (match avail !! elt with
            | Some n => n
            | None => Z.of_nat (default 0 (fb !! elt))
            end = (Z.of_nat (cnt elt y) - Z.of_nat (cnt elt p))%Z) as ->.
    { rewrite Havail, Hfb. destruct (decide (0 < cnt elt p)); [done|lia]. }
    apply IH.
    + intros c. rewrite cnt_app, cnt_cons, cnt_nil.
      destruct (decide (elt = c)) as [->|Hne].
      * rewrite lookup_insert_eq. rewrite decide_True by lia. f_equal. lia.
      * rewrite lookup_insert_ne by done. rewrite Havail.
        destruct (decide (0 < cnt c p)).
        -- rewrite decide_True by lia. f_equal. lia.
        -- rewrite decide_False by lia. done.
    + rewrite common_count_snoc.
      destruct (decide (cnt elt p < cnt elt y)).
      * rewrite (proj2 (Z.ltb_lt _ _)) by lia. done.
      * rewrite (proj2 (Z.ltb_ge _ _)) by lia. lia.
Qed.

Lemma quick_loop_common x y :
  quick_loop (fullbcount y) x ∅ 0 = common_count x y.
Proof.
  apply (quick_loop_spec (fullbcount y) y (fullbcount_spec y) x [] ∅ 0).
  - intros c. rewrite lookup_empty, cnt_nil. done.
  - unfold common_count. symmetry.
    rewrite (sum_list_with_ext _ (λ _, 0)); [vm_compute; reflexivity|].
    intros c. rewrite cnt_nil. done.
Qed.

End counting.

(** * The cutoff tests of [get_close_matches] *)

Section cutoff.
Import Difflib Blocks Counting.

Lemma calculate_ratio_mono m1 m2 n :
  m1 ≤ m2 → (_calculate_ratio m1 n <= _calculate_ratio m2 n)%Q.
Proof.
  intros Hm. destruct n as [|n]; [apply Qle_refl|]. cbn [_calculate_ratio].
  unfold Qdiv. apply Qmult_le_compat_r.
  - apply Qmult_le_l; [done|]. rewrite <- Zle_Qle. lia.
  - apply Qinv_le_0_compat. change 0%Q with (inject_Z 0). rewrite <- Zle_Qle. lia.
Qed.

Lemma ge_true x y : ge x y = true ↔ (y <= x)%Q.
Proof. unfold ge. apply Qle_bool_iff. Qed.

Lemma ge_mono x y t : (x <= y)%Q → ge x t = true → ge y t = true.
Proof. rewrite !ge_true. intros Hxy Htx. by eapply Qle_trans. Qed.

(** The blocks behind [ratio] are matching blocks, for any index. *)
Lemma ratio_decomposition s :
  b2j_ok s →
  Decomposition (valid_block (a s) (b s)) (0, length (a s), 0, length (b s))
    (matches_of (get_matching_blocks s)).
Proof.
  intros Hok. apply (get_matching_blocks_matches s Hok).
  intros alo ahi blo bhi Ha Hb.
  by destruct (find_longest_match_spec s Hok alo ahi blo bhi Ha Hb) as [Hv _].
Qed.

Lemma matches_le_common s :
  b2j_ok s → matches_of (get_matching_blocks s) ≤ common_count (a s) (b s).
Proof.
  intros Hok.
  pose proof (decomposition_le_common _ _ _ _ (ratio_decomposition s Hok)) as H.
  cbn [fst snd] in H. rewrite !slice_all in H. apply H. split; lia.
Qed.

(** [quick_ratio] and [real_quick_ratio] are upper bounds of [ratio]. *)
Lemma ratio_le_quick_ratio s : b2j_ok s → (ratio s <= quick_ratio s)%Q.
Proof.
  intros Hok. unfold ratio, quick_ratio. apply calculate_ratio_mono.
  rewrite quick_loop_common. by apply matches_le_common.
Qed.

Lemma ratio_le_real_quick_ratio s : b2j_ok s → (ratio s <= real_quick_ratio s)%Q.
Proof.
  intros Hok. unfold ratio, real_quick_ratio. apply calculate_ratio_mono.
  pose proof (matches_le_common s Hok).
  pose proof (common_count_le_l (a s) (b s)).
  pose proof (common_count_le_r (a s) (b s)). lia.
Qed.

Lemma cutoff_tests s cutoff :
  b2j_ok s →
  ge (real_quick_ratio s) cutoff && ge (quick_ratio s) cutoff && ge (ratio s) cutoff
  = ge (ratio s) cutoff.
Proof.
  intros Hok. destruct (ge (ratio s) cutoff) eqn:Hr; [|by rewrite andb_false_r].
  rewrite (ge_mono _ _ _ (ratio_le_real_quick_ratio s Hok) Hr).
  rewrite (ge_mono _ _ _ (ratio_le_quick_ratio s Hok) Hr). done.
Qed.

Lemma close_candidates_fold word cutoff possibilities : ∀ acc,
  foldl (λ result x,
           if ge (real_quick_ratio (set_seqs x word)) cutoff
              && ge (quick_ratio (set_seqs x word)) cutoff
              && ge (ratio (set_seqs x word)) cutoff
           then result ++ [(ratio (set_seqs x word), x)] else result)
        acc possibilities =
  acc ++ filter (λ p, ge p.1 cutoff = true)
           (map (λ x, (ratio (set_seqs x word), x)) possibilities).
Proof.
  induction possibilities as [|x poss IH]; intros acc; cbn [foldl map].
  - by rewrite filter_nil, app_nil_r.
  - rewrite IH, (cutoff_tests _ _ (chain_b_ok x word)).
    destruct (ge (ratio (set_seqs x word)) cutoff) eqn:Hge.
    + rewrite filter_cons_True by done. by rewrite <- app_assoc.
    + rewrite filter_cons_False; [done|]. cbn [fst]. by rewrite Hge.
Qed.

(** The candidates kept by the loop of [get_close_matches] are the
    possibilities whose ratio reaches the cutoff, in order, with their ratio. *)
Lemma close_candidates_eq word possibilities cutoff :
  close_candidates word possibilities cutoff =
  filter (λ p, ge p.1 cutoff = true)
         (map (λ x, (ratio (set_seqs x word), x)) possibilities).
Proof. exact (close_candidates_fold word cutoff possibilities []). Qed.

End cutoff.

(** * The best candidate *)

Section best_candidate.
Import Difflib.

Lemma ord_inj c d : PyStr.ord c = PyStr.ord d → c = d.
Proof.
  unfold PyStr.ord. intros H.
  rewrite <- (ascii_nat_embedding c), <- (ascii_nat_embedding d). by rewrite H.
Qed.

Lemma str_gt_irrefl s : PyStr.gt s s = false.
Proof. induction s as [|c s IH]; simpl; [done|]. by rewrite decide_True. Qed.

Lemma str_gt_trans s : ∀ t u,
  PyStr.gt s t = true → PyStr.gt t u = true → PyStr.gt s u = true.
Proof.
  induction s as [|c s IH]; intros [|d t] [|e u]; simpl; try done.
  destruct (decide (c = d)) as [->|Hcd].
  - destruct (decide (d = e)) as [->|Hde]; [apply IH|done].
  - destruct (decide (d = e)) as [->|Hde].
    + rewrite decide_False by done. done.
    + intros H1%Nat.ltb_lt H2%Nat.ltb_lt.
      destruct (decide (c = e)) as [->|Hce]; [lia|].
      apply Nat.ltb_lt. lia.
Qed.

Lemma tuple_gt_true p q :
  tuple_gt p q = true ↔ (q.1 < p.1)%Q ∨ ((p.1 == q.1)%Q ∧ PyStr.gt p.2 q.2 = true).
Proof.
  unfold tuple_gt. destruct (Qeq_bool p.1 q.1) eqn:Heq.
  - apply Qeq_bool_iff in Heq. split; [by right|].
    intros [Hlt|[_ ?]]; [|done]. rewrite Heq in Hlt. by apply Qlt_irrefl in Hlt.
  - apply Qeq_bool_neq in Heq. rewrite negb_true_iff. split.
    + intros Hle. left. apply Qnot_le_lt. intros H. apply Qle_bool_iff in H. congruence.
    + intros [Hlt|[? _]]; [|done].
      destruct (Qle_bool p.1 q.1) eqn:Hle; [|done].
      apply Qle_bool_iff in Hle. by apply Qlt_not_le in Hlt.
Qed.

Lemma tuple_gt_false p q :
  tuple_gt p q = false ↔ (p.1 < q.1)%Q ∨ ((p.1 == q.1)%Q ∧ PyStr.gt p.2 q.2 = false).
Proof.
  split.
  - intros H. destruct (Qlt_le_dec q.1 p.1) as [Hlt|Hle].
    + assert (tuple_gt p q = true) by (apply tuple_gt_true; by left). congruence.
    + apply Qle_lteq in Hle as [Hlt|Heq]; [by left|]. right. split; [done|].
      destruct (PyStr.gt p.2 q.2) eqn:Hgt; [|done].
      assert (tuple_gt p q = true) by (apply tuple_gt_true; by right). congruence.
  - intros H. destruct (tuple_gt p q) eqn:Hgt; [|done].
    apply tuple_gt_true in Hgt. exfalso.
    destruct H as [Hlt|[Heq Hn]], Hgt as [Hlt'|[Heq' Hg]].
    + apply (Qlt_irrefl p.1). by eapply Qlt_trans.
    + rewrite Heq' in Hlt. by apply Qlt_irrefl in Hlt.
    + rewrite Heq in Hlt'. by apply Qlt_irrefl in Hlt'.
    + congruence.
Qed.

Lemma tuple_gt_trans p q r :
  tuple_gt p q = true → tuple_gt q r = true → tuple_gt p r = true.
Proof.
  rewrite !tuple_gt_true.
  intros [H1|[E1 G1]] [H2|[E2 G2]].
  - left. by eapply Qlt_trans.
  - left. by rewrite <- E2.
  - left. by rewrite E1.
  - right. split; [by rewrite E1|]. by eapply str_gt_trans.
Qed.

(** [max] returns an item of the list that no item exceeds. *)
Lemma py_max_spec rest : ∀ first seen,
  first ∈ seen → (∀ p, p ∈ seen → tuple_gt p first = false) →
  py_max first rest ∈ seen ++ rest ∧
  ∀ p, p ∈ seen ++ rest → tuple_gt p (py_max first rest) = false.
Proof.
  unfold py_max.
  induction rest as [|item rest IH]; intros first seen Hin Hmax; cbn [foldl].
  - rewrite app_nil_r. done.
  - replace (seen ++ item :: rest) with ((seen ++ [item]) ++ rest)
      by (by rewrite <- app_assoc).
    destruct (tuple_gt item first) eqn:Hgt; apply IH.
    + apply elem_of_app. right. by apply list_elem_of_singleton.
    + intros p Hp. apply elem_of_app in Hp as [Hp|Hp].
      * destruct (tuple_gt p item) eqn:Hpi; [|done].
        rewrite <- (Hmax p Hp). symmetry. by eapply tuple_gt_trans.
      * apply list_elem_of_singleton in Hp as ->.
        apply tuple_gt_false. right. split; [reflexivity|apply str_gt_irrefl].
    + apply elem_of_app. by left.
    + intros p Hp. apply elem_of_app in Hp as [Hp|Hp]; [by apply Hmax|].
      by apply list_elem_of_singleton in Hp as ->.
Qed.

Lemma nlargest1_spec result best :
  nlargest1 result = [best] →
  best ∈ result ∧ ∀ p, p ∈ result → tuple_gt p best = false.
Proof.
  destruct result as [|first rest]; [done|]. cbn [nlargest1]. intros [= <-].
  destruct (py_max_spec rest first [first]) as [Hin Hmax].
  - by apply list_elem_of_singleton.
  - intros p Hp. apply list_elem_of_singleton in Hp as ->.
    apply tuple_gt_false. right. split; [reflexivity|apply str_gt_irrefl].
  - done.
Qed.

Lemma nlargest1_nil result : nlargest1 result = [] ↔ result = [].
Proof. by destruct result. Qed.

Lemma nlargest1_length result : length (nlargest1 result) ≤ 1.
Proof. destruct result; simpl; lia. Qed.

(** ** [get_close_matches] *)


Lemma get_close_matches_raises word possibilities cutoff :
  ¬ (0 <= cutoff ∧ cutoff <= 1)%Q →
  get_close_matches word possibilities cutoff = inl (ValueError_cutoff cutoff).
Proof.
  intros Hn. unfold get_close_matches.
  destruct (Qle_bool 0 cutoff && Qle_bool cutoff 1) eqn:Hc; [|done].
  exfalso. apply Hn. apply andb_true_iff in Hc as [H1 H2].
  by rewrite !Qle_bool_iff in *.
Qed.

Lemma get_close_matches_returns word possibilities cutoff :
  (0 <= cutoff)%Q → (cutoff <= 1)%Q →
  get_close_matches word possibilities cutoff =
  inr (map snd (nlargest1 (close_candidates word possibilities cutoff))).
Proof.
  intros H0 H1. unfold get_close_matches.
  rewrite (proj2 (Qle_bool_iff _ _) H0), (proj2 (Qle_bool_iff _ _) H1). done.
Qed.

Lemma get_close_matches_inr word possibilities cutoff l :
  get_close_matches word possibilities cutoff = inr l →
  (0 <= cutoff)%Q ∧ (cutoff <= 1)%Q ∧
  l = map snd (nlargest1 (close_candidates word possibilities cutoff)).
Proof.
  unfold get_close_matches.
  destruct (Qle_bool 0 cutoff && Qle_bool cutoff 1) eqn:Hc; [|done].
  apply andb_true_iff in Hc as [H1 H2]. rewrite !Qle_bool_iff in *.
  cbn [negb]. by intros [= <-].
Qed.

End best_candidate.

(** * The agent *)

Section agent.
Import Difflib.

Lemma list_index_from_spec l x : ∀ i0 i,
  list_index_from i0 l x = inr i →
  i0 ≤ i ∧ l !! (i - i0) = Some x ∧ ∀ i', i' < i - i0 → l !! i' ≠ Some x.
Proof.
  induction l as [|y r IH]; intros i0 i; cbn [list_index_from]; [done|].
  destruct (decide (y = x)) as [->|Hne].
  - intros [= <-]. rewrite Nat.sub_diag. repeat split; [done|]. intros i' Hi'. lia.
  - intros Hrun. destruct (IH _ _ Hrun) as (Hle & Hlook & Hfirst).
    split; [lia|]. replace (i - i0) with (S (i - S i0)) by lia. split; [done|].
    intros [|i'] Hi'; simpl; [congruence|]. apply Hfirst. lia.
Qed.

Lemma list_index_spec l x i :
  list_index l x = inr i → l !! i = Some x ∧ ∀ i', i' < i → l !! i' ≠ Some x.
Proof.
  intros H. apply list_index_from_spec in H as (_ & H1 & H2).
  rewrite Nat.sub_0_r in *. done.
Qed.

Lemma list_index_from_elem l x : ∀ i0, x ∈ l → ∃ i, list_index_from i0 l x = inr i.
Proof.
  induction l as [|y r IH]; intros i0 Hin; [by apply elem_of_nil in Hin|].
  cbn [list_index_from]. destruct (decide (y = x)) as [->|Hne]; [by eexists|].
  apply elem_of_cons in Hin as [->|Hin]; [done|]. by apply IH.
Qed.

Lemma list_index_elem l x : x ∈ l → ∃ i, list_index l x = inr i.
Proof. apply list_index_from_elem. Qed.

(** The dictionary of [__init__] answers every question of the data, with the
    answer of an item of the data. *)
Lemma init_from_dict data : ∀ (d0 : gmap str str) q,
  foldl (λ d item, <[question item := answer item]> d) d0 data !! q =
  match last (filter (λ e, question e = q) data) with
  | Some e => Some (answer e)
  | None => d0 !! q
  end.
Proof.
  induction data as [|e data IH]; intros d0 q; cbn [foldl]; [done|].
  rewrite IH. destruct (decide (question e = q)) as [Heq|Hne].
  - rewrite filter_cons_True by done.
    destruct (filter (λ e, question e = q) data) as [|e' l] eqn:Hf.
    + cbn. by rewrite <- Heq, lookup_insert_eq.
    + rewrite last_cons_cons. destruct (last (e' :: l)) eqn:Hl; [done|].
      by apply last_None in Hl.
  - rewrite filter_cons_False by done. rewrite lookup_insert_ne by done. done.
Qed.

Lemma init_from_lookup data q :
  q ∈ questions (init_from data) →
  ∃ e, e ∈ data ∧ question e = q ∧ qa_dict (init_from data) !! q = Some (answer e).
Proof.
  cbn [questions qa_dict init_from]. intros Hq.
  apply list_elem_of_fmap in Hq as (e0 & -> & He0).
  rewrite init_from_dict.
  assert (e0 ∈ filter (λ e, question e = question e0) data) as Hin
    by (by apply list_elem_of_filter).
  destruct (last (filter (λ e, question e = question e0) data)) as [e|] eqn:Hlast.
  - apply last_Some_elem_of in Hlast. apply list_elem_of_filter in Hlast as [Hqe Hine].
    by exists e.
  - apply last_None in Hlast. rewrite Hlast in Hin. by apply elem_of_nil in Hin.
Qed.

Lemma init_from_lookup_inv data q ans :
  qa_dict (init_from data) !! q = Some ans →
  ∃ e, e ∈ data ∧ question e = q ∧ answer e = ans.
Proof.
  cbn [qa_dict init_from]. rewrite init_from_dict, lookup_empty.
  destruct (last (filter (λ e, question e = q) data)) as [e|] eqn:Hlast; [|done].
  intros [= <-]. apply last_Some_elem_of in Hlast.
  apply list_elem_of_filter in Hlast as [Hqe Hine]. by exists e.
Qed.

(** What a successful [try] body returns. *)
Lemma find_best_match_try_inr self user_question threshold r :
  find_best_match_try self user_question threshold = inr r →
  (0 <= threshold)%Q ∧ (threshold <= 1)%Q ∧
  ((r = (None, None) ∧ kept_candidates self user_question threshold = []) ∨
   ∃ best i q ans,
     nlargest1 (kept_candidates self user_question threshold) = [best] ∧
     list_index (map normalize_text (questions self)) best.2 = inr i ∧
     questions self !! i = Some q ∧
     qa_dict self !! q = Some ans ∧
     r = (Some q, Some ans)).
Proof.
  unfold find_best_match_try, mbind, mret, exn_bind, exn_ret. cbn zeta.
  destruct (get_close_matches _ _ _) as [e|matches] eqn:Hgcm; [done|].
  apply get_close_matches_inr in Hgcm as (H0 & H1 & ->).
  fold (kept_candidates self user_question threshold).
  intros Hr. split; [done|]. split; [done|].
  destruct (nlargest1 (kept_candidates self user_question threshold))
    as [|best rest] eqn:Hn.
  - left. cbn [map] in Hr. injection Hr as <-. split; [done|]. by apply nlargest1_nil.
  - right. assert (rest = []) as ->.
    { pose proof (nlargest1_length (kept_candidates self user_question threshold)) as Hl.
      rewrite Hn in Hl. destruct rest; [done|]. simpl in Hl. lia. }
    cbn [map] in Hr.
    destruct (list_index _ best.2) as [e|i] eqn:Hidx; [done|].
    unfold list_getitem in Hr.
    destruct (questions self !! i) as [q|] eqn:Hq; [|done].
    unfold dict_getitem in Hr.
    destruct (qa_dict self !! q) as [ans|] eqn:Hans; [|done].
    injection Hr as <-. by exists best, i, q, ans.
Qed.

Lemma kept_candidates_eq self user_question threshold :
  kept_candidates self user_question threshold =
  filter (λ p, ge p.1 threshold = true)
    (map (λ q, (similarity user_question q, normalize_text q)) (questions self)).
Proof.
  unfold kept_candidates. rewrite close_candidates_eq. f_equal.
  rewrite <- list_fmap_compose. done.
Qed.

Lemma kept_candidates_elem self user_question threshold q :
  q ∈ questions self → ge (similarity user_question q) threshold = true →
  (similarity user_question q, normalize_text q)
    ∈ kept_candidates self user_question threshold.
Proof.
  intros Hq Hge. rewrite kept_candidates_eq. apply list_elem_of_filter. split; [done|].
  apply list_elem_of_fmap. by exists q.
Qed.

Lemma kept_candidates_elem_inv self user_question threshold p :
  p ∈ kept_candidates self user_question threshold →
  ge p.1 threshold = true ∧
  ∃ q, q ∈ questions self ∧ p = (similarity user_question q, normalize_text q).
Proof.
  rewrite kept_candidates_eq. intros [Hge Hp]%list_elem_of_filter. split; [done|].
  apply list_elem_of_fmap in Hp as (q & -> & Hq). by exists q.
Qed.

End agent.

(** * The normalizer: second pass *)

Section normalizer_claims.
Import PyStr Re.

(** C1 (as amended). A second pass of the normalizer only strips the result of
    the first: [normalize_text (normalize_text x) = strip (normalize_text x)].
    Hence the normalizer is idempotent at [x] exactly when [normalize_text x]
    neither begins nor ends with a space, and from the second application on
    nothing changes any more. *)
Theorem normalize_text_second_pass (x : str) :
  normalize_text (normalize_text x) = strip (normalize_text x) ∧
  (normalize_text (normalize_text x) = normalize_text x ↔
     head (normalize_text x) ≠ Some " "%char ∧ last (normalize_text x) ≠ Some " "%char) ∧
  normalize_text (normalize_text (normalize_text x)) = normalize_text (normalize_text x).
Proof.
  split; [apply normalize_text_twice|]. split.
  - rewrite normalize_text_twice. split.
    + intros Hfix. apply strip_id_inv in Hfix as [Hh Hl]. split.
      * intros Hc. by specialize (Hh _ Hc).
      * intros Hc. by specialize (Hl _ Hc).
    + intros [Hh Hl]. apply strip_id.
      * intros c Hc. apply (normalize_text_head_space x c Hc). congruence.
      * intros c Hc. apply (normalize_text_last_space x c Hc). congruence.
  - rewrite (normalize_text_twice x).
    rewrite normalize_text_on_tidy.
    + apply strip_idem.
    + destruct (strip_infix (normalize_text x)) as (l & r & Heq).
      pose proof (normalize_text_clean x) as Hcl. rewrite Heq in Hcl.
      apply Forall_app in Hcl as [_ Hcl]. by apply Forall_app in Hcl as [Hcl _].
    + destruct (strip_infix (normalize_text x)) as (l & r & Heq).
      pose proof (normalize_text_tidy x) as Ht. rewrite Heq in Ht.
      apply tidy_app_r in Ht. by apply tidy_app_l in Ht.
Qed.

(** C1 as stated fails: a punctuation mark before a space survives the
    initial [strip] and leaves a leading space, which only a second pass
    removes. *)
Lemma normalize_text_not_idempotent :
  normalize_text (py "! a") = py " a" ∧
  normalize_text (normalize_text (py "! a")) = py "a" ∧
  normalize_text (normalize_text (py "! a")) ≠ normalize_text (py "! a").
Proof. split; [|split]; vm_compute; [reflexivity..|discriminate]. Qed.

End normalizer_claims.

(** * The ratio and the gestalt measure *)

Section ratio_claims.
Import Difflib Blocks GestaltSpec.

(** C2 (as amended). For every pair of strings [a], [b] with fewer than 200
    characters in [b] (the user side), the score is [2*M / (len a + len b)]
    where [M] is the total size of the blocks obtained by taking a longest
    matching block and recursing on what lies left and right of it.  When
    both strings are empty the score is 1. *)
Theorem ratio_is_gestalt_ratio (a0 b0 : str) :
  length b0 < 200 →
  ∃ M, gestalt_matches a0 b0 M ∧
       (0 < length a0 + length b0 →
        (ratio (set_seqs a0 b0) == gestalt_ratio a0 b0 M)%Q) ∧
       (length a0 + length b0 = 0 → (ratio (set_seqs a0 b0) == 1)%Q).
Proof.
  intros Hlen. exists (matches_of (get_matching_blocks (set_seqs a0 b0))).
  split; [by apply ratio_gestalt_matches|]. unfold ratio, gestalt_ratio.
  cbn [a b set_seqs]. split.
  - intros Hpos. by rewrite calculate_ratio_pos.
  - intros ->. reflexivity.
Qed.

Lemma ratio_is_gestalt_ratio_witness :
  length (normalize_text (py "Tell me about EVA")) < 200 ∧
  ∃ M, gestalt_matches (normalize_text (py "Tell me about Thoughtful AI's Agents."))
         (normalize_text (py "Tell me about EVA")) M ∧
       (similarity (py "Tell me about EVA") (py "Tell me about Thoughtful AI's Agents.")
        == gestalt_ratio (normalize_text (py "Tell me about Thoughtful AI's Agents."))
             (normalize_text (py "Tell me about EVA")) M)%Q.
Proof.
  assert (length (normalize_text (py "Tell me about EVA")) < 200) as Hlen
    by (vm_compute; lia).
  split; [exact Hlen|].
  destruct (ratio_is_gestalt_ratio
              (normalize_text (py "Tell me about Thoughtful AI's Agents."))
              (normalize_text (py "Tell me about EVA")) Hlen) as (M & HG & Hpos & _).
  exists M. split; [exact HG|]. apply Hpos. vm_compute. lia.
Defined.

(** C2 as stated fails for a long question: with 200 characters or more on the
    user side, characters that occur more than [len // 100 + 1] times are
    left out of the index, and blocks made of them are not found. *)
Lemma ratio_is_not_gestalt_ratio_on_long_question :
  let q := py "What does the eligibility verification agent (EVA) do?" in
  let user_question := replicate 200 "a"%char in
  (similarity user_question q == 0)%Q ∧
  ¬ ∃ M, gestalt_matches (normalize_text q) (normalize_text user_question) M ∧
         (similarity user_question q
          == gestalt_ratio (normalize_text q) (normalize_text user_question) M)%Q.
Proof.
  intros q user_question.
  assert (similarity user_question q == 0)%Q as Hzero by (vm_compute; reflexivity).
  split; [exact Hzero|]. intros (M & HG & Heq).
  rewrite Hzero in Heq.
  assert (length (normalize_text q) = 51) as Hla by (vm_compute; reflexivity).
  assert (length (normalize_text user_question) = 200) as Hlb by (vm_compute; reflexivity).
  assert (M = 0) as ->.
  { unfold gestalt_ratio in Heq. rewrite Hla, Hlb in Heq.
    change (Z.of_nat (51 + 200)) with 251%Z in Heq.
    unfold Qeq, Qdiv, Qmult, Qinv in Heq. cbn in Heq. lia. }
  unfold gestalt_matches in HG. rewrite Hla, Hlb in HG.
  inversion HG as [w i j [_ Hmax]|]; subst; [|lia].
  specialize (Hmax (2, 0, 1)). cbn [snd] in Hmax.
  assert (1 ≤ 0); [|lia]. apply Hmax.
  repeat split; try lia. intros t Ht. exists "a"%char.
  replace t with 0 by lia. split; vm_compute; reflexivity.
Qed.

End ratio_claims.

(** * The matcher *)

Section matcher_claims.
Import Difflib.

Lemma similarity_normalized user_question q q' :
  normalize_text q = normalize_text q' →
  similarity user_question q = similarity user_question q'.
Proof. unfold similarity. by intros ->. Qed.

(** The [try] body succeeds with a match once the steps after
    [get_close_matches] succeed. *)
Lemma find_best_match_try_some self user_question threshold best i q ans :
  (0 <= threshold)%Q → (threshold <= 1)%Q →
  nlargest1 (kept_candidates self user_question threshold) = [best] →
  list_index (map normalize_text (questions self)) best.2 = inr i →
  questions self !! i = Some q →
  qa_dict self !! q = Some ans →
  find_best_match_try self user_question threshold = inr (Some q, Some ans).
Proof.
  intros H0 H1 Hbest Hidx Hq Hans.
  unfold find_best_match_try, mbind, mret, exn_bind, exn_ret. cbn zeta.
  rewrite (get_close_matches_returns _ _ _ H0 H1).
  fold (kept_candidates self user_question threshold). rewrite Hbest. cbn [map].
  rewrite Hidx. unfold list_getitem. rewrite Hq. unfold dict_getitem. by rewrite Hans.
Qed.

Lemma find_best_match_try_none self user_question threshold :
  (0 <= threshold)%Q → (threshold <= 1)%Q →
  kept_candidates self user_question threshold = [] →
  find_best_match_try self user_question threshold = inr (None, None).
Proof.
  intros H0 H1 Hkept.
  unfold find_best_match_try, mbind, mret, exn_bind, exn_ret. cbn zeta.
  rewrite (get_close_matches_returns _ _ _ H0 H1).
  fold (kept_candidates self user_question threshold). by rewrite Hkept.
Qed.




(** C4 (as amended). When [find_best_match] returns a question, no kept
    candidate has a higher ratio, and among the kept candidates with the same
    ratio none has a normalized text that is greater in code-point order: the
    winner of a tie is the greatest normalized text, not the earliest catalog
    entry. Catalog order decides only between questions with the same
    normalized text, where the first one is returned. *)
Theorem find_best_match_tie_break self (user_question : str) (threshold : Q)
    (w w' : world) (q : str) (ans : option str) :
  find_best_match self user_question threshold w = ((Some q, ans), w') →
  q ∈ questions self ∧
  ge (similarity user_question q) threshold = true ∧
  (∀ q', q' ∈ questions self → ge (similarity user_question q') threshold = true →
     (similarity user_question q' < similarity user_question q)%Q ∨
     ((similarity user_question q' == similarity user_question q)%Q ∧
      PyStr.gt (normalize_text q') (normalize_text q) = false)) ∧
  ∃ i, questions self !! i = Some q ∧
       ∀ i' q', i' < i → questions self !! i' = Some q' →
                normalize_text q' ≠ normalize_text q.
Proof.
  unfold find_best_match.
  destruct (find_best_match_try self user_question threshold) as [e|r] eqn:Htry; [done|].
  intros [= -> _].
  apply find_best_match_try_inr in Htry as (H0 & H1 & [[? _]|Hsome]); [done|].
  destruct Hsome as (best & i & q0 & ans0 & Hbest & Hidx & Hq & Hans & [= <- _]).
  apply nlargest1_spec in Hbest as [Hin Hmax].
  apply kept_candidates_elem_inv in Hin as (Hge & qb & Hqb & ->). cbn [fst snd] in *.
  apply list_index_spec in Hidx as [Hlook Hfirst].
  rewrite list_lookup_fmap, Hq in Hlook. injection Hlook as Hnorm.
  rewrite <- (similarity_normalized user_question _ _ Hnorm) in *.
  split; [by eapply list_elem_of_lookup_2|]. split; [done|]. split.
  - intros q' Hq' Hge'.
    specialize (Hmax _ (kept_candidates_elem _ _ _ _ Hq' Hge')).
    apply tuple_gt_false in Hmax. cbn [fst snd] in Hmax. by rewrite Hnorm.
  - exists i. split; [done|]. intros i' q' Hi' Hq'' Heq.
    apply (Hfirst i' Hi'). rewrite list_lookup_fmap, Hq''. cbn. congruence.
Qed.

Lemma find_best_match_tie_break_witness :
  find_best_match __init__ (py "using thoughtful") default_threshold world0
  = ((Some (py "What are the benefits of using Thoughtful AI's agents?"),
      Some (py "Using Thoughtful AI's Agents can significantly reduce administrative costs, improve operational efficiency, and reduce errors in critical processes like claims management and payment posting.")),
     enter_matcher (py "using thoughtful") default_threshold world0) ∧
  PyStr.gt (normalize_text (py "Tell me about Thoughtful AI's Agents."))
    (normalize_text (py "What are the benefits of using Thoughtful AI's agents?")) = false.
Proof.
  assert (find_best_match __init__ (py "using thoughtful") default_threshold world0
          = ((Some (py "What are the benefits of using Thoughtful AI's agents?"),
              Some (py "Using Thoughtful AI's Agents can significantly reduce administrative costs, improve operational efficiency, and reduce errors in critical processes like claims management and payment posting.")),
             enter_matcher (py "using thoughtful") default_threshold world0)) as Hrun
    by (vm_compute; reflexivity).
  split; [exact Hrun|].
  destruct (find_best_match_tie_break _ _ _ _ _ _ _ Hrun) as (_ & _ & Hmax & _).
  destruct (Hmax (py "Tell me about Thoughtful AI's Agents.")) as [Hlt|[_ Hgt]].
  - apply (bool_decide_unpack _). vm_compute. exact I.
  - vm_compute. reflexivity.
  - exfalso. revert Hlt. vm_compute. discriminate.
  - exact Hgt.
Defined.

(** C4 as stated fails on the embedded catalog: for "using thoughtful" the
    fourth and the fifth question both score 8/17, the highest ratio, and the
    fifth is returned. *)
Lemma tie_goes_to_the_later_question :
  let user_question := py "using thoughtful" in
  let q4 := py "Tell me about Thoughtful AI's Agents." in
  let q5 := py "What are the benefits of using Thoughtful AI's agents?" in
  questions __init__ !! 3 = Some q4 ∧
  questions __init__ !! 4 = Some q5 ∧
  (similarity user_question q4 == similarity user_question q5)%Q ∧
  (default_threshold <= similarity user_question q4)%Q ∧
  Forall (λ q, (similarity user_question q <= similarity user_question q4)%Q)
    (questions __init__) ∧
  (find_best_match __init__ user_question default_threshold world0).1.1 = Some q5 ∧
  q5 ≠ q4.
Proof.
  intros user_question q4 q5.
  split; [reflexivity|]. split; [reflexivity|].
  split; [vm_compute; reflexivity|]. split; [vm_compute; discriminate|].
  split; [|split; [vm_compute; reflexivity|vm_compute; discriminate]].
  repeat constructor; vm_compute; discriminate.
Qed.

End matcher_claims.

(** * Results, failures and thresholds *)

Section result_claims.
Import Difflib.

(** The pair [find_best_match] returns is [(None, None)] or holds the
    original text of a catalog question together with the answer stored for
    that question. *)
Lemma find_best_match_pair (data : list QAEntry) (user_question : str)
    (threshold : Q) (w : world) :
  (find_best_match (init_from data) user_question threshold w).1 = (None, None) ∨
  ∃ e, e ∈ data ∧
       (find_best_match (init_from data) user_question threshold w).1
       = (Some (question e), Some (answer e)) ∧
       qa_dict (init_from data) !! question e = Some (answer e).
Proof.
  unfold find_best_match.
  destruct (find_best_match_try (init_from data) user_question threshold)
    as [e|r] eqn:Htry; [by left|].
  apply find_best_match_try_inr in Htry as (_ & _ & [[-> _]|Hsome]); [by left|].
  destruct Hsome as (best & i & q & ans & _ & _ & _ & Hans & ->).
  right. destruct (init_from_lookup_inv _ _ _ Hans) as (e & He & <- & <-).
  by exists e.
Qed.

Lemma length_FALLBACK_RESPONSES : length FALLBACK_RESPONSES = 3.
Proof. reflexivity. Qed.

Lemma random_choice_FALLBACK_RESPONSES w :
  ∃ r, random_choice FALLBACK_RESPONSES w
       = (inr r, (randbelow (length FALLBACK_RESPONSES) w).2) ∧
       FALLBACK_RESPONSES !! (random_tape w (random_drawn w)
                              `mod` length FALLBACK_RESPONSES) = Some r.
Proof.
  unfold random_choice.
  destruct FALLBACK_RESPONSES as [|f0 rest] eqn:Hf; [done|]. rewrite <- Hf.
  unfold randbelow, list_getitem. cbn [fst snd].
  destruct (lookup_lt_is_Some_2 FALLBACK_RESPONSES
              (random_tape w (random_drawn w) `mod` length FALLBACK_RESPONSES))
    as [r Hr].
  { apply Nat.mod_upper_bound. by rewrite length_FALLBACK_RESPONSES. }
  exists r. by rewrite Hr.
Qed.

(** [get_response] always returns a string. *)
Lemma get_response_returns self user_question w :
  ∃ r w', get_response self user_question w = (inr r, w').
Proof.
  unfold get_response.
  destruct (negb _ || negb _); [by eexists _, _|].
  destruct (find_best_match self user_question default_threshold w)
    as [[matched_question answer] w1].
  destruct answer as [ans|].
  - destruct (truthy (Some ans)); [by eexists _, _|].
    destruct (random_choice_FALLBACK_RESPONSES w1) as (r & -> & _). by eexists _, _.
  - destruct (random_choice_FALLBACK_RESPONSES w1) as (r & -> & _). by eexists _, _.
Qed.

(** C6. An exception raised in the [try] of [find_best_match] is caught there:
    the call returns [(None, None)], the exception goes to [st.error] and
    nowhere else, and [get_response] still returns a string. *)
Theorem find_best_match_catches self (user_question : str) (threshold : Q)
    (w : world) (e : exn) :
  find_best_match_try self user_question threshold = inl e →
  find_best_match self user_question threshold w
  = ((None, None), st_error e (enter_matcher user_question threshold w)) ∧
  st_errors (find_best_match self user_question threshold w).2 = st_errors w ++ [e] ∧
  ∀ user_question' w0, ∃ r w', get_response self user_question' w0 = (inr r, w').
Proof.
  intros Htry. unfold find_best_match. rewrite Htry. split; [done|]. split; [done|].
  intros. apply get_response_returns.
Qed.

Lemma find_best_match_catches_witness :
  find_best_match_try __init__ (py "What does EVA do?") (3 # 2)
  = inl (ValueError_cutoff (3 # 2)) ∧
  find_best_match __init__ (py "What does EVA do?") (3 # 2) world0
  = ((None, None),
     st_error (ValueError_cutoff (3 # 2))
       (enter_matcher (py "What does EVA do?") (3 # 2) world0)).
Proof.
  assert (find_best_match_try __init__ (py "What does EVA do?") (3 # 2)
          = inl (ValueError_cutoff (3 # 2))) as Htry by (vm_compute; reflexivity).
  split; [exact Htry|].
  exact (proj1 (find_best_match_catches __init__ (py "What does EVA do?") (3 # 2)
                  world0 _ Htry)).
Defined.

Lemma strip_all_space s : Forall (λ c, PyStr.isspace c = true) s → PyStr.strip s = [].
Proof.
  intros Hs. unfold PyStr.strip.
  assert (PyStr.lstrip s = []) as ->; [|done].
  induction Hs as [|c r Hc _ IH]; simpl; [done|]. by rewrite Hc.
Qed.

(** C7. On an empty or whitespace-only question [get_response] returns the
    fixed prompt, which is not a fallback string, and leaves the world as it
    was: the matcher is not entered, nothing is logged, nothing is drawn. *)
Theorem get_response_blank self (user_question : str) (w : world) :
  Forall (λ c, PyStr.isspace c = true) user_question →
  get_response self user_question w = (inr PROMPT, w) ∧
  matcher_calls (get_response self user_question w).2 = matcher_calls w ∧
  PROMPT ∉ FALLBACK_RESPONSES.
Proof.
  intros Hblank. unfold get_response.
  rewrite (strip_all_space _ Hblank). cbn [truthy negb]. rewrite orb_true_r.
  split; [done|]. split; [done|].
  apply (bool_decide_unpack _). vm_compute. exact I.
Qed.

Lemma get_response_blank_witness :
  Forall (λ c, PyStr.isspace c = true) (py "   ") ∧
  get_response __init__ (py "   ") world0 = (inr PROMPT, world0) ∧
  get_response __init__ (py "") world0 = (inr PROMPT, world0).
Proof.
  assert (Forall (λ c, PyStr.isspace c = true) (py "   ")) as Hblank
    by (repeat constructor).
  split; [exact Hblank|]. split.
  - exact (proj1 (get_response_blank __init__ (py "   ") world0 Hblank)).
  - exact (proj1 (get_response_blank __init__ (py "") world0 (Forall_nil_2 _))).
Defined.

(** C8 (as amended). For thresholds [0 <= t1 <= t2], a match at [t2] is a
    match at [t1]: raising a threshold inside the admitted range can lose a
    match and never creates one. *)
Theorem threshold_monotone (data : list QAEntry) (user_question : str) (t1 t2 : Q)
    (w1 w2 : world) :
  (0 <= t1)%Q → (t1 <= t2)%Q →
  is_Some (find_best_match (init_from data) user_question t2 w2).1.1 →
  is_Some (find_best_match (init_from data) user_question t1 w1).1.1.
Proof.
  intros H0 H12. unfold find_best_match.
  destruct (find_best_match_try (init_from data) user_question t2) as [e|r2] eqn:Htry2;
    [by intros [? ?]|].
  apply find_best_match_try_inr in Htry2 as (_ & H21 & [[-> _]|Hsome]);
    [by intros [? ?]|].
  intros _.
  destruct Hsome as (best2 & _ & _ & _ & Hbest2 & _).
  apply nlargest1_spec in Hbest2 as [Hin2 _].
  apply kept_candidates_elem_inv in Hin2 as (Hge2 & qb & Hqb & ->). cbn [fst] in Hge2.
  assert (t1 <= 1)%Q as H11 by (eapply Qle_trans; [exact H12|exact H21]).
  assert ((similarity user_question qb, normalize_text qb)
            ∈ kept_candidates (init_from data) user_question t1) as Hin1.
  { apply kept_candidates_elem; [done|]. apply ge_true. apply ge_true in Hge2.
    eapply Qle_trans; [exact H12|exact Hge2]. }
  destruct (nlargest1 (kept_candidates (init_from data) user_question t1))
    as [|best1 rest] eqn:Hn1.
  { apply (proj1 (nlargest1_nil _)) in Hn1. rewrite Hn1 in Hin1.
    by apply elem_of_nil in Hin1. }
  assert (rest = []) as ->.
  { pose proof (nlargest1_length (kept_candidates (init_from data) user_question t1)) as Hl.
    rewrite Hn1 in Hl. destruct rest; [done|]. simpl in Hl. lia. }
  pose proof Hn1 as Hbest1. apply nlargest1_spec in Hbest1 as [Hb1 _].
  apply kept_candidates_elem_inv in Hb1 as (_ & q1 & Hq1 & ->).
  destruct (list_index_elem (map normalize_text (questions (init_from data)))
              (normalize_text q1)) as [i Hidx].
  { apply list_elem_of_fmap. by exists q1. }
  pose proof Hidx as Hlook. apply list_index_spec in Hlook as [Hlook _].
  rewrite list_lookup_fmap in Hlook.
  destruct (questions (init_from data) !! i) as [q|] eqn:Hq; [|done].
  destruct (init_from_lookup data q) as (e & _ & _ & Hans);
    [by eapply list_elem_of_lookup_2|].
  rewrite (find_best_match_try_some _ _ _ _ _ _ _ H0 H11 Hn1 Hidx Hq Hans).
  by eexists.
Qed.

Lemma threshold_monotone_witness :
  (0 <= 1 # 10)%Q ∧ (1 # 10 <= default_threshold)%Q ∧
  is_Some (find_best_match __init__ (py "Tell me about EVA") default_threshold world0).1.1 ∧
  is_Some (find_best_match __init__ (py "Tell me about EVA") (1 # 10) world0).1.1.
Proof.
  assert (0 <= 1 # 10)%Q as H0 by (vm_compute; discriminate).
  assert (1 # 10 <= default_threshold)%Q as H12 by (vm_compute; discriminate).
  assert (is_Some (find_best_match __init__ (py "Tell me about EVA")
                     default_threshold world0).1.1) as H2
    by (vm_compute; eexists; reflexivity).
  split; [exact H0|]. split; [exact H12|]. split; [exact H2|].
  exact (threshold_monotone THOUGHTFUL_AI_DATA (py "Tell me about EVA") (1 # 10)
           default_threshold world0 world0 H0 H12 H2).
Defined.

(** C8 as stated fails when the lower threshold is negative: threshold 0
    matches, threshold -1/10 makes [get_close_matches] raise. *)
Lemma lower_threshold_loses_match :
  (-1 # 10 <= 0)%Q ∧
  is_Some (find_best_match __init__ (py "Tell me about EVA") 0 world0).1.1 ∧
  (find_best_match __init__ (py "Tell me about EVA") (-1 # 10) world0).1 = (None, None).
Proof.
  split; [vm_compute; discriminate|]. split.
  - vm_compute. eexists. reflexivity.
  - vm_compute. reflexivity.
Qed.

End result_claims.

(** * The responder *)

Section responder_claims.
Import Difflib.

Lemma strip_nonempty user_question :
  PyStr.strip user_question ≠ [] →
  negb (truthy (Some user_question)) || negb (truthy (Some (PyStr.strip user_question)))
  = false.
Proof.
  intros Hs. destruct user_question as [|c r]; [done|].
  destruct (PyStr.strip (c :: r)); done.
Qed.

Lemma find_best_match_world self user_question threshold w :
  random_tape (find_best_match self user_question threshold w).2 = random_tape w ∧
  random_drawn (find_best_match self user_question threshold w).2 = random_drawn w.
Proof.
  unfold find_best_match.
  by destruct (find_best_match_try self user_question threshold).
Qed.

Lemma find_best_match_result_world self user_question threshold w w' :
  (find_best_match self user_question threshold w).1
  = (find_best_match self user_question threshold w').1.
Proof.
  unfold find_best_match.
  by destruct (find_best_match_try self user_question threshold).
Qed.

Lemma NoDup_FALLBACK_RESPONSES : NoDup FALLBACK_RESPONSES.
Proof. apply (bool_decide_unpack _). vm_compute. exact I. Qed.

(** The run of [get_response] on a question that is not blank and finds no
    match. *)
Lemma get_response_no_match_run self user_question w :
  PyStr.strip user_question ≠ [] →
  (find_best_match self user_question default_threshold w).1 = (None, None) →
  ∃ r w', get_response self user_question w = (inr r, w') ∧
          FALLBACK_RESPONSES !! (random_tape w (random_drawn w)
                                 `mod` length FALLBACK_RESPONSES) = Some r ∧
          random_tape w' = random_tape w ∧
          random_drawn w' = S (random_drawn w).
Proof.
  intros Hs Hnone. unfold get_response. rewrite (strip_nonempty _ Hs).
  destruct (find_best_match_world self user_question default_threshold w) as [Ht Hd].
  destruct (find_best_match self user_question default_threshold w)
    as [[matched_question answer] w1].
  cbn [fst snd] in *. injection Hnone as -> ->.
  destruct (random_choice_FALLBACK_RESPONSES w1) as (r & -> & Hr).
  rewrite Ht, Hd in Hr.
  exists r, (randbelow (length FALLBACK_RESPONSES) w1).2.
  split; [done|]. split; [done|]. cbn. by rewrite Ht, Hd.
Qed.

Lemma filter_length_ext (f g : nat → bool) l :
  (∀ k, k ∈ l → f k = g k) →
  length (filter (λ k, f k = true) l) = length (filter (λ k, g k = true) l).
Proof.
  induction l as [|k l IH]; intros Hfg; [done|].
  assert (f k = g k) as Hk by (apply Hfg, list_elem_of_here).
  assert (length (filter (λ k, f k = true) l) = length (filter (λ k, g k = true) l)) as Hl
    by (apply IH; intros k' Hk'; by apply Hfg, list_elem_of_further).
  destruct (g k) eqn:Hg.
  - rewrite !filter_cons_True by congruence. cbn [length]. by rewrite Hl.
  - rewrite !filter_cons_False by congruence. done.
Qed.

Lemma probability_ext n f g :
  (∀ k, k < n → f k = g k) → probability n f = probability n g.
Proof.
  intros Hfg. unfold probability. rewrite (filter_length_ext f g); [done|].
  intros k Hk. apply Hfg. apply elem_of_seq in Hk. lia.
Qed.

(** The response as a function of the next draw. *)
Lemma responds_draw self user_question w r k :
  PyStr.strip user_question ≠ [] →
  (find_best_match self user_question default_threshold w).1 = (None, None) →
  k < length FALLBACK_RESPONSES →
  responds self user_question w r k = bool_decide (FALLBACK_RESPONSES !! k = Some r).
Proof.
  intros Hs Hnone Hk. unfold responds.
  destruct (get_response_no_match_run self user_question (next_draw k w) Hs)
    as (r' & w' & -> & Hr' & _).
  { by rewrite (find_best_match_result_world _ _ _ _ w). }
  cbn [fst next_draw random_tape random_drawn] in *.
  rewrite decide_True in Hr' by done. rewrite Nat.mod_small in Hr' by done.
  rewrite Hr'. apply bool_decide_ext. split; [by intros ->|by intros [= ->]].
Qed.

(** C9 (as amended). On a question that is neither empty nor whitespace-only
    and for which the matcher reports no match, [get_response] returns
    verbatim the entry of [FALLBACK_RESPONSES] whose position is the number
    [random.choice] draws. The choice is uniform: the three entries are
    distinct and each is the response for exactly one of the three equally
    likely draws, so each is returned with probability 1/3 and nothing else
    is returned. It is not deterministic across calls: the response is not
    fixed by the question, since different draws give different responses;
    the next call with the same question uses the next draw, and the two
    responses are equal only if the two draws are. *)
Theorem get_response_fallback self (user_question : str) (w : world) :
  PyStr.strip user_question ≠ [] →
  (find_best_match self user_question default_threshold w).1 = (None, None) →
  (∃ r w', get_response self user_question w = (inr r, w') ∧
           FALLBACK_RESPONSES !! (random_tape w (random_drawn w)
                                  `mod` length FALLBACK_RESPONSES) = Some r ∧
           r ∈ FALLBACK_RESPONSES ∧
           random_drawn w' = S (random_drawn w)) ∧
  (∀ r, r ∈ FALLBACK_RESPONSES →
        (probability (length FALLBACK_RESPONSES) (responds self user_question w r)
         == 1 # 3)%Q) ∧
  (∀ r, r ∉ FALLBACK_RESPONSES →
        (probability (length FALLBACK_RESPONSES) (responds self user_question w r)
         == 0)%Q) ∧
  (∀ k1 k2, k1 < length FALLBACK_RESPONSES → k2 < length FALLBACK_RESPONSES → k1 ≠ k2 →
     (get_response self user_question (next_draw k1 w)).1
     ≠ (get_response self user_question (next_draw k2 w)).1) ∧
  (∀ r1 w1 r2 w2,
     get_response self user_question w = (inr r1, w1) →
     get_response self user_question w1 = (inr r2, w2) →
     (r1 = r2 ↔
      random_tape w (random_drawn w) `mod` length FALLBACK_RESPONSES
      = random_tape w (S (random_drawn w)) `mod` length FALLBACK_RESPONSES)) ∧
  NoDup FALLBACK_RESPONSES ∧ length FALLBACK_RESPONSES = 3.
Proof.
  intros Hs Hnone.
  split; [|split; [|split; [|split; [|split; [|split; [apply NoDup_FALLBACK_RESPONSES|done]]]]]].
  - destruct (get_response_no_match_run self user_question w Hs Hnone)
      as (r & w' & Hrun & Hr & _ & Hd).
    exists r, w'. split; [done|]. split; [done|].
    split; [by eapply list_elem_of_lookup_2|done].
  - intros r Hr.
    rewrite (probability_ext _ _ (λ k, bool_decide (FALLBACK_RESPONSES !! k = Some r)))
      by (intros k Hk; by apply responds_draw).
    unfold FALLBACK_RESPONSES in Hr.
    apply elem_of_cons in Hr as [->|Hr]; [vm_compute; reflexivity|].
    apply elem_of_cons in Hr as [->|Hr]; [vm_compute; reflexivity|].
    apply elem_of_cons in Hr as [->|Hr]; [vm_compute; reflexivity|].
    by apply elem_of_nil in Hr.
  - intros r Hr.
    rewrite (probability_ext _ _ (λ _, false)); [vm_compute; reflexivity|].
    intros k Hk. rewrite responds_draw by done. apply bool_decide_eq_false_2.
    intros Hk'. apply Hr. by eapply list_elem_of_lookup_2.
  - intros k1 k2 Hk1 Hk2 Hne Heq.
    destruct (get_response_no_match_run self user_question (next_draw k1 w) Hs)
      as (r1 & w1 & Hrun1 & Hr1 & _);
      [by rewrite (find_best_match_result_world _ _ _ _ w)|].
    destruct (get_response_no_match_run self user_question (next_draw k2 w) Hs)
      as (r2 & w2 & Hrun2 & Hr2 & _);
      [by rewrite (find_best_match_result_world _ _ _ _ w)|].
    rewrite Hrun1, Hrun2 in Heq. cbn [fst] in Heq. injection Heq as <-.
    cbn [next_draw random_tape random_drawn] in Hr1, Hr2.
    rewrite decide_True, Nat.mod_small in Hr1 by done.
    rewrite decide_True, Nat.mod_small in Hr2 by done.
    apply Hne. by eapply (NoDup_lookup FALLBACK_RESPONSES), Hr2;
      [apply NoDup_FALLBACK_RESPONSES|].
  - intros r1 w1 r2 w2 Hrun1 Hrun2.
    destruct (get_response_no_match_run self user_question w Hs Hnone)
      as (r & w' & Hrun & Hr1 & Ht & Hd).
    rewrite Hrun1 in Hrun. injection Hrun as <- <-.
    destruct (get_response_no_match_run self user_question w1 Hs)
      as (r & w' & Hrun & Hr2 & _).
    { by rewrite (find_best_match_result_world _ _ _ _ w). }
    rewrite Hrun2 in Hrun. injection Hrun as <- <-.
    rewrite Ht, Hd in Hr2. split.
    + intros <-. by eapply (NoDup_lookup FALLBACK_RESPONSES), Hr2;
        [apply NoDup_FALLBACK_RESPONSES|].
    + intros Heq. rewrite Heq in Hr1. congruence.
Qed.

Lemma get_response_fallback_witness :
  PyStr.strip (py "Is it raining?") ≠ [] ∧
  (find_best_match __init__ (py "Is it raining?") default_threshold world0).1
  = (None, None) ∧
  ∃ r1 w1 r2 w2,
    get_response __init__ (py "Is it raining?") world0 = (inr r1, w1) ∧
    get_response __init__ (py "Is it raining?") w1 = (inr r2, w2) ∧
    FALLBACK_RESPONSES !! 0 = Some r1 ∧
    r1 ≠ r2 ∧
    (probability (length FALLBACK_RESPONSES)
       (responds __init__ (py "Is it raining?") world0 r1) == 1 # 3)%Q.
Proof.
  assert (PyStr.strip (py "Is it raining?") ≠ []) as Hs by (vm_compute; discriminate).
  assert ((find_best_match __init__ (py "Is it raining?") default_threshold world0).1
          = (None, None)) as Hnone by (vm_compute; reflexivity).
  split; [exact Hs|]. split; [exact Hnone|].
  destruct (get_response_fallback __init__ (py "Is it raining?") world0 Hs Hnone)
    as [(r1 & w1 & Hrun1 & Hr1 & Hin & _) [Hprob [_ [_ [Hcalls _]]]]].
  destruct (get_response_returns __init__ (py "Is it raining?") w1) as (r2 & w2 & Hrun2).
  exists r1, w1, r2, w2. split; [exact Hrun1|]. split; [exact Hrun2|].
  split; [exact Hr1|]. split; [|exact (Hprob r1 Hin)].
  intros Heq. apply (Hcalls r1 w1 r2 w2 Hrun1 Hrun2) in Heq.
  vm_compute in Heq. discriminate Heq.
Defined.

(** C9 as stated fails on a question that is not empty but holds only
    whitespace: the matcher would report no match for it, and [get_response]
    returns the prompt, which is not a fallback string. *)
Lemma whitespace_question_gets_prompt :
  py "   " ≠ [] ∧
  (find_best_match __init__ (py "   ") default_threshold world0).1 = (None, None) ∧
  get_response __init__ (py "   ") world0 = (inr PROMPT, world0) ∧
  PROMPT ∉ FALLBACK_RESPONSES.
Proof.
  split; [vm_compute; discriminate|]. split; [vm_compute; reflexivity|].
  split; [vm_compute; reflexivity|].
  apply (bool_decide_unpack _). vm_compute. exact I.
Qed.

Lemma get_response_match self user_question w q ans :
  PyStr.strip user_question ≠ [] →
  find_best_match_try self user_question default_threshold = inr (Some q, Some ans) →
  ans ≠ [] →
  get_response self user_question w
  = (inr ans, enter_matcher user_question default_threshold w).
Proof.
  intros Hs Htry Hans. unfold get_response, find_best_match.
  rewrite (strip_nonempty _ Hs), Htry. by destruct ans.
Qed.

(** C10. Asked a catalog question verbatim, [get_response] returns the answer
    stored for it: the question scores 1 against itself, passes the default
    threshold, and its answer is not empty. *)
Theorem exact_question_round_trip :
  Forall (λ e,
            (similarity (question e) (question e) == 1)%Q ∧
            (default_threshold <= similarity (question e) (question e))%Q ∧
            answer e ≠ [] ∧
            ∀ w, get_response __init__ (question e) w
                 = (inr (answer e), enter_matcher (question e) default_threshold w))
         THOUGHTFUL_AI_DATA.
Proof.
  repeat constructor; try (vm_compute; (reflexivity || discriminate));
    intros w; apply (get_response_match _ _ _ (question _));
    vm_compute; (reflexivity || discriminate).
Qed.

End responder_claims.

(** * Further properties of the normalizer *)

Section normalizer_more.
Import PyStr Re.

Lemma tidy_no_double_space in_run s i :
  tidy in_run s → s !! i = Some " "%char → s !! S i ≠ Some " "%char.
Proof.
  revert in_run i. induction s as [|c r IH]; intros in_run i; [done|].
  cbn [tidy]. destruct i as [|i]; simpl.
  - intros Ht [= ->]. rewrite isspace_space in Ht. destruct Ht as (_ & _ & Hr).
    destruct r as [|d r]; [done|]. simpl. intros [= ->].
    cbn [tidy] in Hr. rewrite isspace_space in Hr. by destruct Hr as (_ & ? & _).
  - intros Ht. destruct (isspace c); [destruct Ht as (_ & _ & Ht)|]; by eapply IH.
Qed.

(** X1. What a normalized text looks like: every character is a space or a word
    character in its lowercase form (so no punctuation, no capital, no tab or
    newline survives), and no two spaces are adjacent. *)
Theorem normalize_text_shape (x : str) :
  (∀ c, c ∈ normalize_text x →
        c = " "%char ∨ (isword c = true ∧ isspace c = false ∧ lower_char c = c)) ∧
  (∀ i, normalize_text x !! i = Some " "%char → normalize_text x !! S i ≠ Some " "%char).
Proof.
  split.
  - intros c Hc. pose proof (normalize_text_clean x) as Hcl.
    rewrite list.Forall_forall in Hcl. destruct (Hcl c Hc) as [->|[Hw Hl]]; [by left|].
    right. split; [done|]. split; [by apply isword_not_isspace|done].
  - intros i. apply (tidy_no_double_space false). apply normalize_text_tidy.
Qed.

Lemma lower_idem s : lower (lower s) = lower s.
Proof.
  unfold lower. rewrite <- list_fmap_compose. apply list_fmap_ext.
  intros i c _. apply lower_char_idem.
Qed.

Lemma lstrip_app_nonspace s t :
  (∃ c, c ∈ s ∧ isspace c = false) → lstrip (s ++ t) = lstrip s ++ t.
Proof.
  induction s as [|d s IH]; intros (c & Hc & Hsp); [by apply elem_of_nil in Hc|].
  simpl. destruct (isspace d) eqn:Hd; [|done].
  apply IH. apply elem_of_cons in Hc as [->|Hc]; [congruence|]. by exists c.
Qed.

Lemma lstrip_all_space s : Forall (λ c, isspace c = true) s → lstrip s = [].
Proof. induction 1 as [|c r Hc _ IH]; simpl; [done|]. by rewrite Hc. Qed.

Lemma all_space_or_not s :
  Forall (λ c, isspace c = true) s ∨ ∃ c, c ∈ s ∧ isspace c = false.
Proof.
  induction s as [|d s [IH|(c & Hc & Hsp)]].
  - left. constructor.
  - destruct (isspace d) eqn:Hd.
    + left. by constructor.
    + right. exists d. split; [apply list_elem_of_here|done].
  - right. exists c. split; [by apply list_elem_of_further|done].
Qed.

(** Punctuation appended to a question that does not end in whitespace is
    ignored by the normalizer. *)
Lemma normalize_text_trailing_punctuation x p :
  Forall (λ c, isword c = false ∧ isspace c = false) p →
  (∀ c, last x = Some c → isspace c = false) →
  normalize_text (x ++ p) = normalize_text x.
Proof.
  intros Hp Hlast. unfold normalize_text. rewrite !lower_strip. f_equal.
  assert (sub_nonword_nonspace (lower p) = []) as Hfp.
  { unfold sub_nonword_nonspace, lower. clear Hlast.
    induction Hp as [|c r [Hw Hs] _ IH]; [done|]. cbn [map].
    rewrite filter_cons_False; [done|].
    rewrite isword_lower_char, isspace_lower_char, Hw, Hs. done. }
  assert (∀ s, sub_nonword_nonspace (lower (s ++ p)) = sub_nonword_nonspace (lower s))
    as Hdrop.
  { intros s. unfold sub_nonword_nonspace, lower in *.
    by rewrite map_app, filter_app, Hfp, app_nil_r. }
  destruct p as [|p0 p'] eqn:Hpe; [by rewrite app_nil_r|]. rewrite <- Hpe in *.
  assert (∀ c, last p = Some c → isspace c = false) as Hplast.
  { intros c Hc. apply last_Some_elem_of in Hc.
    rewrite list.Forall_forall in Hp. by destruct (Hp c Hc). }
  assert (p ≠ []) as Hpne by (by rewrite Hpe).
  unfold strip. destruct (all_space_or_not x) as [Hall|Hsome].
  - destruct x as [|x0 x'] eqn:Hx.
    + cbn [app]. change (rstrip (lstrip [])) with (@nil ascii).
      rewrite lstrip_id.
      * rewrite rstrip_id by done. rewrite <- (app_nil_l p) at 1. by rewrite Hdrop.
      * intros c Hc. apply head_Some_elem_of in Hc.
        rewrite list.Forall_forall in Hp. by destruct (Hp c Hc).
    + exfalso. rewrite <- Hx in *.
      destruct (last x) as [c|] eqn:Hl.
      * specialize (Hlast c eq_refl). apply last_Some_elem_of in Hl.
        rewrite list.Forall_forall in Hall. specialize (Hall c Hl). congruence.
      * apply last_None in Hl. congruence.
  - rewrite lstrip_app_nonspace by done.
    rewrite (rstrip_id (lstrip x ++ p)).
    + rewrite Hdrop. f_equal. f_equal. symmetry. apply rstrip_id.
      intros c Hc. apply Hlast.
      destruct (lstrip_suffix x) as (ws & Heq & _). rewrite Heq at 1.
      rewrite last_app. by rewrite Hc.
    + intros c. rewrite last_app. destruct (last p) as [d|] eqn:Hd.
      * intros [= <-]. by apply Hplast.
      * apply last_None in Hd. done.
Qed.

End normalizer_more.

(** * Further properties of the matcher *)

Section matcher_more.
Import Difflib Blocks Counting.

Lemma find_best_match_try_normalized self x y threshold :
  normalize_text x = normalize_text y →
  find_best_match_try self x threshold = find_best_match_try self y threshold.
Proof. unfold find_best_match_try. by intros ->. Qed.

Lemma normalize_text_lower x y :
  PyStr.lower x = PyStr.lower y → normalize_text x = normalize_text y.
Proof. unfold normalize_text. by intros ->. Qed.

(** X2. The matcher does not see the case of the question nor punctuation
    appended to it: two questions that differ only in case, one of them
    followed by punctuation marks, get the same result. The question must not
    end in whitespace before the marks. *)
Theorem find_best_match_ignores_case_and_trailing_punctuation
    self (x y p : str) (threshold : Q) (w : world) :
  PyStr.lower x = PyStr.lower y →
  Forall (λ c, Re.isword c = false ∧ PyStr.isspace c = false) p →
  (∀ c, last x = Some c → PyStr.isspace c = false) →
  (find_best_match self (x ++ p) threshold w).1 = (find_best_match self y threshold w).1.
Proof.
  intros Hcase Hp Hlast. unfold find_best_match.
  rewrite (find_best_match_try_normalized self (x ++ p) y).
  - by destruct (find_best_match_try self y threshold).
  - rewrite (normalize_text_trailing_punctuation x p Hp Hlast).
    by apply normalize_text_lower.
Qed.

Lemma find_best_match_ignores_case_and_trailing_punctuation_witness :
  (find_best_match __init__ (py "HOW DOES PHIL WORK" ++ py "?!") default_threshold world0).1
  = (find_best_match __init__ (py "how does phil work") default_threshold world0).1.
Proof.
  apply (find_best_match_ignores_case_and_trailing_punctuation __init__
           (py "HOW DOES PHIL WORK") (py "how does phil work") (py "?!")).
  - vm_compute. reflexivity.
  - repeat constructor.
  - intros c. vm_compute. by intros [= <-].
Defined.

Lemma calculate_ratio_bounds m n :
  2 * m ≤ n → (0 <= _calculate_ratio m n)%Q ∧ (_calculate_ratio m n <= 1)%Q.
Proof.
  intros Hm. destruct n as [|n]; [split; vm_compute; discriminate|].
  cbn [_calculate_ratio]. split.
  - apply Qle_shift_div_l.
    + change 0%Q with (inject_Z 0). rewrite <- Zlt_Qlt. lia.
    + rewrite Qmult_0_l. change 2%Q with (inject_Z 2). rewrite <- inject_Z_mult.
      change 0%Q with (inject_Z 0). rewrite <- Zle_Qle. lia.
  - apply Qle_shift_div_r.
    + change 0%Q with (inject_Z 0). rewrite <- Zlt_Qlt. lia.
    + rewrite Qmult_1_l. change 2%Q with (inject_Z 2). rewrite <- inject_Z_mult.
      rewrite <- Zle_Qle. lia.
Qed.

Lemma matches_le_lengths s :
  b2j_ok s →
  matches_of (get_matching_blocks s) ≤ length (a s) ∧
  matches_of (get_matching_blocks s) ≤ length (b s).
Proof.
  intros Hok. pose proof (matches_le_common s Hok).
  pose proof (common_count_le_l (a s) (b s)).
  pose proof (common_count_le_r (a s) (b s)). lia.
Qed.

Lemma similarity_between_0_and_1_aux user_question q :
  (0 <= similarity user_question q)%Q ∧ (similarity user_question q <= 1)%Q.
Proof.
  unfold similarity, ratio. apply calculate_ratio_bounds.
  destruct (matches_le_lengths (set_seqs (normalize_text q) (normalize_text user_question))
              (chain_b_ok _ _)). lia.
Qed.

(** X3. The score of a catalog question is a number between 0 and 1: the blocks
    pair characters of the shorter text with characters of the longer one,
    each at most once. *)
Theorem similarity_between_0_and_1 (user_question q : str) :
  (0 <= similarity user_question q)%Q ∧ (similarity user_question q <= 1)%Q.
Proof. apply similarity_between_0_and_1_aux. Qed.

End matcher_more.

(** * Scores that cannot reach the threshold *)

Section low_scores.
Import Difflib Blocks Counting.

Lemma cnt_pos_elem c l : 0 < cnt c l → c ∈ l.
Proof.
  unfold cnt. intros Hpos.
  destruct (filter (λ x, x = c) l) as [|d r] eqn:Hf; [simpl in Hpos; lia|].
  assert (d ∈ filter (λ x, x = c) l) as Hd by (rewrite Hf; apply list_elem_of_here).
  apply list_elem_of_filter in Hd as [-> Hd]. done.
Qed.

Lemma sum_list_with_zero {A} (l : list A) : sum_list_with (λ _, 0) l = 0.
Proof. induction l as [|x l IH]; simpl; [done|]. by rewrite IH. Qed.

Lemma common_count_disjoint x y : (∀ c, c ∈ x → c ∉ y) → common_count x y = 0.
Proof.
  intros Hdis. unfold common_count.
  rewrite (sum_list_with_ext _ (λ _, 0)); [apply sum_list_with_zero|].
  intros c. destruct (decide (0 < cnt c x)) as [Hx|Hx]; [|lia].
  destruct (decide (0 < cnt c y)) as [Hy|Hy]; [|lia].
  exfalso. apply (Hdis c); by apply cnt_pos_elem.
Qed.

Lemma calculate_ratio_zero n : 0 < n → (_calculate_ratio 0 n == 0)%Q.
Proof. intros Hn. destruct n as [|n]; [lia|]. cbn [_calculate_ratio]. reflexivity. Qed.

(** X4. A catalog question that shares no character with the question scores 0,
    unless both normalized texts are empty (then the score is 1). *)
Theorem similarity_without_common_character (user_question q : str) :
  (∀ c, c ∈ normalize_text q → c ∉ normalize_text user_question) →
  (0 < length (normalize_text q) + length (normalize_text user_question) →
   (similarity user_question q == 0)%Q) ∧
  (normalize_text q = [] → normalize_text user_question = [] →
   (similarity user_question q == 1)%Q).
Proof.
  intros Hdis. split.
  - intros Hlen. unfold similarity, ratio.
    pose proof (matches_le_common
                  (set_seqs (normalize_text q) (normalize_text user_question))
                  (chain_b_ok _ _)) as Hle.
    cbn [a b set_seqs] in *. rewrite (common_count_disjoint _ _ Hdis) in Hle.
    replace (matches_of _) with 0 by lia. by apply calculate_ratio_zero.
  - intros Hq Hu. unfold similarity, ratio. cbn [a b set_seqs]. rewrite Hq, Hu.
    reflexivity.
Qed.

Lemma similarity_without_common_character_witness :
  (similarity (py "xyz!") (py "Tell me.") == 0)%Q.
Proof.
  refine (proj1 (similarity_without_common_character (py "xyz!") (py "Tell me.") _) _).
  - apply list.Forall_forall. apply (bool_decide_unpack _). vm_compute. exact I.
  - vm_compute. lia.
Defined.

Lemma calculate_ratio_below_default m n :
  0 < n → 5 * m < n → (_calculate_ratio m n < default_threshold)%Q.
Proof.
  intros Hn Hm. destruct n as [|n]; [lia|]. cbn [_calculate_ratio].
  apply Qlt_shift_div_r.
  - change 0%Q with (inject_Z 0). rewrite <- Zlt_Qlt. lia.
  - unfold default_threshold, Qlt, Qmult, inject_Z. cbn [Qnum Qden]. lia.
Qed.

Lemma similarity_le_real_quick user_question q :
  (similarity user_question q <=
   _calculate_ratio (length (normalize_text q) `min` length (normalize_text user_question))
     (length (normalize_text q) + length (normalize_text user_question)))%Q.
Proof.
  unfold similarity.
  apply (ratio_le_real_quick_ratio (set_seqs _ _) (chain_b_ok _ _)).
Qed.

(** X5. When one of the two normalized texts is more than four times as long as
    the other, the score stays below the default threshold 0.4. *)
Theorem similarity_of_unequal_lengths (user_question q : str) :
  4 * length (normalize_text user_question) < length (normalize_text q) ∨
  4 * length (normalize_text q) < length (normalize_text user_question) →
  (similarity user_question q < default_threshold)%Q.
Proof.
  intros Hlen. eapply Qle_lt_trans; [apply similarity_le_real_quick|].
  apply calculate_ratio_below_default; lia.
Qed.

Lemma similarity_of_unequal_lengths_witness :
  (similarity (py "What is EVA?")
     (py "What does the eligibility verification agent (EVA) do?") < default_threshold)%Q.
Proof.
  apply similarity_of_unequal_lengths. left. vm_compute. lia.
Defined.

End low_scores.

(** * When the matcher finds a match *)

Section match_conditions.
Import Difflib Blocks Counting GestaltSpec.

Lemma kept_candidates_nil self user_question threshold :
  (∀ q, q ∈ questions self → (similarity user_question q < threshold)%Q) →
  kept_candidates self user_question threshold = [].
Proof.
  intros Hlow.
  destruct (kept_candidates self user_question threshold) as [|p l] eqn:Hk; [done|].
  assert (p ∈ kept_candidates self user_question threshold) as Hp
    by (rewrite Hk; apply list_elem_of_here).
  apply kept_candidates_elem_inv in Hp as (Hge & q & Hq & ->). cbn [fst] in Hge.
  apply ge_true in Hge. specialize (Hlow q Hq). by apply Qlt_not_le in Hlow.
Qed.

(** With an agent made by [__init__] and a threshold in range, a kept
    candidate is enough for a match; the match is the best kept candidate. *)
Lemma find_best_match_try_init_from data user_question threshold p :
  (0 <= threshold)%Q → (threshold <= 1)%Q →
  p ∈ kept_candidates (init_from data) user_question threshold →
  ∃ best q e,
    find_best_match_try (init_from data) user_question threshold
      = inr (Some q, Some (answer e)) ∧
    e ∈ data ∧ question e = q ∧
    best ∈ kept_candidates (init_from data) user_question threshold ∧
    (∀ p', p' ∈ kept_candidates (init_from data) user_question threshold →
           tuple_gt p' best = false) ∧
    best = (similarity user_question q, normalize_text q).
Proof.
  intros H0 H1 Hp.
  destruct (nlargest1 (kept_candidates (init_from data) user_question threshold))
    as [|best rest] eqn:Hn.
  { apply (proj1 (nlargest1_nil _)) in Hn. rewrite Hn in Hp. by apply elem_of_nil in Hp. }
  assert (rest = []) as ->.
  { pose proof (nlargest1_length
                  (kept_candidates (init_from data) user_question threshold)) as Hl.
    rewrite Hn in Hl. destruct rest; [done|]. simpl in Hl. lia. }
  destruct (nlargest1_spec _ _ Hn) as [Hbest Hmax].
  destruct (kept_candidates_elem_inv _ _ _ _ Hbest) as (_ & qb & Hqb & Heqb).
  destruct (list_index_elem (map normalize_text (questions (init_from data))) best.2)
    as [i Hidx].
  { rewrite Heqb. apply list_elem_of_fmap. by exists qb. }
  destruct (list_index_spec _ _ _ Hidx) as [Hlook _].
  rewrite list_lookup_fmap in Hlook.
  destruct (questions (init_from data) !! i) as [q|] eqn:Hq; [|done].
  injection Hlook as Hnorm.
  destruct (init_from_lookup data q) as (e & He & Hqe & Hans);
    [by eapply list_elem_of_lookup_2|].
  exists best, q, e.
  split; [by apply (find_best_match_try_some _ _ _ best i q (answer e))|].
  split; [done|]. split; [done|]. split; [done|]. split; [done|].
  rewrite Heqb in Hnorm |- *. cbn [snd] in Hnorm.
  by rewrite (similarity_normalized user_question q qb Hnorm), Hnorm.
Qed.

(** X6. A match exists exactly when some catalog question scores at least the
    threshold (threshold in range, agent made by [__init__]). *)
Theorem match_iff_some_score_reaches_threshold (data : list QAEntry)
    (user_question : str) (threshold : Q) (w : world) :
  (0 <= threshold)%Q → (threshold <= 1)%Q →
  (is_Some (find_best_match (init_from data) user_question threshold w).1.1 ↔
   ∃ e, e ∈ data ∧ (threshold <= similarity user_question (question e))%Q).
Proof.
  intros H0 H1. unfold find_best_match. split.
  - destruct (find_best_match_try (init_from data) user_question threshold)
      as [e|r] eqn:Htry; [by intros [? ?]|].
    apply find_best_match_try_inr in Htry as (_ & _ & [[-> _]|Hsome]);
      [by intros [? ?]|].
    intros _. destruct Hsome as (best & _ & _ & _ & Hbest & _).
    apply nlargest1_spec in Hbest as [Hin _].
    apply kept_candidates_elem_inv in Hin as (Hge & q & Hq & ->). cbn [fst] in Hge.
    cbn [questions init_from] in Hq. apply list_elem_of_fmap in Hq as (e & -> & He).
    exists e. split; [done|]. by apply ge_true.
  - intros (e & He & Hge).
    destruct (find_best_match_try_init_from data user_question threshold
                (similarity user_question (question e), normalize_text (question e))
                H0 H1) as (best & q & e' & -> & _).
    + apply kept_candidates_elem; [|by apply ge_true].
      cbn [questions init_from]. apply list_elem_of_fmap. by exists e.
    + by eexists.
Qed.

Lemma match_iff_some_score_reaches_threshold_witness :
  (0 <= default_threshold)%Q ∧ (default_threshold <= 1)%Q ∧
  (is_Some (find_best_match __init__ (py "Is it raining?") default_threshold world0).1.1 ↔
   ∃ e, e ∈ THOUGHTFUL_AI_DATA ∧
        (default_threshold <= similarity (py "Is it raining?") (question e))%Q).
Proof.
  assert (0 <= default_threshold)%Q as H0 by (vm_compute; discriminate).
  assert (default_threshold <= 1)%Q as H1 by (vm_compute; discriminate).
  split; [exact H0|]. split; [exact H1|].
  exact (match_iff_some_score_reaches_threshold THOUGHTFUL_AI_DATA (py "Is it raining?")
           default_threshold world0 H0 H1).
Defined.

(** X7. A threshold outside [0, 1] never gives a match: the library rejects the
    cutoff, and the matcher logs that error and reports no match, whatever
    the question and the catalog. *)
Theorem find_best_match_invalid_threshold self (user_question : str) (threshold : Q)
    (w : world) :
  (threshold < 0)%Q ∨ (1 < threshold)%Q →
  find_best_match self user_question threshold w
  = ((None, None),
     st_error (ValueError_cutoff threshold) (enter_matcher user_question threshold w)).
Proof.
  intros Hout. unfold find_best_match, find_best_match_try, mbind, exn_bind. cbn zeta.
  rewrite get_close_matches_raises; [done|].
  intros [H0 H1]. destruct Hout as [Hlt|Hlt]; by apply Qlt_not_le in Hlt.
Qed.

Lemma find_best_match_invalid_threshold_witness :
  find_best_match __init__ (py "What does EVA do?") (11 # 10) world0
  = ((None, None),
     st_error (ValueError_cutoff (11 # 10))
       (enter_matcher (py "What does EVA do?") (11 # 10) world0)).
Proof.
  apply find_best_match_invalid_threshold. right. vm_compute. reflexivity.
Defined.

Lemma find_best_match_no_candidate self user_question threshold w :
  (0 < threshold)%Q →
  (∀ q, q ∈ questions self → (similarity user_question q < threshold)%Q) →
  (find_best_match self user_question threshold w).1 = (None, None).
Proof.
  intros Hpos Hlow. unfold find_best_match.
  destruct (Qlt_le_dec 1 threshold) as [Hbig|H1].
  - unfold find_best_match_try, mbind, exn_bind. cbn zeta.
    rewrite get_close_matches_raises; [done|]. intros [_ H1]. by apply Qlt_not_le in Hbig.
  - rewrite find_best_match_try_none; [done|by apply Qlt_le_weak|done|].
    by apply kept_candidates_nil.
Qed.

Lemma similarity_empty_question user_question q :
  normalize_text user_question = [] → normalize_text q ≠ [] →
  (similarity user_question q == 0)%Q.
Proof.
  intros Hu Hq. unfold similarity, ratio.
  destruct (matches_le_lengths (set_seqs (normalize_text q) (normalize_text user_question))
              (chain_b_ok _ _)) as [_ Hle].
  cbn [a b set_seqs] in *. rewrite Hu in *. cbn [length] in *.
  replace (matches_of _) with 0 by lia. apply calculate_ratio_zero.
  destruct (normalize_text q); [done|]. simpl. lia.
Qed.

(** X8. A question without any word character (only punctuation and whitespace)
    matches nothing at a positive threshold, provided every catalog question
    has a word character. *)
Theorem wordless_question_never_matches self (user_question : str) (threshold : Q)
    (w : world) :
  normalize_text user_question = [] →
  (∀ q, q ∈ questions self → normalize_text q ≠ []) →
  (0 < threshold)%Q →
  (find_best_match self user_question threshold w).1 = (None, None).
Proof.
  intros Hu Hcat Hpos. apply find_best_match_no_candidate; [done|].
  intros q Hq. by rewrite (similarity_empty_question _ _ Hu (Hcat q Hq)).
Qed.

Lemma wordless_question_never_matches_witness :
  (find_best_match __init__ (py "?!...") default_threshold world0).1 = (None, None).
Proof.
  apply wordless_question_never_matches.
  - vm_compute. reflexivity.
  - apply list.Forall_forall. apply (bool_decide_unpack _). vm_compute. exact I.
  - vm_compute. reflexivity.
Defined.

Lemma ratio_self x : length x < 200 → (ratio (set_seqs x x) == 1)%Q.
Proof.
  intros Hlen. pose proof (ratio_gestalt_matches x x Hlen) as HG.
  destruct (matches_le_lengths (set_seqs x x) (chain_b_ok x x)) as [Hle _].
  cbn [a set_seqs] in Hle. unfold ratio. cbn [a b set_seqs].
  assert (valid_block x x (0, length x, 0, length x) (0, 0, length x)) as Hwhole.
  { repeat split; try lia. intros t Ht.
    destruct (lookup_lt_is_Some_2 x t Ht) as [c Hc]. by exists c. }
  assert (matches_of (get_matching_blocks (set_seqs x x)) = length x) as ->.
  { unfold gestalt_matches in HG.
    inversion HG as [w' i j [_ Hmax] Hw' Hm|alo ahi blo bhi i j k ml mr Hk [Hv Hmax]];
      subst.
    - specialize (Hmax _ Hwhole). cbn [snd] in Hmax. lia.
    - specialize (Hmax _ Hwhole). cbn [snd] in Hmax. lia. }
  destruct (length x) as [|n] eqn:Hn; [reflexivity|].
  rewrite calculate_ratio_pos by lia.
  rewrite Nat2Z.inj_add, inject_Z_plus.
  assert (¬ (inject_Z (Z.of_nat (S n)) == 0)%Q) as Hnz.
  { change 0%Q with (inject_Z 0). rewrite inject_Z_injective. lia. }
  field. intros Hz. apply Hnz.
  assert (2 * inject_Z (Z.of_nat (S n)) == 0)%Q as H2 by (rewrite <- Hz; ring).
  apply Qmult_integral in H2 as [H2|H2]; [discriminate H2|exact H2].
Qed.

(** X9. A question whose normalized text is that of a catalog question (and has
    fewer than 200 characters) is matched at every threshold in range, by a
    catalog question that scores 1. *)
Theorem same_normalized_text_always_matches (data : list QAEntry) (e : QAEntry)
    (user_question : str) (threshold : Q) (w : world) :
  e ∈ data →
  normalize_text user_question = normalize_text (question e) →
  length (normalize_text user_question) < 200 →
  (0 <= threshold)%Q → (threshold <= 1)%Q →
  ∃ e', e' ∈ data ∧
        (find_best_match (init_from data) user_question threshold w).1
        = (Some (question e'), Some (answer e')) ∧
        (similarity user_question (question e') == 1)%Q.
Proof.
  intros He Hnorm Hlen H0 H1.
  assert (similarity user_question (question e) == 1)%Q as Hone.
  { unfold similarity. rewrite <- Hnorm. by apply ratio_self. }
  destruct (find_best_match_try_init_from data user_question threshold
              (similarity user_question (question e), normalize_text (question e))
              H0 H1) as (best & q & e' & Htry & He' & Hq & _ & Hmax & Hbest).
  { apply kept_candidates_elem.
    - cbn [questions init_from]. apply list_elem_of_fmap. by exists e.
    - apply ge_true. by rewrite Hone. }
  exists e'. split; [done|]. unfold find_best_match. rewrite Htry, Hq.
  split; [done|].
  specialize (Hmax (similarity user_question (question e), normalize_text (question e))).
  rewrite Hbest in Hmax. apply tuple_gt_false in Hmax.
  - cbn [fst snd] in Hmax. rewrite Hone in Hmax.
    destruct (similarity_between_0_and_1_aux user_question q) as [_ Hle1].
    destruct Hmax as [Hlt|[Heq _]]; [|by symmetry].
    apply Qle_antisym; [done|by apply Qlt_le_weak].
  - apply kept_candidates_elem.
    + cbn [questions init_from]. apply list_elem_of_fmap. by exists e.
    + apply ge_true. by rewrite Hone.
Qed.

Lemma same_normalized_text_always_matches_witness :
  ∃ e', e' ∈ THOUGHTFUL_AI_DATA ∧
        (find_best_match __init__ (py "HOW does the payment posting agent [PHIL] work?!") 1
           world0).1
        = (Some (question e'), Some (answer e')) ∧
        (similarity (py "HOW does the payment posting agent [PHIL] work?!") (question e')
         == 1)%Q.
Proof.
  apply (same_normalized_text_always_matches THOUGHTFUL_AI_DATA
           {| question := py "How does the payment posting agent (PHIL) work?";
              answer := py "PHIL automates the posting of payments to patient accounts, ensuring fast, accurate reconciliation of payments and reducing administrative burden." |}).
  - apply (list_elem_of_lookup_2 _ 2). reflexivity.
  - vm_compute. reflexivity.
  - vm_compute. lia.
  - vm_compute. discriminate.
  - vm_compute. discriminate.
Defined.

End match_conditions.

(** * What [get_response] can return *)

Section responses.
Import Difflib Blocks Counting GestaltSpec.

(** With an agent made by [__init__] and a threshold in range, the [try] body
    of [find_best_match] does not raise. *)
Lemma find_best_match_try_total data user_question threshold :
  (0 <= threshold)%Q → (threshold <= 1)%Q →
  ∃ r, find_best_match_try (init_from data) user_question threshold = inr r ∧
       (r = (None, None) ∨
        ∃ e, e ∈ data ∧ r = (Some (question e), Some (answer e))).
Proof.
  intros H0 H1.
  destruct (kept_candidates (init_from data) user_question threshold) as [|p l] eqn:Hk.
  - exists (None, None). split; [by apply find_best_match_try_none|by left].
  - destruct (find_best_match_try_init_from data user_question threshold p H0 H1)
      as (best & q & e & Htry & He & Hq & _); [rewrite Hk; apply list_elem_of_here|].
    exists (Some q, Some (answer e)). split; [done|]. right. exists e. by rewrite Hq.
Qed.

Lemma default_threshold_in_range : (0 <= default_threshold)%Q ∧ (default_threshold <= 1)%Q.
Proof. split; vm_compute; discriminate. Qed.

Lemma FALLBACK_RESPONSES_nonempty r : r ∈ FALLBACK_RESPONSES → r ≠ [].
Proof.
  revert r. apply list.Forall_forall. apply (bool_decide_unpack _). vm_compute. exact I.
Qed.

Lemma random_choice_st_errors seq w : st_errors (random_choice seq w).2 = st_errors w.
Proof. by destruct seq. Qed.

Lemma get_response_init_from (data : list QAEntry) (user_question : str) (w : world) :
  ∃ r w', get_response (init_from data) user_question w = (inr r, w') ∧
          r ≠ [] ∧
          (r = PROMPT ∨ r ∈ FALLBACK_RESPONSES ∨ ∃ e, e ∈ data ∧ r = answer e) ∧
          st_errors w' = st_errors w.
Proof.
  unfold get_response.
  destruct (negb _ || negb _).
  { exists PROMPT, w. split; [done|]. split; [done|]. split; [by left|done]. }
  unfold find_best_match.
  destruct default_threshold_in_range as [H0 H1].
  destruct (find_best_match_try_total data user_question default_threshold H0 H1)
    as (r & -> & Hr).
  set (w1 := enter_matcher user_question default_threshold w).
  assert (∃ r w', random_choice FALLBACK_RESPONSES w1 = (inr r, w') ∧ r ≠ [] ∧
                  (r = PROMPT ∨ r ∈ FALLBACK_RESPONSES ∨ ∃ e, e ∈ data ∧ r = answer e) ∧
                  st_errors w' = st_errors w) as Hfallback.
  { destruct (random_choice_FALLBACK_RESPONSES w1) as (r' & Hrun & Hr').
    apply list_elem_of_lookup_2 in Hr'.
    exists r', (randbelow (length FALLBACK_RESPONSES) w1).2.
    split; [done|]. split; [by apply FALLBACK_RESPONSES_nonempty|].
    split; [right; by left|done]. }
  destruct Hr as [->|(e & He & ->)]; [done|].
  destruct (answer e) as [|c ans] eqn:Hans; [done|]. cbn [truthy].
  exists (c :: ans), w1. split; [done|]. split; [done|].
  split; [|done]. right. right. exists e. by rewrite Hans.
Qed.

(** X10. [get_response] of an agent made by [__init__] never raises and never
    reports an error through [st.error]: it returns a non-empty string, which
    is the prompt, a fallback string or the answer of a catalog entry. *)
Theorem get_response_never_fails (data : list QAEntry) (user_question : str) (w : world) :
  ∃ r w', get_response (init_from data) user_question w = (inr r, w') ∧
          r ≠ [] ∧
          (r = PROMPT ∨ r ∈ FALLBACK_RESPONSES ∨ ∃ e, e ∈ data ∧ r = answer e) ∧
          st_errors w' = st_errors w.
Proof. apply get_response_init_from. Qed.

Lemma get_response_no_match self user_question w :
  PyStr.strip user_question ≠ [] →
  (find_best_match self user_question default_threshold w).1 = (None, None) →
  ∃ r w', get_response self user_question w = (inr r, w') ∧ r ∈ FALLBACK_RESPONSES.
Proof.
  intros Hs Hnone. unfold get_response. rewrite (strip_nonempty _ Hs).
  destruct (find_best_match self user_question default_threshold w)
    as [[matched_question answer] w1].
  cbn [fst] in Hnone. injection Hnone as -> ->.
  destruct (random_choice_FALLBACK_RESPONSES w1) as (r & -> & Hr).
  exists r, (randbelow (length FALLBACK_RESPONSES) w1).2.
  split; [done|]. by eapply list_elem_of_lookup_2.
Qed.

Lemma catalog_question_lengths q :
  q ∈ questions __init__ →
  35 ≤ length (normalize_text q) ∧ length (normalize_text q) ≤ 52.
Proof.
  revert q. apply list.Forall_forall. apply (bool_decide_unpack _). vm_compute. exact I.
Qed.

(** X11. On the embedded catalog, a question that is not blank and whose normalized
    text has at most 8 characters, or more than 208, is answered with a
    fallback string: its length alone keeps every score below 0.4. *)
Theorem short_or_long_question_gets_fallback (user_question : str) (w : world) :
  PyStr.strip user_question ≠ [] →
  length (normalize_text user_question) ≤ 8 ∨ 208 < length (normalize_text user_question) →
  ∃ r w', get_response __init__ user_question w = (inr r, w') ∧ r ∈ FALLBACK_RESPONSES.
Proof.
  intros Hs Hlen. apply get_response_no_match; [done|].
  apply find_best_match_no_candidate; [vm_compute; reflexivity|].
  intros q Hq. destruct (catalog_question_lengths q Hq) as [Hlo Hhi].
  eapply Qle_lt_trans; [apply similarity_le_real_quick|].
  apply calculate_ratio_below_default; lia.
Qed.

Lemma short_or_long_question_gets_fallback_witness :
  ∃ r w', get_response __init__ (py "EVA?") world0 = (inr r, w') ∧
          r ∈ FALLBACK_RESPONSES.
Proof.
  apply short_or_long_question_gets_fallback.
  - vm_compute. discriminate.
  - left. vm_compute. lia.
Defined.

(** A block of [a] that also occurs in [b] is counted in full. *)
Lemma matches_ge_shared_block x y s p1 r1 p2 r2 :
  length y < 200 → x = p1 ++ s ++ r1 → y = p2 ++ s ++ r2 →
  length s ≤ matches_of (get_matching_blocks (set_seqs x y)).
Proof.
  intros Hlen Hx Hy. pose proof (ratio_gestalt_matches x y Hlen) as HG.
  assert (valid_block x y (0, length x, 0, length y) (length p1, length p2, length s))
    as Hblock.
  { assert (length x = length p1 + (length s + length r1)) by (by rewrite Hx, !length_app).
    assert (length y = length p2 + (length s + length r2)) by (by rewrite Hy, !length_app).
    repeat split; try lia.
    intros t Ht. destruct (lookup_lt_is_Some_2 s t Ht) as [c Hc]. exists c.
    rewrite Hx, Hy. split.
    - rewrite lookup_app_r by lia. rewrite lookup_app_l by lia.
      by replace (length p1 + t - length p1) with t by lia.
    - rewrite lookup_app_r by lia. rewrite lookup_app_l by lia.
      by replace (length p2 + t - length p2) with t by lia. }
  unfold gestalt_matches in HG.
  inversion HG as [w' i j [_ Hmax] Hw' Hm|alo ahi blo bhi i j k ml mr Hk [Hv Hmax]];
    subst; specialize (Hmax _ Hblock); cbn [snd] in Hmax; lia.
Qed.

Lemma calculate_ratio_reaches_default m n :
  n ≤ 5 * m → (default_threshold <= _calculate_ratio m n)%Q.
Proof.
  intros Hm. destruct n as [|n]; [vm_compute; discriminate|]. cbn [_calculate_ratio].
  apply Qle_shift_div_l.
  - change 0%Q with (inject_Z 0). rewrite <- Zlt_Qlt. lia.
  - unfold default_threshold, Qle, Qmult, inject_Z. cbn [Qnum Qden]. lia.
Qed.

(** X12. A question shares a run of characters with a catalog question (after
    normalization of both). If the run is at least a fifth of the two lengths
    together, the question is matched at the default threshold. *)
Theorem shared_run_of_characters_matches (data : list QAEntry) (e : QAEntry)
    (user_question : str) (w : world) (s p1 r1 p2 r2 : str) :
  e ∈ data →
  normalize_text (question e) = p1 ++ s ++ r1 →
  normalize_text user_question = p2 ++ s ++ r2 →
  length (normalize_text user_question) < 200 →
  length (normalize_text (question e)) + length (normalize_text user_question)
    ≤ 5 * length s →
  ∃ e', e' ∈ data ∧
        (find_best_match (init_from data) user_question default_threshold w).1
        = (Some (question e'), Some (answer e')).
Proof.
  intros He Hq Hu Hlen Hrun.
  destruct default_threshold_in_range as [H0 H1].
  destruct (find_best_match_try_init_from data user_question default_threshold
              (similarity user_question (question e), normalize_text (question e))
              H0 H1) as (best & q & e' & Htry & He' & Hqe' & _).
  { apply kept_candidates_elem.
    - cbn [questions init_from]. apply list_elem_of_fmap. by exists e.
    - apply ge_true. unfold similarity, ratio. cbn [a b set_seqs].
      apply Qle_trans with
        (_calculate_ratio (length s)
           (length (normalize_text (question e)) + length (normalize_text user_question)));
        [apply calculate_ratio_reaches_default; lia|].
      apply calculate_ratio_mono. by eapply matches_ge_shared_block. }
  exists e'. split; [done|]. unfold find_best_match. by rewrite Htry, Hqe'.
Qed.

Lemma shared_run_of_characters_matches_witness :
  ∃ e', e' ∈ THOUGHTFUL_AI_DATA ∧
        (find_best_match __init__ (py "AI's agent") default_threshold world0).1
        = (Some (question e'), Some (answer e')).
Proof.
  apply (shared_run_of_characters_matches THOUGHTFUL_AI_DATA
           {| question := py "Tell me about Thoughtful AI's Agents.";
              answer := py "Thoughtful AI provides a suite of AI-powered automation agents designed to streamline healthcare processes. These include Eligibility Verification (EVA), Claims Processing (CAM), and Payment Posting (PHIL), among others." |}
           (py "AI's agent") world0
           (py "ais agent") (py "tell me about thoughtful ") (py "s") [] []).
  - apply (list_elem_of_lookup_2 _ 3). reflexivity.
  - vm_compute. reflexivity.
  - vm_compute. reflexivity.
  - vm_compute. lia.
  - vm_compute. lia.
Defined.

(** X13. When several entries of the data have the same question string, the
    answer [find_best_match] returns for it is that of the last such entry:
    the dictionary comprehension of [__init__] lets a later item replace an
    earlier one. *)
Theorem find_best_match_answer_of_last_duplicate (data : list QAEntry)
    (user_question : str) (threshold : Q) (w : world) (q ans : str) :
  (find_best_match (init_from data) user_question threshold w).1 = (Some q, Some ans) →
  ∃ e, last (filter (λ e, question e = q) data) = Some e ∧ ans = answer e.
Proof.
  unfold find_best_match.
  destruct (find_best_match_try (init_from data) user_question threshold)
    as [e|r] eqn:Htry; [done|]. cbn [fst]. intros ->.
  apply find_best_match_try_inr in Htry as (_ & _ & [[? _]|Hsome]); [done|].
  destruct Hsome as (best & i & q0 & ans0 & _ & _ & _ & Hans & [= -> ->]).
  cbn [qa_dict init_from] in Hans. rewrite init_from_dict, lookup_empty in Hans.
  destruct (last (filter (λ e, question e = q0) data)) as [e|]; [|done].
  exists e. split; [done|]. by injection Hans.
Qed.

Lemma find_best_match_answer_of_last_duplicate_witness :
  ∃ e, last (filter (λ e, question e = py "What is EVA?")
               [ {| question := py "What is EVA?"; answer := py "An agent." |};
                 {| question := py "What is CAM?"; answer := py "Another agent." |};
                 {| question := py "What is EVA?";
                    answer := py "The eligibility verification agent." |} ])
       = Some e ∧
       py "The eligibility verification agent." = answer e.
Proof.
  apply (find_best_match_answer_of_last_duplicate _ (py "what is eva") default_threshold
           world0).
  vm_compute. reflexivity.
Defined.

End responses.

(** * The Streamlit script: what a run does *)

Section script.
Import App.

Lemma bind_run {A B : Type} (m : Script A) (f : A → Script B) s x s' :
  m s = (inr x, s') → (m ≫= f) s = f x s'.
Proof. intros Hm. unfold mbind, Script_bind. by rewrite Hm. Qed.

Lemma bind_raise {A B : Type} (m : Script A) (f : A → Script B) s e s' :
  m s = (inl e, s') → (m ≫= f) s = (inl e, s').
Proof. intros Hm. unfold mbind, Script_bind. by rewrite Hm. Qed.

(** ** [initialize_session_state] *)

Lemma initialize_session_state_run s :
  initialize_session_state s =
  (inr tt,
   {| session := initialized (session s); outside := outside s; screen := screen s |}).
Proof. destruct s as [[[msgs|] [self|]] w scr]; reflexivity. Qed.

(** ** [display_chat_history] *)

Lemma for_each_draw msgs : ∀ s,
  for_each msgs (λ message,
    draw (chat_message (role message)) ;; draw (markdown (content message))) s
  = (inr tt, {| session := session s; outside := outside s;
                screen := screen s ++ rendering msgs |}).
Proof.
  induction msgs as [|m msgs IH]; intros s.
  - cbn. rewrite app_nil_r. by destruct s.
  - cbn [for_each]. erewrite bind_run; [|reflexivity]. rewrite IH.
    cbn. by rewrite <- !app_assoc.
Qed.

Lemma display_chat_history_run s msgs :
  messages (session s) = Some msgs →
  display_chat_history s
  = (inr tt, {| session := session s; outside := outside s;
                screen := screen s ++ rendering msgs |}).
Proof.
  intros Hm. unfold display_chat_history.
  erewrite bind_run; [|unfold get_messages; by rewrite Hm]. apply for_each_draw.
Qed.

(** ** [handle_user_input] *)

Lemma handle_user_input_run s msgs self prompt r w' :
  messages (session s) = Some msgs → agent (session s) = Some self →
  prompt ≠ [] →
  get_response self prompt (outside s) = (inr r, w') →
  handle_user_input (Some prompt) s
  = (inr tt,
     {| session := {| messages := Some (msgs ++ [user_message prompt; assistant_message r]);
                      agent := Some self |};
        outside := w';
        screen := screen s ++ rendering [user_message prompt; assistant_message r] |}).
Proof.
  destruct s as [[m a] w scr]. cbn [session messages agent outside screen].
  intros -> -> Hp Hr. destruct prompt as [|c p]; [done|].
  unfold handle_user_input. cbn [truthy].
  unfold mbind, Script_bind, try_except, messages_append, get_messages, set_messages,
    draw, get_agent, agent_get_response, mbind, Script_bind.
  cbn [session messages agent outside screen]. rewrite Hr.
  cbn [session messages agent outside screen rendering flat_map role content
       user_message assistant_message app].
  by rewrite <- !app_assoc.
Qed.

Lemma handle_user_input_nothing s chat_input :
  truthy chat_input = false → handle_user_input chat_input s = (inr tt, s).
Proof. by destruct chat_input as [[|c p]|]. Qed.

(** After [initialize_session_state], [handle_user_input] returns. *)
Lemma handle_user_input_ok chat_input s msgs self :
  messages (session s) = Some msgs → agent (session s) = Some self →
  ∃ msgs' w' scr',
    handle_user_input chat_input s
    = (inr tt, {| session := {| messages := Some msgs'; agent := Some self |};
                  outside := w'; screen := screen s ++ scr' |}) ∧
    ((truthy chat_input = false ∧ msgs' = msgs ∧ w' = outside s ∧ scr' = []) ∨
     ∃ prompt r, chat_input = Some prompt ∧ prompt ≠ [] ∧
       get_response self prompt (outside s) = (inr r, w') ∧
       msgs' = msgs ++ [user_message prompt; assistant_message r] ∧
       scr' = rendering [user_message prompt; assistant_message r]).
Proof.
  intros Hm Ha. destruct (truthy chat_input) eqn:Ht.
  - destruct chat_input as [[|c p]|]; try done.
    destruct (get_response_returns self (c :: p) (outside s)) as (r & w' & Hr).
    exists (msgs ++ [user_message (c :: p); assistant_message r]), w',
      (rendering [user_message (c :: p); assistant_message r]).
    split; [by apply handle_user_input_run|]. right. by exists (c :: p), r.
  - exists msgs, (outside s), []. split; [|by left].
    rewrite handle_user_input_nothing by done. rewrite app_nil_r.
    destruct s as [[m a] w scr]. cbn in *. by subst.
Qed.

(** ** The buttons *)

Lemma sample_clicked_run s msgs self q r w' :
  messages (session s) = Some msgs → agent (session s) = Some self →
  get_response self q (outside s) = (inr r, w') →
  sample_clicked q s
  = (inl RerunException,
     {| session := {| messages := Some (msgs ++ [user_message q; assistant_message r]);
                      agent := Some self |};
        outside := w'; screen := screen s |}).
Proof.
  destruct s as [[m a] w scr]. cbn [session messages agent outside screen].
  intros -> -> Hr. unfold sample_clicked.
  unfold mbind, Script_bind, messages_append, get_messages, set_messages,
    get_agent, agent_get_response, raise, mbind, Script_bind.
  cbn [session messages agent outside screen]. rewrite Hr.
  cbn [session messages agent outside screen]. by rewrite <- !app_assoc.
Qed.

Lemma clear_clicked_run s :
  clear_clicked s
  = (inl RerunException,
     {| session := {| messages := Some [assistant_message welcome_message_main];
                      agent := agent (session s) |};
        outside := outside s; screen := screen s |}).
Proof. reflexivity. Qed.

Lemma sample_loop ws l : ∀ s msgs self,
  messages (session s) = Some msgs → agent (session s) = Some self →
  ((∀ q, q ∈ l → button ws q = false) ∧
   for_each l (λ question, if button ws question then sample_clicked question else mret tt) s
   = (inr tt, s)) ∨
  (∃ l1 q l2 r w', l = l1 ++ q :: l2 ∧ (∀ x, x ∈ l1 → button ws x = false) ∧
     button ws q = true ∧
     get_response self q (outside s) = (inr r, w') ∧
     for_each l (λ question, if button ws question then sample_clicked question else mret tt) s
     = (inl RerunException,
        {| session := {| messages := Some (msgs ++ [user_message q; assistant_message r]);
                         agent := Some self |};
           outside := w'; screen := screen s |})).
Proof.
  induction l as [|q l IH]; intros s msgs self Hm Ha.
  - left. split; [|done]. intros q Hq. by apply elem_of_nil in Hq.
  - cbn [for_each]. destruct (button ws q) eqn:Hb.
    + right. destruct (get_response_returns self q (outside s)) as (r & w' & Hr).
      exists [], q, l, r, w'. split; [done|].
      split; [intros x Hx; by apply elem_of_nil in Hx|]. split; [done|]. split; [done|].
      erewrite bind_raise; [done|]. by apply sample_clicked_run.
    + erewrite bind_run; [|reflexivity].
      destruct (IH s msgs self Hm Ha) as [[Hnone Hrun]|Hsome].
      * left. split; [|done]. intros x Hx.
        apply elem_of_cons in Hx as [->|Hx]; [done|by apply Hnone].
      * right. destruct Hsome as (l1 & q' & l2 & r & w' & -> & Hl1 & Hq' & Hr & Hrun).
        exists (q :: l1), q', l2, r, w'. split; [done|]. split; [|done].
        intros x Hx. apply elem_of_cons in Hx as [->|Hx]; [done|by apply Hl1].
Qed.

(** ** [main] *)

(** The state in which [handle_user_input] starts in a run of [main]. *)
Lemma main_run ws s :
  main ws s =
  (handle_user_input (chat_input ws) ;;
   for_each sample_questions (λ question,
     if button ws question then sample_clicked question else mret tt) ;;
   if clear_chat ws then clear_clicked else mret tt)
    {| session := initialized (session s);
       outside := outside s;
       screen := screen s ++ rendering (default [assistant_message welcome_message]
                                          (messages (session s))) |}.
Proof.
  unfold main. erewrite bind_run; [|apply initialize_session_state_run].
  erewrite bind_run; [|by apply display_chat_history_run]. reflexivity.
Qed.

Lemma main_cases ws s :
  ∃ msgs2 w2 scr2,
    ((truthy (chat_input ws) = false ∧
      Some msgs2 = messages (initialized (session s)) ∧ w2 = outside s ∧ scr2 = []) ∨
     ∃ prompt r msgs1, chat_input ws = Some prompt ∧ prompt ≠ [] ∧
       Some msgs1 = messages (initialized (session s)) ∧
       get_response (default __init__ (agent (session s))) prompt (outside s)
         = (inr r, w2) ∧
       msgs2 = msgs1 ++ [user_message prompt; assistant_message r] ∧
       scr2 = rendering [user_message prompt; assistant_message r]) ∧
    (((∀ q, q ∈ sample_questions → button ws q = false) ∧ clear_chat ws = false ∧
      main ws s
      = (inr tt,
         {| session := {| messages := Some msgs2;
                          agent := agent (initialized (session s)) |};
            outside := w2;
            screen := (screen s ++ rendering (default [assistant_message welcome_message]
                                                (messages (session s)))) ++ scr2 |})) ∨
     ((∀ q, q ∈ sample_questions → button ws q = false) ∧ clear_chat ws = true ∧
      main ws s
      = (inl RerunException,
         {| session := {| messages := Some [assistant_message welcome_message_main];
                          agent := agent (initialized (session s)) |};
            outside := w2;
            screen := (screen s ++ rendering (default [assistant_message welcome_message]
                                                (messages (session s)))) ++ scr2 |})) ∨
     (∃ l1 q l2 r w3, sample_questions = l1 ++ q :: l2 ∧
        (∀ x, x ∈ l1 → button ws x = false) ∧ button ws q = true ∧
        get_response (default __init__ (agent (session s))) q w2 = (inr r, w3) ∧
        main ws s
        = (inl RerunException,
           {| session := {| messages := Some (msgs2 ++ [user_message q; assistant_message r]);
                            agent := agent (initialized (session s)) |};
              outside := w3;
              screen := (screen s ++ rendering (default [assistant_message welcome_message]
                                                  (messages (session s)))) ++ scr2 |}))).
Proof.
  rewrite main_run.
  set (s1 := {| session := initialized (session s); outside := outside s;
                screen := screen s ++ rendering (default [assistant_message welcome_message]
                                                   (messages (session s))) |}).
  destruct (handle_user_input_ok (chat_input ws) s1 _ _ eq_refl eq_refl)
    as (msgs2 & w2 & scr2 & Hrun & Hcase).
  exists msgs2, w2, scr2. split.
  { destruct Hcase as [(Ht & -> & -> & ->)|(prompt & r & Hci & Hp & Hr & -> & ->)].
    - by left.
    - right. by exists prompt, r, (default [assistant_message welcome_message]
                                     (messages (session s))). }
  erewrite bind_run; [|exact Hrun].
  set (s2 := {| session := _; outside := w2; screen := screen s1 ++ scr2 |}).
  destruct (sample_loop ws sample_questions s2 msgs2 _ eq_refl eq_refl)
    as [[Hnone Hloop]|(l1 & q & l2 & r & w3 & Hl & Hl1 & Hq & Hr & Hloop)].
  - erewrite bind_run; [|exact Hloop]. destruct (clear_chat ws) eqn:Hc.
    + right. left. split; [done|]. split; [done|]. by rewrite clear_clicked_run.
    + left. done.
  - right. right. exists l1, q, l2, r, w3. split; [done|]. split; [done|].
    split; [done|]. split; [done|]. erewrite bind_raise; [|exact Hloop]. done.
Qed.

(** ** What the functions guarantee *)

Lemma get_response_nonempty self user_question w r w' :
  get_response self user_question w = (inr r, w') → r ≠ [].
Proof.
  unfold get_response. destruct (negb _ || negb _); [by intros [= <- _]|].
  destruct (find_best_match self user_question default_threshold w)
    as [[matched_question answer] w1].
  assert (random_choice FALLBACK_RESPONSES w1 = (inr r, w') → r ≠ []) as Hfallback.
  { destruct (random_choice_FALLBACK_RESPONSES w1) as (r' & -> & Hr'). intros [= <- _].
    apply FALLBACK_RESPONSES_nonempty. by eapply list_elem_of_lookup_2. }
  destruct answer as [[|c ans]|]; cbn [truthy]; [done| |done]. by intros [= <- _].
Qed.

Lemma get_response_agent_reply user_question w r w' :
  get_response __init__ user_question w = (inr r, w') → agent_reply r.
Proof.
  intros Hr.
  destruct (get_response_init_from THOUGHTFUL_AI_DATA user_question w)
    as (r0 & w0 & Hrun & _ & Hrange & _).
  change (init_from THOUGHTFUL_AI_DATA) with __init__ in Hrun.
  rewrite Hr in Hrun. by injection Hrun as <- _.
Qed.

Lemma sample_questions_nonempty q : q ∈ sample_questions → q ≠ [].
Proof.
  revert q. apply list.Forall_forall. apply (bool_decide_unpack _). vm_compute. exact I.
Qed.

(** X14. [initialize_session_state] returns; it keeps a history and an agent that
    are in the session state and fills in what is absent; a second call
    changes nothing. *)
Theorem initialize_session_state_idempotent (s : script_state) :
  ∃ s', initialize_session_state s = (inr tt, s') ∧
        messages (session s')
        = Some (default [assistant_message welcome_message] (messages (session s))) ∧
        agent (session s') = Some (default __init__ (agent (session s))) ∧
        outside s' = outside s ∧ screen s' = screen s ∧
        initialize_session_state s' = (inr tt, s').
Proof.
  eexists. split; [apply initialize_session_state_run|].
  repeat split.
Qed.

(** X15. With a history and an agent in the session state, a submitted text adds
    exactly two messages to the history, the text as the user's and the
    response of [get_response] as the assistant's, and draws these two; the
    response is not empty and the handler of the [try] is not entered. *)
Theorem handle_user_input_appends_exchange (s : script_state) (msgs : list message)
    (self : ThoughtfulAIAgent) (prompt : str) :
  messages (session s) = Some msgs → agent (session s) = Some self → prompt ≠ [] →
  ∃ r w', get_response self prompt (outside s) = (inr r, w') ∧ r ≠ [] ∧
          handle_user_input (Some prompt) s
          = (inr tt,
             {| session :=
                  {| messages := Some (msgs ++ [user_message prompt; assistant_message r]);
                     agent := Some self |};
                outside := w';
                screen := screen s
                          ++ rendering [user_message prompt; assistant_message r] |}).
Proof.
  intros Hm Ha Hp.
  destruct (get_response_returns self prompt (outside s)) as (r & w' & Hr).
  exists r, w'. split; [done|]. split; [by eapply get_response_nonempty|].
  by apply handle_user_input_run.
Qed.

Lemma handle_user_input_appends_exchange_witness :
  ∃ r w', get_response __init__ (py "EVA?") world0 = (inr r, w') ∧ r ≠ [] ∧
          handle_user_input (Some (py "EVA?"))
            {| session := {| messages := Some [assistant_message welcome_message];
                             agent := Some __init__ |};
               outside := world0; screen := [] |}
          = (inr tt,
             {| session :=
                  {| messages := Some ([assistant_message welcome_message]
                                       ++ [user_message (py "EVA?"); assistant_message r]);
                     agent := Some __init__ |};
                outside := w';
                screen := [] ++ rendering [user_message (py "EVA?"); assistant_message r] |}).
Proof.
  apply (handle_user_input_appends_exchange
           {| session := {| messages := Some [assistant_message welcome_message];
                            agent := Some __init__ |};
              outside := world0; screen := [] |}).
  - reflexivity.
  - reflexivity.
  - vm_compute. discriminate.
Defined.

(** X16. Without an agent in the session state, [handle_user_input] does not
    raise: the [AttributeError] is caught, and the apology that quotes it
    becomes the assistant's message, drawn with [st.error] in a second
    assistant container. *)
Theorem handle_user_input_without_agent (s : script_state) (msgs : list message)
    (prompt : str) :
  messages (session s) = Some msgs → agent (session s) = None → prompt ≠ [] →
  handle_user_input (Some prompt) s
  = (inr tt,
     {| session :=
          {| messages :=
               Some (msgs ++ [user_message prompt;
                              {| role := py "assistant";
                                 content := error_message (AttributeError (py "agent")) |}]);
             agent := None |};
        outside := outside s;
        screen := screen s ++ [chat_message (py "user"); markdown (Text prompt);
                               chat_message (py "assistant");
                               chat_message (py "assistant");
                               error (error_message (AttributeError (py "agent")))] |}).
Proof.
  destruct s as [[m a] w scr]. cbn [session messages agent outside screen].
  intros -> -> Hp. destruct prompt as [|c p]; [done|].
  unfold handle_user_input. cbn [truthy].
  unfold mbind, Script_bind, try_except, messages_append, get_messages, set_messages,
    draw, get_agent, mbind, Script_bind.
  cbn [session messages agent outside screen user_message app].
  by rewrite <- !app_assoc.
Qed.

Lemma handle_user_input_without_agent_witness :
  handle_user_input (Some (py "EVA?"))
    {| session := {| messages := Some []; agent := None |};
       outside := world0; screen := [] |}
  = (inr tt,
     {| session :=
          {| messages :=
               Some ([] ++ [user_message (py "EVA?");
                            {| role := py "assistant";
                               content := error_message (AttributeError (py "agent")) |}]);
             agent := None |};
        outside := world0;
        screen := [] ++ [chat_message (py "user"); markdown (Text (py "EVA?"));
                         chat_message (py "assistant");
                         chat_message (py "assistant");
                         error (error_message (AttributeError (py "agent")))] |}).
Proof.
  apply (handle_user_input_without_agent
           {| session := {| messages := Some []; agent := None |};
              outside := world0; screen := [] |}).
  - reflexivity.
  - reflexivity.
  - vm_compute. discriminate.
Defined.

(** X17. Without a history in the session state, a submitted text makes
    [handle_user_input] raise [AttributeError] before anything is stored or
    drawn. *)
Theorem handle_user_input_without_messages (s : script_state) (prompt : str) :
  messages (session s) = None → prompt ≠ [] →
  handle_user_input (Some prompt) s = (inl (AttributeError (py "messages")), s).
Proof.
  intros Hm Hp. destruct prompt as [|c p]; [done|].
  unfold handle_user_input. cbn [truthy].
  apply bind_raise. apply bind_raise. unfold get_messages. by rewrite Hm.
Qed.

Lemma handle_user_input_without_messages_witness :
  handle_user_input (Some (py "EVA?"))
    {| session := new_session; outside := world0; screen := [] |}
  = (inl (AttributeError (py "messages")),
     {| session := new_session; outside := world0; screen := [] |}).
Proof.
  apply handle_user_input_without_messages.
  - reflexivity.
  - vm_compute. discriminate.
Defined.

(** ** What a run of [main] does *)

Lemma existsb_none {A} (f : A → bool) l : (∀ x, x ∈ l → f x = false) → existsb f l = false.
Proof.
  induction l as [|x l IH]; intros Hl; [done|]. cbn [existsb].
  rewrite (Hl x) by apply list_elem_of_here. cbn. apply IH.
  intros y Hy. apply Hl. by apply list_elem_of_further.
Qed.

Lemma existsb_some {A} (f : A → bool) l1 x l2 : f x = true → existsb f (l1 ++ x :: l2) = true.
Proof.
  intros Hx. rewrite existsb_app. cbn [existsb]. rewrite Hx. by rewrite orb_true_r.
Qed.

(** X18. From any session state, a run of [main] ends normally or by
    [st.rerun()], never by another exception: by [st.rerun()] when a sample
    button or the Clear Chat button was clicked, normally otherwise. *)
Theorem main_ends_normally_or_reruns (ws : widgets) (s : script_state) :
  (main ws s).1
  = if existsb (button ws) sample_questions || clear_chat ws
    then inl RerunException else inr tt.
Proof.
  destruct (main_cases ws s) as (msgs2 & w2 & scr2 & _ & Hcase).
  destruct Hcase as [(Hnone & Hc & ->)|[(Hnone & Hc & ->)|Hsome]].
  - by rewrite (existsb_none _ _ Hnone), Hc.
  - by rewrite (existsb_none _ _ Hnone), Hc.
  - destruct Hsome as (l1 & q & l2 & r & w3 & -> & _ & Hq & _ & ->).
    by rewrite (existsb_some _ _ _ _ Hq).
Qed.

(** X19. A run in which no button was clicked draws exactly the history it
    leaves in the session state: the earlier messages, then the new exchange
    if a text was submitted. *)
Theorem complete_run_displays_the_history (ws : widgets) (s : script_state) :
  (∀ q, q ∈ sample_questions → button ws q = false) → clear_chat ws = false →
  ∃ msgs, messages (session (run ws s)) = Some msgs ∧ screen (run ws s) = rendering msgs.
Proof.
  intros Hnone Hc. unfold run.
  destruct (main_cases ws {| session := session s; outside := outside s; screen := [] |})
    as (msgs2 & w2 & scr2 & Hhandled & Hcase).
  destruct Hcase as [(_ & _ & ->)|[(_ & Hc' & _)|Hsome]].
  - exists msgs2. split; [done|]. cbn [snd session messages screen app].
    destruct Hhandled as [(_ & Hm & _ & ->)|(prompt & r & msgs1 & _ & _ & Hm & _ & -> & ->)];
      cbn [initialized messages] in Hm; injection Hm as ->.
    + by rewrite app_nil_r.
    + unfold rendering. by rewrite flat_map_app.
  - congruence.
  - destruct Hsome as (l1 & q & l2 & r & w3 & Hl & _ & Hq & _).
    rewrite Hnone in Hq; [done|]. rewrite Hl. apply elem_of_app. right.
    apply list_elem_of_here.
Qed.

Lemma complete_run_displays_the_history_witness :
  ∃ msgs,
    messages (session (run (submits (py "How does PHIL work?"))
                         {| session := new_session; outside := world0; screen := [] |}))
    = Some msgs ∧
    screen (run (submits (py "How does PHIL work?"))
              {| session := new_session; outside := world0; screen := [] |})
    = rendering msgs.
Proof.
  apply complete_run_displays_the_history.
  - intros q _. reflexivity.
  - reflexivity.
Defined.

(** X20. A click on Clear Chat (no sample button clicked in the run) leaves a
    history of one message, the welcome text of the Clear Chat branch, and
    keeps the agent. The text is not the one [initialize_session_state]
    stores: the two literals are indented differently. *)
Theorem clear_chat_resets_the_history (ws : widgets) (s : script_state) :
  (∀ q, q ∈ sample_questions → button ws q = false) → clear_chat ws = true →
  session (run ws s)
  = {| messages := Some [assistant_message welcome_message_main];
       agent := Some (default __init__ (agent (session s))) |} ∧
  welcome_message_main ≠ welcome_message.
Proof.
  intros Hnone Hc. split; [|vm_compute; discriminate]. unfold run.
  destruct (main_cases ws {| session := session s; outside := outside s; screen := [] |})
    as (msgs2 & w2 & scr2 & _ & Hcase).
  destruct Hcase as [(_ & Hc' & _)|[(_ & _ & ->)|Hsome]].
  - congruence.
  - reflexivity.
  - destruct Hsome as (l1 & q & l2 & r & w3 & Hl & _ & Hq & _).
    rewrite Hnone in Hq; [done|]. rewrite Hl. apply elem_of_app. right.
    apply list_elem_of_here.
Qed.

Lemma clear_chat_resets_the_history_witness :
  session (run {| chat_input := None; button := λ _, false; clear_chat := true |}
             {| session := {| messages := Some [assistant_message welcome_message;
                                                user_message (py "EVA?");
                                                assistant_message PROMPT];
                              agent := Some __init__ |};
                outside := world0; screen := [] |})
  = {| messages := Some [assistant_message welcome_message_main];
       agent := Some __init__ |} ∧
  welcome_message_main ≠ welcome_message.
Proof.
  apply (clear_chat_resets_the_history
           {| chat_input := None; button := λ _, false; clear_chat := true |}
           {| session := {| messages := Some [assistant_message welcome_message;
                                              user_message (py "EVA?");
                                              assistant_message PROMPT];
                            agent := Some __init__ |};
              outside := world0; screen := [] |}).
  - intros q _. reflexivity.
  - reflexivity.
Defined.

(** X21. A click on the button of a sample question leaves the session state and
    the world as a run in which the same text is submitted through the chat
    input does. *)
Theorem sample_button_simulates_the_question (q : str) (s : script_state) :
  q ∈ sample_questions →
  session (run (clicks q) s) = session (run (submits q) s) ∧
  outside (run (clicks q) s) = outside (run (submits q) s).
Proof.
  intros Hq. unfold run.
  destruct (main_cases (clicks q)
              {| session := session s; outside := outside s; screen := [] |})
    as (msgs2 & w2 & scr2 & Hhandled & Hcase).
  destruct (main_cases (submits q)
              {| session := session s; outside := outside s; screen := [] |})
    as (msgs2' & w2' & scr2' & Hhandled' & Hcase').
  cbn [session outside screen] in *.
  destruct Hhandled as [(_ & Hm & -> & ->)|(prompt & r & msgs1 & Hci & _)]; [|done].
  destruct Hhandled' as [(Ht & _)|(prompt & r & msgs1 & Hci & _ & Hm' & Hr & -> & ->)].
  { cbn in Ht. destruct q; [by apply sample_questions_nonempty in Hq|done]. }
  cbn [submits chat_input] in Hci. injection Hci as <-.
  cbn [initialized messages] in Hm, Hm'. injection Hm as ->. injection Hm' as ->.
  destruct Hcase' as [(_ & _ & ->)|[(_ & Hc & _)|Hsome]]; [|done|].
  2:{ destruct Hsome as (l1 & q' & l2 & r' & w3 & _ & _ & Hb & _). done. }
  destruct Hcase as [(Hnone & _)|[(_ & Hc & _)|Hsome]]; [|done|].
  { specialize (Hnone q Hq). cbn in Hnone. by rewrite bool_decide_eq_true_2 in Hnone. }
  destruct Hsome as (l1 & q' & l2 & r' & w3 & _ & _ & Hb & Hr' & ->).
  cbn [clicks button] in Hb. apply bool_decide_eq_true_1 in Hb. subst q'.
  rewrite Hr in Hr'. injection Hr' as <- <-. done.
Qed.

Lemma sample_button_simulates_the_question_witness :
  session (run (clicks (py "Tell me about CAM"))
             {| session := new_session; outside := world0; screen := [] |})
  = session (run (submits (py "Tell me about CAM"))
               {| session := new_session; outside := world0; screen := [] |}) ∧
  outside (run (clicks (py "Tell me about CAM"))
             {| session := new_session; outside := world0; screen := [] |})
  = outside (run (submits (py "Tell me about CAM"))
               {| session := new_session; outside := world0; screen := [] |}).
Proof.
  apply sample_button_simulates_the_question.
  apply (list_elem_of_lookup_2 _ 1). reflexivity.
Defined.

(** ** The history over a session *)

Lemma exchanges_snoc u a :
  exchanges [u; a] →
  ∀ h, (exchanges h → exchanges (h ++ [u; a])) ∧
       (∀ x, exchanges (x :: h) → exchanges (x :: h ++ [u; a])).
Proof.
  intros Hua. induction h as [|y h [IH1 IH2]]; split.
  - done.
  - intros x Hx. done.
  - apply IH2.
  - intros x [Hxy Hh]. split; [done|]. by apply IH1.
Qed.

Lemma conversation_snoc msgs q r :
  conversation msgs → q ≠ [] → agent_reply r →
  conversation (msgs ++ [user_message q; assistant_message r]).
Proof.
  intros (w & h & -> & Hw & Hh) Hq Hr. exists w, (h ++ [user_message q; assistant_message r]).
  split; [done|]. split; [done|]. apply exchanges_snoc; [|done].
  split; [|done]. by exists q, r.
Qed.

Lemma conversation_welcome w :
  w = welcome_message ∨ w = welcome_message_main → conversation [assistant_message w].
Proof. intros Hw. by exists w, []. Qed.

Lemma main_session_ok ws s :
  agent (session s) = None ∨ agent (session s) = Some __init__ →
  (messages (session s) = None ∨
   ∃ msgs, messages (session s) = Some msgs ∧ conversation msgs) →
  session_ok (session (main ws s).2).
Proof.
  intros Ha Hm.
  assert (default __init__ (agent (session s)) = __init__) as Hself
    by (by destruct Ha as [->| ->]).
  assert (conversation (default [assistant_message welcome_message] (messages (session s))))
    as Hconv.
  { destruct Hm as [->|(msgs & -> & Hmsgs)]; [|done]. apply conversation_welcome. by left. }
  destruct (main_cases ws s) as (msgs2 & w2 & scr2 & Hhandled & Hcase).
  rewrite Hself in *. cbn [initialized messages agent] in *. rewrite Hself in *.
  assert (conversation msgs2) as Hconv2.
  { destruct Hhandled as [(_ & Hm2 & _)|(prompt & r & msgs1 & _ & Hp & Hm1 & Hr & -> & _)].
    - by injection Hm2 as ->.
    - injection Hm1 as ->. apply conversation_snoc; [done..|].
      by eapply get_response_agent_reply. }
  destruct Hcase as [(_ & _ & ->)|[(_ & _ & ->)|Hsome]].
  - split; [done|]. by exists msgs2.
  - split; [done|]. eexists. split; [done|]. apply conversation_welcome. by right.
  - destruct Hsome as (l1 & q & l2 & r & w3 & Hl & _ & _ & Hr & ->).
    split; [done|]. eexists. split; [done|]. apply conversation_snoc; [done| |].
    + apply sample_questions_nonempty. rewrite Hl. apply elem_of_app. right.
      apply list_elem_of_here.
    + by eapply get_response_agent_reply.
Qed.

Lemma run_session_ok ws s : session_ok (session s) → session_ok (session (run ws s)).
Proof.
  intros [Ha (msgs & Hm & Hconv)]. unfold run. apply main_session_ok.
  - by right.
  - right. by exists msgs.
Qed.

Lemma runs_session_ok l : ∀ s, session_ok (session s) → session_ok (session (runs l s)).
Proof.
  induction l as [|ws l IH]; intros s Hs; [done|].
  cbn [runs foldl]. apply IH. by apply run_session_ok.
Qed.

(** X22. In a session that starts with an empty session state, after any number
    of runs (at least one), whatever was typed or clicked in them, the
    session state holds the agent of [__init__] and a history that is a
    welcome message of the assistant followed by exchanges: a non-empty text
    of the user, then a response of the agent, which is the prompt, a
    fallback string or an answer of the catalog. No apology message of the
    [except] branch is ever in it. *)
Theorem history_is_always_a_conversation (ws : widgets) (l : list widgets) (w : world)
    (scr : list element) :
  session_ok
    (session (runs (ws :: l) {| session := new_session; outside := w; screen := scr |})).
Proof.
  cbn [runs foldl]. apply runs_session_ok. unfold run. apply main_session_ok; by left.
Qed.

(** X23. What the sample buttons of the page are answered: every sample question
    gets an answer of the catalog, but "What does EVA do?" gets the answer
    of the CAM entry, and "Tell me about CAM" that of the entry about
    Thoughtful AI's agents in general. *)
Theorem sample_questions_answers (w : world) :
  Forall2 (λ q i, ∃ e, THOUGHTFUL_AI_DATA !! i = Some e ∧
                       get_response __init__ q w
                       = (inr (answer e), enter_matcher q default_threshold w))
    sample_questions [1; 3; 2; 4].
Proof.
  assert (∀ q i e, THOUGHTFUL_AI_DATA !! i = Some e →
            PyStr.strip q ≠ [] → answer e ≠ [] →
            find_best_match_try __init__ q default_threshold
            = inr (Some (question e), Some (answer e)) →
            ∃ e, THOUGHTFUL_AI_DATA !! i = Some e ∧
                 get_response __init__ q w
                 = (inr (answer e), enter_matcher q default_threshold w)) as Hone.
  { intros q i e He Hq Hans Htry. exists e. split; [done|]. by eapply get_response_match. }
  unfold sample_questions.
  constructor; [|constructor; [|constructor; [|constructor; [|constructor]]]];
    (eapply Hone;
     [reflexivity|vm_compute; discriminate|vm_compute; discriminate|vm_compute; reflexivity]).
Qed.

End script.

(** * The pair the matcher returns *)

Section returned_pair.
Import Difflib.

(** With a threshold in range and a catalog question that reaches it, the
    matcher returns the question with the highest score and the answer the
    dictionary holds for it. *)
Lemma find_best_match_winner data user_question threshold w :
  (0 <= threshold)%Q → (threshold <= 1)%Q →
  (∃ e, e ∈ data ∧ (threshold <= similarity user_question (question e))%Q) →
  ∃ e, e ∈ data ∧
       (find_best_match (init_from data) user_question threshold w).1
       = (Some (question e), Some (answer e)) ∧
       qa_dict (init_from data) !! question e = Some (answer e) ∧
       (threshold <= similarity user_question (question e))%Q ∧
       ∀ e', e' ∈ data →
             (similarity user_question (question e')
              <= similarity user_question (question e))%Q.
Proof.
  intros H0 H1 (e0 & He0 & Hge0).
  assert (questions (init_from data) = map question data) as Hqs by done.
  destruct (find_best_match_try_init_from data user_question threshold
              (similarity user_question (question e0), normalize_text (question e0))
              H0 H1) as (best & q & e & Htry & He & Hq & Hbest & Hmax & Heq).
  { apply kept_candidates_elem; [|by apply ge_true].
    rewrite Hqs. apply list_elem_of_fmap. by exists e0. }
  pose proof Htry as Hdict.
  apply find_best_match_try_inr in Hdict as (_ & _ & [[? _]|Hsome]); [done|].
  destruct Hsome as (_ & _ & q' & ans' & _ & _ & _ & Hans & [= <- <-]).
  apply kept_candidates_elem_inv in Hbest as [Hgeb _].
  rewrite Heq in Hgeb. cbn [fst] in Hgeb. apply ge_true in Hgeb.
  exists e. split; [done|]. unfold find_best_match. rewrite Htry, Hq. cbn [fst].
  split; [done|]. split; [done|]. split; [done|].
  intros e' He'.
  destruct (Qlt_le_dec (similarity user_question (question e')) threshold) as [Hlow|Hhigh].
  - apply Qlt_le_weak. by eapply Qlt_le_trans.
  - specialize (Hmax (similarity user_question (question e'), normalize_text (question e'))).
    rewrite Heq in Hmax. apply tuple_gt_false in Hmax.
    + cbn [fst] in Hmax. destruct Hmax as [Hlt|[Heq' _]].
      * by apply Qlt_le_weak.
      * rewrite Heq'. apply Qle_refl.
    + apply kept_candidates_elem; [|by apply ge_true].
      rewrite Hqs. apply list_elem_of_fmap. by exists e'.
Qed.

Lemma find_best_match_out_of_range self user_question threshold w :
  (threshold < 0)%Q ∨ (1 < threshold)%Q →
  (find_best_match self user_question threshold w).1 = (None, None).
Proof.
  intros Hout. unfold find_best_match, find_best_match_try, mbind, exn_bind. cbn zeta.
  rewrite get_close_matches_raises; [done|]. intros [H0 H1].
  destruct Hout as [Hneg|Hbig]; [by apply Qlt_not_le in Hneg|by apply Qlt_not_le in Hbig].
Qed.

Lemma find_best_match_no_winner data user_question threshold w :
  (∀ e, e ∈ data → (similarity user_question (question e) < threshold)%Q) →
  (find_best_match (init_from data) user_question threshold w).1 = (None, None).
Proof.
  intros Hlow.
  destruct (Qlt_le_dec threshold 0) as [Hneg|H0];
    [apply find_best_match_out_of_range; by left|].
  destruct (Qlt_le_dec 1 threshold) as [Hbig|H1];
    [apply find_best_match_out_of_range; by right|].
  unfold find_best_match.
  rewrite find_best_match_try_none; [done..|].
  apply kept_candidates_nil. intros q Hq.
  apply list_elem_of_fmap in Hq as (e & -> & He). by apply Hlow.
Qed.

(** C5 (as amended). The pair [find_best_match] returns never has one
    component without the other, for any input. With a threshold in [0, 1]:
    when a winner exists, that is when some catalog question scores at least
    the threshold, the pair holds the original text of a catalog question
    that reaches the threshold and that no catalog question outscores,
    together with exactly the answer the dictionary stores for that
    question; when none does, the pair is [(None, None)]. With a threshold
    outside [0, 1] the pair is [(None, None)], whatever the scores. *)
Theorem find_best_match_both_or_neither (data : list QAEntry) (user_question : str)
    (threshold : Q) (w : world) :
  ((find_best_match (init_from data) user_question threshold w).1 = (None, None) ∨
   ∃ e, e ∈ data ∧
        (find_best_match (init_from data) user_question threshold w).1
        = (Some (question e), Some (answer e)) ∧
        qa_dict (init_from data) !! question e = Some (answer e)) ∧
  ((0 <= threshold)%Q → (threshold <= 1)%Q →
   (∃ e, e ∈ data ∧ (threshold <= similarity user_question (question e))%Q) →
   ∃ e, e ∈ data ∧
        (find_best_match (init_from data) user_question threshold w).1
        = (Some (question e), Some (answer e)) ∧
        qa_dict (init_from data) !! question e = Some (answer e) ∧
        (threshold <= similarity user_question (question e))%Q ∧
        ∀ e', e' ∈ data →
              (similarity user_question (question e')
               <= similarity user_question (question e))%Q) ∧
  ((∀ e, e ∈ data → (similarity user_question (question e) < threshold)%Q) →
   (find_best_match (init_from data) user_question threshold w).1 = (None, None)) ∧
  ((threshold < 0)%Q ∨ (1 < threshold)%Q →
   (find_best_match (init_from data) user_question threshold w).1 = (None, None)).
Proof.
  split; [apply find_best_match_pair|].
  split; [apply find_best_match_winner|].
  split; [apply find_best_match_no_winner|apply find_best_match_out_of_range].
Qed.

Lemma find_best_match_both_or_neither_witness :
  ∃ e, e ∈ THOUGHTFUL_AI_DATA ∧
       (find_best_match __init__ (py "what is the weather today") default_threshold
          world0).1
       = (Some (question e), Some (answer e)) ∧
       qa_dict __init__ !! question e = Some (answer e) ∧
       (default_threshold <= similarity (py "what is the weather today") (question e))%Q ∧
       ∀ e', e' ∈ THOUGHTFUL_AI_DATA →
             (similarity (py "what is the weather today") (question e')
              <= similarity (py "what is the weather today") (question e))%Q.
Proof.
  apply (proj1 (proj2 (find_best_match_both_or_neither THOUGHTFUL_AI_DATA
                         (py "what is the weather today") default_threshold world0))).
  - vm_compute. discriminate.
  - vm_compute. discriminate.
  - exists {| question := py "What does the claims processing agent (CAM) do?";
              answer := py "CAM streamlines the submission and management of claims, improving accuracy, reducing manual intervention, and accelerating reimbursements." |}.
    split; [apply (list_elem_of_lookup_2 _ 1); reflexivity|].
    vm_compute. discriminate.
Defined.

(** C5 as stated fails on a threshold below 0: every catalog question
    reaches the threshold, so a winner exists, and the matcher returns
    [(None, None)], because [get_close_matches] rejects the cutoff. *)
Lemma winner_below_zero_is_not_returned :
  Forall (λ e, (- (1 # 2) <= similarity (py "What does EVA do?") (question e))%Q)
    THOUGHTFUL_AI_DATA ∧
  THOUGHTFUL_AI_DATA ≠ [] ∧
  (find_best_match __init__ (py "What does EVA do?") (- (1 # 2)) world0).1 = (None, None).
Proof.
  split; [|split; [done|vm_compute; reflexivity]].
  repeat (apply Forall_cons; split; [vm_compute; discriminate|]). apply Forall_nil_2.
Qed.

End returned_pair.
